(** * fifo_ct: FIFO cost-basis matching for a CoinTracking double-entry ledger

    Shallow embedding of [fifo_ct.py].  The embedding starts from the data
    frame as it stands after line 102 of the script (headers normalised, dates
    parsed, rows of the fiscal year kept, the [eur] column turned into
    numbers) and follows the function from the sort of line 103 to the summary
    of lines 173-183.

    Numbers.  The script computes on Python floats.  The engine is written
    once over an interface of the arithmetic it uses ([Numero]) and
    instantiated twice: at IEEE binary64 ([float], the arithmetic the script
    runs on) and at the rationals ([Q], the same program with exact
    arithmetic).  Statements that only depend on the control flow are proved
    for every instance, numeric scenarios are evaluated on binary64, the two
    facts on the guard of the consume loop that the invariants need are
    proved for binary64 from the specification of its operations, and the
    algebraic identities are proved for exact arithmetic.

    The interface keeps apart what the libraries keep apart: a value read
    from a row is a Python float and is rounded by Python's [round]; a
    column sum is a NumPy scalar and is rounded by NumPy's; [Series.sum] adds
    pairwise; the sum of [groupby] is a compensated sum.

    Rows.  The columns are typed: [tipo] and [cur] are strings and [amount]
    and [eur] are floats (a column of whole numbers that pandas reads as
    integers holds the same values up to 2^53), so the run is a total
    function.  The one arithmetic operation of the loop that Python can
    refuse, the division of the partial step, is shown below never to divide
    by zero. *)

From Stdlib Require Import ZArith QArith Qabs Qround Lqa Lia Floats Uint63.
From Stdlib Require Import Ascii String Sorted Permutation.
From stdpp Require Import gmap strings list fin_maps.

Set Warnings "-inexact-float".

(** ** Text: [str.upper] and the three label predicates

    A Python [str] is held as its UTF-8 encoding, one [ascii] per byte. *)

Module Texto.

Definition upper_ascii (c : ascii) : ascii :=
  let n := nat_of_ascii c in
  if (97 <=? n)%nat && (n <=? 122)%nat then ascii_of_nat (n - 32) else c.

Definition lower_ascii (c : ascii) : ascii :=
  let n := nat_of_ascii c in
  if (65 <=? n)%nat && (n <=? 90)%nat then ascii_of_nat (n + 32) else c.

(** [s.upper()] on ASCII text: the small ASCII letters are made capitals
    and every other byte is left as it is (on letters beyond ASCII Python
    goes by the Unicode tables). *)
Fixpoint upper (s : string) : string :=
  match s with
  | EmptyString => EmptyString
  | String c r => String (upper_ascii c) (upper r)
  end.

(** With [re.I] on a [str], a lower-case ASCII letter of a pattern takes,
    besides itself in either case, the other characters whose lower case it
    is or shares: U+0130 and U+0131 for [i], U+017F for [s], U+212A for
    [k].  Their UTF-8 encodings: *)
Definition otras (p : ascii) : list string :=
  if Ascii.eqb p "i" then
    [String "196" (String "176" EmptyString); String "196" (String "177" EmptyString)]
  else if Ascii.eqb p "s" then
    [String "197" (String "191" EmptyString)]
  else if Ascii.eqb p "k" then
    [String "226" (String "132" (String "170" EmptyString))]
  else [].

(** [s] without the bytes [pre] at its start, when it starts with them. *)
Fixpoint quita (pre s : string) : option string :=
  match pre with
  | EmptyString => Some s
  | String a pre' =>
      match s with
      | EmptyString => None
      | String c r => if Ascii.eqb a c then quita pre' r else None
      end
  end.

Fixpoint quita_alguno (l : list string) (s : string) : option string :=
  match l with
  | [] => None
  | pre :: l' =>
      match quita pre s with
      | Some r => Some r
      | None => quita_alguno l' s
      end
  end.

(** One letter [p] of a pattern against the start of [s]: what is left of
    [s] after the character it takes. *)
Definition letra (p : ascii) (s : string) : option string :=
  match s with
  | EmptyString => None
  | String c r =>
      if Ascii.eqb p (lower_ascii c) then Some r else quita_alguno (otras p) s
  end.

(** [re.match(pat, s, re.I)] for a pattern [pat] of lower-case ASCII
    letters: [s] starts with [pat], letter case ignored. *)
Fixpoint empieza (pat s : string) : bool :=
  match pat with
  | EmptyString => true
  | String p pr =>
      match letra p s with
      | Some r => empieza pr r
      | None => false
      end
  end.

(** The characters of [s] with the ASCII capitals made small. *)
Fixpoint minusculas (s : string) : string :=
  match s with
  | EmptyString => EmptyString
  | String c r => String (lower_ascii c) (minusculas r)
  end.

Definition es_compra (s : string) : bool := empieza "compra" s || empieza "buy" s.
Definition es_venta (s : string) : bool := empieza "venta" s || empieza "sell" s.
Definition es_fee (s : string) : bool := empieza "comisi" s || empieza "fee" s.

End Texto.
Export Texto.

(** ** The arithmetic the engine uses *)

Declare Scope num_scope.
Delimit Scope num_scope with num.

Class Numero (A : Type) := {
  cero : A;                       (* 0.0 *)
  uno : A;                        (* 1 *)
  eps : A;                        (* 1e-12 *)
  nadd : A -> A -> A;
  nsub : A -> A -> A;
  nmul : A -> A -> A;
  ndiv : A -> A -> A;
  nopp : A -> A;
  nabs : A -> A;
  ngt : A -> A -> bool;           (* a > b *)
  nle : A -> A -> bool;           (* a <= b *)
  suma : list A -> A;             (* Series.sum() *)
  suma_grupo : list A -> A;       (* the "sum" of groupby(...).agg *)
  round2 : A -> A;                (* round(x, 2), x a Python float *)
  round2_np : A -> A;             (* round(x, 2), x a NumPy float64 *)
  ngt_cero_eps : ngt cero eps = false;
  suma_nil : suma [] = cero;
  round2_cero : round2 cero = cero;
  round2_np_cero : round2_np cero = cero
}.

Infix "+" := nadd : num_scope.
Infix "-" := nsub : num_scope.
Infix "*" := nmul : num_scope.
Infix "/" := ndiv : num_scope.
Notation "- x" := (nopp x) : num_scope.
Infix ">?" := ngt (at level 70) : num_scope.
Infix "<=?" := nle (at level 70) : num_scope.

(** *** Binary64 *)

Module Binario.

(** Round half to even of [m * 100 / 2^k], for the mantissa [m] and the
    negated exponent [k] of a finite float. *)
Definition centimos (m : positive) (k : Z) : Z :=
  let num := (Z.pos m * 100)%Z in
  let den := (2 ^ k)%Z in
  let q := (num / den)%Z in
  let r := (num mod den)%Z in
  match (2 * r ?= den)%Z with
  | Lt => q
  | Gt => (q + 1)%Z
  | Eq => if Z.even q then q else (q + 1)%Z
  end.

(** [round(x, 2)] of a Python float: the decimal nearest to the exact value
    of [x] with two places, ties to even, then the float nearest to that
    decimal.  From 2^53 hundredths on, [x] is its own rounding. *)
Definition round2_f (x : float) : float :=
  match Prim2SF x with
  | S754_finite s m e =>
      if (e <? 0)%Z then
        let n := centimos m (- e) in
        if (n <? 2 ^ 53)%Z then
          let r := (PrimFloat.of_uint63 (Uint63.of_Z n) / 100)%float in
          if s then (- r)%float else r
        else x
      else x
  | _ => x
  end.

(** Round half to even of [m / 2^k]. *)
Definition entero (m : positive) (k : Z) : Z :=
  let den := (2 ^ k)%Z in
  let q := (Z.pos m / den)%Z in
  let r := (Z.pos m mod den)%Z in
  match (2 * r ?= den)%Z with
  | Lt => q
  | Gt => (q + 1)%Z
  | Eq => if Z.even q then q else (q + 1)%Z
  end.

(** [rint]: the whole number nearest to [x], ties to even, with the sign
    of [x].  A float whose exponent is not negative is whole already. *)
Definition rint (x : float) : float :=
  match Prim2SF x with
  | S754_finite s m e =>
      if (e <? 0)%Z then
        let r := PrimFloat.of_uint63 (Uint63.of_Z (entero m (- e))) in
        if s then (- r)%float else r
      else x
  | _ => x
  end.

(** [round(x, 2)] of a NumPy float64, which is what [Series.sum] returns
    and what a Python float becomes when such a sum is subtracted from it:
    NumPy multiplies by 100, rounds to a whole number and divides by 100.
    2.675 becomes 2.68 here and 2.67 under [round2_f]. *)
Definition round2_np_f (x : float) : float := (rint (x * 100) / 100)%float.

(** [Series.sum()].  pandas puts 0.0 in the place of the NaN entries and
    hands the column to NumPy, whose [add.reduce] starts from 0.0 and adds
    the pairwise sum of the entries: fewer than 8 entries are added in
    order, up to 128 are added on eight accumulators, more are halved. *)
Definition sin_nan (x : float) : float := if PrimFloat.is_nan x then 0%float else x.

Fixpoint acumula (r : list float) (a : list float) {struct r} : list float :=
  match r, a with
  | x :: r', y :: a' => (x + y)%float :: acumula r' a'
  | _, _ => r
  end.

(** The eight accumulators after the blocks of eight entries of [a], [n]
    of them, have been added to them. *)
Fixpoint ocho (n : nat) (r a : list float) : list float :=
  match n with
  | O => r
  | S n' => ocho n' (acumula r (firstn 8 a)) (skipn 8 a)
  end.

Definition suma_bloque (a : list float) : float :=
  let n := length a in
  let m := (n - n mod 8)%nat in
  match ocho (m / 8 - 1) (firstn 8 a) (skipn 8 a) with
  | [r0; r1; r2; r3; r4; r5; r6; r7] =>
      fold_left PrimFloat.add (skipn m a)
        (((r0 + r1) + (r2 + r3)) + ((r4 + r5) + (r6 + r7)))%float
  | _ => fold_left PrimFloat.add a (-0)%float
  end.

(** The recursion halves the block; [fuel] bounds its depth. *)
Fixpoint pairwise (fuel : nat) (a : list float) : float :=
  let n := length a in
  if (n <? 8)%nat then fold_left PrimFloat.add a (-0)%float
  else if (n <=? 128)%nat then suma_bloque a
  else
    match fuel with
    | O => suma_bloque a
    | S fuel' =>
        let n2 := (n / 2)%nat in
        let n2 := (n2 - n2 mod 8)%nat in
        (pairwise fuel' (firstn n2 a) + pairwise fuel' (skipn n2 a))%float
    end.

Definition suma_f (l : list float) : float :=
  (0 + pairwise (length l) (map sin_nan l))%float.

(** The sum of a group in [groupby(...).agg]: pandas adds the entries that
    are not NaN with a running compensation (Kahan), which it sets back to
    0.0 when it is NaN itself. *)
Definition kahan (st : float * float) (val : float) : float * float :=
  let '(sumx, comp) := st in
  if PrimFloat.is_nan val then st
  else
    let y := (val - comp)%float in
    let t := (sumx + y)%float in
    let c := (t - sumx - y)%float in
    (t, if PrimFloat.is_nan c then 0%float else c).

Definition suma_grupo_f (l : list float) : float :=
  fst (fold_left kahan l (0%float, 0%float)).

(** The tolerance 1e-12 as a mantissa and an exponent. *)
Definition eps_m : positive := Eval vm_compute in
  match Prim2SF 1e-12 with S754_finite _ m _ => m | _ => 1%positive end.
Definition eps_e : Z := Eval vm_compute in
  match Prim2SF 1e-12 with S754_finite _ _ e => e | _ => 0%Z end.

#[export] Instance float_Numero : Numero float := {|
  cero := 0%float;
  uno := 1%float;
  eps := 1e-12%float;
  nadd := PrimFloat.add;
  nsub := PrimFloat.sub;
  nmul := PrimFloat.mul;
  ndiv := PrimFloat.div;
  nopp := PrimFloat.opp;
  nabs := PrimFloat.abs;
  ngt := fun a b => PrimFloat.ltb b a;
  nle := PrimFloat.leb;
  suma := suma_f;
  suma_grupo := suma_grupo_f;
  round2 := round2_f;
  round2_np := round2_np_f;
  ngt_cero_eps := eq_refl;
  suma_nil := eq_refl;
  round2_cero := eq_refl;
  round2_np_cero := eq_refl
|}.

End Binario.
Export (hints) Binario.

(** *** Exact rationals *)

Module Exacto.

(** Nearest integer, ties to even. *)
Definition redondeo_par (q : Q) : Z :=
  let f := Qfloor q in
  match (q - inject_Z f ?= 1 # 2)%Q with
  | Lt => f
  | Gt => (f + 1)%Z
  | Eq => if Z.even f then f else (f + 1)%Z
  end.

(** Both roundings to two places are this one in exact arithmetic, and
    both sums are [suma_q]. *)
Definition round2_q (q : Q) : Q := Qred (inject_Z (redondeo_par (q * 100)) / 100).

Definition suma_q (l : list Q) : Q := fold_left Qplus l 0%Q.

#[export] Instance Q_Numero : Numero Q := {|
  cero := 0%Q;
  uno := 1%Q;
  eps := (1 # 1000000000000)%Q;
  nadd := Qplus;
  nsub := Qminus;
  nmul := Qmult;
  ndiv := Qdiv;
  nopp := Qopp;
  nabs := Qabs;
  ngt := fun a b => negb (Qle_bool a b);
  nle := Qle_bool;
  suma := suma_q;
  suma_grupo := suma_q;
  round2 := round2_q;
  round2_np := round2_q;
  ngt_cero_eps := eq_refl;
  suma_nil := eq_refl;
  round2_cero := eq_refl;
  round2_np_cero := eq_refl
|}.

End Exacto.
Export (hints) Exacto.

(** ** Data model *)

(** A row of the data frame on the canonical columns.  [date] is the parsed
    timestamp (nanoseconds, as pandas keeps it).  [trade_id] is [None] for a
    cell that [read_csv] found empty (pandas reads it as NaN, which is equal
    to nothing, itself included). *)
Record Row (A : Type) := mkRow {
  date : Z;
  tipo : string;
  amount : A;
  cur : string;
  eur : A;
  trade_id : option string
}.
Arguments mkRow {A}.
Arguments date {A}.
Arguments tipo {A}.
Arguments amount {A}.
Arguments cur {A}.
Arguments eur {A}.
Arguments trade_id {A}.

(** An open lot, the two-element list [[qty, coste]] of the inventory. *)
Record Lot (A : Type) := mkLot { lot_qty : A; lot_coste : A }.
Arguments mkLot {A}.
Arguments lot_qty {A}.
Arguments lot_coste {A}.

(** Counter-asset class: the strings "F" and "N" of the script. *)
Inductive Clave := F | N.

(** A row of [detalle], the dictionary appended at lines 156-167. *)
Record Fila (A : Type) := mkFila {
  fecha : Z;
  cripto : string;
  qty : A;
  valor_transm : A;
  coste_fifo : A;
  gastos : A;
  ganancia : A;
  clave : Clave
}.
Arguments mkFila {A}.
Arguments fecha {A}.
Arguments cripto {A}.
Arguments qty {A}.
Arguments valor_transm {A}.
Arguments coste_fifo {A}.
Arguments gastos {A}.
Arguments ganancia {A}.
Arguments clave {A}.

(** A row of [resumen]: one per (cripto, clave) group. *)
Record Resumen (A : Type) := mkResumen {
  r_cripto : string;
  r_clave : Clave;
  r_valor_transm : A;
  r_coste_fifo : A;
  r_gastos : A;
  r_ganancia : A
}.
Arguments mkResumen {A}.
Arguments r_cripto {A}.
Arguments r_clave {A}.
Arguments r_valor_transm {A}.
Arguments r_coste_fifo {A}.
Arguments r_gastos {A}.
Arguments r_ganancia {A}.

(** [df["trade_id"] == row["trade_id"]], row by row. *)
Definition mismo_trade (a b : option string) : bool :=
  match a, b with
  | Some x, Some y => String.eqb x y
  | _, _ => false
  end.

(** [Timestamp.date()]: the calendar day of a timestamp. *)
Definition dia (t : Z) : Z := (t / 86400000000000)%Z.

(** ** The engine *)

Section Motor.
Context {A : Type} `{Numero A}.
Local Open Scope num_scope.

(** *** The consume loop, lines 134-145 *)

(** The loop state: [salida], [coste_fifo] and the queue [inventario[cur]]. *)
Definition Bucle : Type := A * A * list (Lot A).

(** One evaluation of the guard and, when it holds, one run of the body. *)
Definition iteracion (st : Bucle) : option Bucle :=
  let '(salida, coste, cola) := st in
  match cola with
  | [] => None
  | lot :: resto =>
      if salida >? eps then
        if lot_qty lot <=? salida + eps then
          Some (salida - lot_qty lot, coste + lot_coste lot, resto)
        else
          let prop := salida / lot_qty lot in
          Some (cero, coste + lot_coste lot * prop,
                mkLot (lot_qty lot - salida) (lot_coste lot * (uno - prop)) :: resto)
      else None
  end.

(** The [while] itself, with a bound on the number of guard evaluations. *)
Fixpoint bucle (fuel : nat) (st : Bucle) : option Bucle :=
  match fuel with
  | O => None
  | S fuel' =>
      match iteracion st with
      | None => Some st
      | Some st' => bucle fuel' st'
      end
  end.

(** The same loop by recursion on the queue: a whole-lot step shortens the
    queue, and after a partial step [salida] is 0.0, for which the guard
    [salida > 1e-12] fails ([ngt_cero_eps]). *)
Fixpoint consume (cola : list (Lot A)) (salida coste : A) : Bucle :=
  match cola with
  | [] => (salida, coste, [])
  | lot :: resto =>
      if salida >? eps then
        if lot_qty lot <=? salida + eps then
          consume resto (salida - lot_qty lot) (coste + lot_coste lot)
        else
          let prop := salida / lot_qty lot in
          (cero, coste + lot_coste lot * prop,
           mkLot (lot_qty lot - salida) (lot_coste lot * (uno - prop)) :: resto)
      else (salida, coste, cola)
  end.

(** *** Trade linkage, lines 129-131 and 147-154 *)

Definition fee_eur (df : list (Row A)) (row : Row A) : A :=
  suma (map (fun r => nabs (eur r))
          (List.filter (fun r => mismo_trade (trade_id r) (trade_id row) && es_fee (tipo r)) df)).

Definition clave_de (df : list (Row A)) (row : Row A) : Clave :=
  if existsb (fun r => mismo_trade (trade_id r) (trade_id row) && String.eqb (upper (cur r)) "EUR") df
  then F else N.

(** *** The row loop, lines 110-167 *)

(** [inventario[cur]] of the [defaultdict(list)]: a missing key reads as []. *)
Definition lotes (inventario : gmap string (list (Lot A))) (c : string) : list (Lot A) :=
  default [] (inventario !! c).

(** The local variables of the disposal branch when the record is built:
    [valor_transm], [coste_fifo], [fee_eur], before any rounding. *)
Record Locales := mkLocales {
  l_valor_transm : A;
  l_coste_fifo : A;
  l_fee_eur : A
}.

Definition locales (df : list (Row A)) (cola : list (Lot A)) (row : Row A) : Locales :=
  mkLocales (- eur row) (snd (fst (consume cola (- amount row) cero))) (fee_eur df row).

(** The dictionary of lines 157-166.  [valor_transm] and [coste_fifo] are
    Python floats; [fee_eur] is the NumPy scalar that [sum] returned, and
    so is the difference it is subtracted in. *)
Definition fila (df : list (Row A)) (row : Row A) (l : Locales) : Fila A :=
  mkFila (dia (date row)) (upper (cur row)) (- amount row)
    (round2 (l_valor_transm l))
    (round2 (l_coste_fifo l))
    (round2_np (l_fee_eur l))
    (round2_np (l_valor_transm l - l_coste_fifo l - l_fee_eur l))
    (clave_de df row).

Definition Estado : Type := gmap string (list (Lot A)) * list (Fila A).

(** The body of the [for] loop on one row. *)
Definition paso (ignorar : gset string) (df : list (Row A)) (st : Estado) (row : Row A) : Estado :=
  let '(inventario, filas) := st in
  let c := upper (cur row) in
  if bool_decide (c ∈ ignorar) then st
  else if es_compra (tipo row) then
    (<[c := lotes inventario c ++ [mkLot (amount row) (eur row)]]> inventario, filas)
  else if es_venta (tipo row) then
    let cola := lotes inventario c in
    (<[c := snd (consume cola (- amount row) cero)]> inventario,
     filas ++ [fila df row (locales df cola row)])
  else st.

(** The loop over [df.iterrows()], from the empty inventory. *)
Definition motor (ignorar : gset string) (df : list (Row A)) : Estado :=
  fold_left (paso ignorar df) df (∅, []).

(** *** Sort and filter, lines 103-107 *)

(** [df.sort_values("date")].  Rows are ordered by ascending date.  Rows
    of equal date are kept in their order here; pandas sorts with NumPy's
    quicksort and does not promise an order among them, which is why the
    statements on the loop are made for every frame, in whatever order its
    rows are. *)
Fixpoint inserta (r : Row A) (l : list (Row A)) : list (Row A) :=
  match l with
  | [] => [r]
  | x :: l' => if (date r <=? date x)%Z then r :: l else x :: inserta r l'
  end.

Definition sort_values (df : list (Row A)) : list (Row A) :=
  fold_right inserta [] df.

(** [if solo_crypto:] holds for a non-empty string. *)
Definition solo (solo_crypto : option string) : option string :=
  match solo_crypto with
  | Some EmptyString => None
  | o => o
  end.

Definition marco (solo_crypto : option string) (df : list (Row A)) : list (Row A) :=
  let df := sort_values df in
  match solo solo_crypto with
  | Some s => List.filter (fun r => String.eqb (upper (cur r)) (upper s)) df
  | None => df
  end.

(** *** The summary, lines 169-183 *)

Definition clave_leb (a b : Clave) : bool :=
  match a, b with
  | N, F => false
  | _, _ => true
  end.

Definition clave_eqb (a b : Clave) : bool :=
  match a, b with
  | F, F | N, N => true
  | _, _ => false
  end.

Definition grupo_eqb (a b : string * Clave) : bool :=
  String.eqb (fst a) (fst b) && clave_eqb (snd a) (snd b).

Definition grupo_ltb (a b : string * Clave) : bool :=
  match String.compare (fst a) (fst b) with
  | Lt => true
  | Eq => clave_leb (snd a) (snd b) && negb (clave_eqb (snd a) (snd b))
  | Gt => false
  end.

Definition grupo_de (f : Fila A) : string * Clave := (cripto f, clave f).

(** The groups of [groupby(["cripto", "clave"])], each once, ascending. *)
Fixpoint inserta_grupo (k : string * Clave) (ks : list (string * Clave)) : list (string * Clave) :=
  match ks with
  | [] => [k]
  | k' :: r =>
      if grupo_eqb k k' then ks
      else if grupo_ltb k k' then k :: ks
      else k' :: inserta_grupo k r
  end.

Definition grupos (detalle : list (Fila A)) : list (string * Clave) :=
  fold_right inserta_grupo [] (map grupo_de detalle).

Definition del_grupo (k : string * Clave) (detalle : list (Fila A)) : list (Fila A) :=
  List.filter (fun f => grupo_eqb (grupo_de f) k) detalle.

Definition resumen (detalle : list (Fila A)) : list (Resumen A) :=
  map (fun k =>
         let g := del_grupo k detalle in
         mkResumen (fst k) (snd k)
           (suma_grupo (map valor_transm g)) (suma_grupo (map coste_fifo g))
           (suma_grupo (map gastos g)) (suma_grupo (map ganancia g)))
      (grupos detalle).

(** *** [fifo_ct], from line 103 on *)

Definition fifo_ct (ignorar : gset string) (solo_crypto : option string) (df : list (Row A))
  : list (Fila A) * list (Resumen A) :=
  let df := marco solo_crypto df in
  let detalle := snd (motor ignorar df) in
  (detalle, resumen detalle).

(** *** The run with its intermediate values kept

    The same loop, recording for each disposal the row it came from and the
    unrounded local variables instead of the rounded dictionary.  It is used
    to state properties of the values before rounding. *)

(** A row the loop treats as a disposal: not ignored, not matched by
    [es_compra], matched by [es_venta]. *)
Definition vendida (ignorar : gset string) (row : Row A) : bool :=
  negb (bool_decide (upper (cur row) ∈ ignorar))
  && negb (es_compra (tipo row)) && es_venta (tipo row).

(** A row the loop treats as an acquisition. *)
Definition comprada (ignorar : gset string) (row : Row A) : bool :=
  negb (bool_decide (upper (cur row) ∈ ignorar)) && es_compra (tipo row).

Definition ventas (ignorar : gset string) (df : list (Row A)) : list (Row A) :=
  List.filter (vendida ignorar) df.

Definition Traza : Type := gmap string (list (Lot A)) * list (Row A * Locales).

Definition paso_traza (ignorar : gset string) (df : list (Row A)) (st : Traza) (row : Row A) : Traza :=
  let '(inventario, vs) := st in
  let c := upper (cur row) in
  if bool_decide (c ∈ ignorar) then st
  else if es_compra (tipo row) then
    (<[c := lotes inventario c ++ [mkLot (amount row) (eur row)]]> inventario, vs)
  else if es_venta (tipo row) then
    let cola := lotes inventario c in
    (<[c := snd (consume cola (- amount row) cero)]> inventario,
     vs ++ [(row, locales df cola row)])
  else st.

Definition motor_traza (ignorar : gset string) (df : list (Row A)) : Traza :=
  fold_left (paso_traza ignorar df) df (∅, []).

Definition registra (df : list (Row A)) (t : Traza) : Estado :=
  (fst t, map (fun x => fila df (fst x) (snd x)) (snd t)).

(** *** Oversold runs

    [sin_sobreventa] holds when, at each disposal of the run, the queue of
    the asset holds at least the quantity disposed. *)
Fixpoint cubierto (ignorar : gset string) (df : list (Row A))
    (inventario : gmap string (list (Lot A))) (rows : list (Row A)) : bool :=
  match rows with
  | [] => true
  | row :: rows' =>
      (if vendida ignorar row
       then - amount row <=? suma (map lot_qty (lotes inventario (upper (cur row))))
       else true)
      && cubierto ignorar df (fst (paso ignorar df (inventario, []) row)) rows'
  end.

Definition sin_sobreventa (ignorar : gset string) (df : list (Row A)) : bool :=
  cubierto ignorar df ∅ df.

(** The matched cost recorded for an asset, and the cost of its
    acquisition rows. *)
Definition coste_registrado (asset : string) (detalle : list (Fila A)) : A :=
  suma (map coste_fifo (List.filter (fun f => String.eqb (cripto f) asset) detalle)).

Definition compras_de (asset : string) (df : list (Row A)) : list (Row A) :=
  List.filter (fun r => es_compra (tipo r) && String.eqb (upper (cur r)) asset) df.

Definition coste_adquirido (asset : string) (df : list (Row A)) : A :=
  suma (map eur (compras_de asset df)).

(** *** Vocabulary for the statements *)

(** Date order on rows. *)
Definition antes (a b : Row A) : Prop := (date a <= date b)%Z.
Definition antes_estricto (a b : Row A) : Prop := (date a < date b)%Z.

(** The fields of a record that its row alone decides. *)
Definition de_la_fila (df : list (Row A)) (row : Row A) : Z * string * A * A * A * Clave :=
  (dia (date row), upper (cur row), - amount row,
   round2 (- eur row), round2_np (fee_eur df row), clave_de df row).

Definition en_la_fila (f : Fila A) : Z * string * A * A * A * Clave :=
  (fecha f, cripto f, qty f, valor_transm f, gastos f, clave f).

(** The matched cost of an asset before rounding, over the recorded run. *)
Definition coste_exacto (asset : string) (tr : list (Row A * Locales)) : A :=
  suma (map (fun x => l_coste_fifo (snd x))
          (List.filter (fun x => String.eqb (upper (cur (fst x))) asset) tr)).

(** *** The specification's wording of three properties

    Stated on the records as they are emitted, to be compared with what
    the code does. *)

(** The fee of each record is the sum of the absolute values of the
    ledger's Fee rows on the trade of its disposal row. *)
Definition fee_es_la_suma (ignorar : gset string) (solo_crypto : option string)
    (df : list (Row A)) : Prop :=
  map gastos (fst (fifo_ct ignorar solo_crypto df))
  = map (fee_eur df) (ventas ignorar (marco solo_crypto df)).

(** The output is that of the row loop on the rows as supplied. *)
Definition procesa_como_llega (ignorar : gset string) (df : list (Row A)) : Prop :=
  fst (fifo_ct ignorar None df) = snd (motor ignorar df).

(** Without oversold disposals, the matched cost recorded for an asset is
    at most the cost of its acquisition rows. *)
Definition conservacion_registrada (ignorar : gset string) (solo_crypto : option string)
    (df : list (Row A)) (asset : string) : Prop :=
  sin_sobreventa ignorar (marco solo_crypto df) = true ->
  (coste_registrado asset (fst (fifo_ct ignorar solo_crypto df))
     <=? coste_adquirido asset df) = true.

End Motor.

Arguments Locales A : clear implicits.
Arguments Bucle A : clear implicits.
Arguments Estado A : clear implicits.
Arguments Traza A : clear implicits.


(** ** Ledgers used below (binary64) *)

Module Escenario.
Local Open Scope float_scope.

(** The ignore set the command line passes by default. *)
Definition ignorar : gset string := {["EUR"]}.

(** A day, in nanoseconds. *)
Definition t (n : Z) : Z := (n * 86400000000000)%Z.

(** Two acquisitions, a disposal of 1.5 and its fee. *)
Definition cuatro_filas : list (Row float) :=
  [ mkRow (t 1) "Buy" 1 "BTC" 100 None;
    mkRow (t 2) "Buy" 1 "BTC" 300 None;
    mkRow (t 3) "Sell" (-1.5) "BTC" (-450) (Some "T1");
    mkRow (t 3) "Fee" 0 "EUR" 5 (Some "T1") ].

(** The same rows with the two rows of day 3 exchanged. *)
Definition cuatro_filas' : list (Row float) :=
  [ mkRow (t 1) "Buy" 1 "BTC" 100 None;
    mkRow (t 2) "Buy" 1 "BTC" 300 None;
    mkRow (t 3) "Fee" 0 "EUR" 5 (Some "T1");
    mkRow (t 3) "Sell" (-1.5) "BTC" (-450) (Some "T1") ].

(** A disposal with two fee legs. *)
Definition dos_fees : list (Row float) :=
  [ mkRow (t 1) "Buy" 1 "BTC" 100 None;
    mkRow (t 2) "Sell" (-1) "BTC" (-450) (Some "T1");
    mkRow (t 2) "Fee" (-0.001) "BNB" (-2) (Some "T1");
    mkRow (t 2) "Fee" 3 "EUR" 3 (Some "T1") ].

(** A disposal whose fee leg is in another ticker. *)
Definition fee_en_eur : list (Row float) :=
  [ mkRow (t 1) "Buy" 1 "BTC" 100 None;
    mkRow (t 2) "Sell" (-1) "BTC" (-450) (Some "T1");
    mkRow (t 2) "Fee" 5 "EUR" 5 (Some "T1") ].

(** A disposal whose fee has more than two decimals. *)
Definition fee_fino : list (Row float) :=
  [ mkRow (t 1) "Buy" 1 "BTC" 100 None;
    mkRow (t 2) "Sell" (-1) "BTC" (-450) (Some "T1");
    mkRow (t 2) "Fee" 0.004 "BTC" 0.004 (Some "T1") ].

(** An acquisition dated after the disposal, supplied first. *)
Definition desordenado : list (Row float) :=
  [ mkRow (t 2) "Buy" 1 "BTC" 100 None;
    mkRow (t 1) "Sell" (-1) "BTC" (-450) (Some "T1") ].

(** Acquisition (qty 2, cost 100) and a disposal of 1. *)
Definition medio_lote : list (Row float) :=
  [ mkRow (t 1) "Buy" 2 "BTC" 100 None;
    mkRow (t 2) "Sell" (-1) "BTC" (-80) (Some "T1") ].

(** One lot of cost 0.016 disposed of in two halves. *)
Definition dos_mitades : list (Row float) :=
  [ mkRow (t 1) "Buy" 2 "BTC" 0.016 None;
    mkRow (t 2) "Sell" (-1) "BTC" (-1) (Some "T1");
    mkRow (t 3) "Sell" (-1) "BTC" (-1) (Some "T2") ].

(** A lot of 1.0000000000001 and a disposal of 1.0. *)
Definition casi_uno : list (Row float) :=
  [ mkRow (t 1) "Buy" 1.0000000000001 "BTC" 100 None;
    mkRow (t 2) "Sell" (-1) "BTC" (-120) (Some "T1") ].

(** Value 1.006 against a cost of 0.002. *)
Definition milesimas : list (Row float) :=
  [ mkRow (t 1) "Buy" 1 "BTC" 0.002 None;
    mkRow (t 2) "Sell" (-1) "BTC" (-1.006) (Some "T1") ].

(** A disposal whose fee leg is 2.675. *)
Definition fee_medio_centimo : list (Row float) :=
  [ mkRow (t 1) "Buy" 1 "BTC" 100 None;
    mkRow (t 2) "Sell" (-1) "BTC" (-450) (Some "T1");
    mkRow (t 2) "Fee" 2.675 "EUR" 2.675 (Some "T1") ].

(** A disposal with nine fee legs. *)
Definition nueve_fees : list (Row float) :=
  [ mkRow (t 1) "Sell" (-1) "BTC" (-450) (Some "T1");
    mkRow (t 2) "Fee" 0.2 "EUR" 0.2 (Some "T1");
    mkRow (t 3) "Fee" 0.005 "EUR" 0.005 (Some "T1");
    mkRow (t 4) "Fee" 1.1 "EUR" 1.1 (Some "T1");
    mkRow (t 5) "Fee" 0.015 "EUR" 0.015 (Some "T1");
    mkRow (t 6) "Fee" 0.015 "EUR" 0.015 (Some "T1");
    mkRow (t 7) "Fee" 0.005 "EUR" 0.005 (Some "T1");
    mkRow (t 8) "Fee" 0.115 "EUR" 0.115 (Some "T1");
    mkRow (t 9) "Fee" 0.005 "EUR" 0.005 (Some "T1");
    mkRow (t 10) "Fee" 0.335 "EUR" 0.335 (Some "T1") ].

(** A disposal of value 2.675 with nothing to match. *)
Definition valor_medio_centimo : list (Row float) :=
  [ mkRow (t 1) "Sell" (-1) "BTC" (-2.675) None ].

(** Lots of 1 and 0.5, and a disposal of 3. *)
Definition sobrevendido : list (Row float) :=
  [ mkRow (t 1) "Buy" 1 "BTC" 100 None;
    mkRow (t 2) "Buy" 0.5 "BTC" 70 None;
    mkRow (t 3) "Sell" (-3) "BTC" (-900) (Some "T1") ].

(** Lots of 1.25, 1e16 and 0.5, and a disposal of 1e16 + 2. *)
Definition sobrevendido_grande : list (Row float) :=
  [ mkRow (t 1) "Buy" 1.25 "BTC" 10 None;
    mkRow (t 2) "Buy" 1e16 "BTC" 20 None;
    mkRow (t 3) "Buy" 0.5 "BTC" 30 None;
    mkRow (t 4) "Sell" (-10000000000000002) "BTC" (-900) (Some "T1") ].

(** Three disposals of values 0.1, 0.2 and 0.3 with nothing to match. *)
Definition tres_ventas : list (Row float) :=
  [ mkRow (t 1) "Sell" (-1) "BTC" (-0.1) None;
    mkRow (t 2) "Sell" (-1) "BTC" (-0.2) None;
    mkRow (t 3) "Sell" (-1) "BTC" (-0.3) None ].

(** A lot of cost 0.1 disposed of in three thirds. *)
Definition tres_tercios : list (Row float) :=
  [ mkRow (t 1) "Buy" 3 "BTC" 0.1 None;
    mkRow (t 2) "Sell" (-1) "BTC" (-1) (Some "T1");
    mkRow (t 3) "Sell" (-1) "BTC" (-1) (Some "T2");
    mkRow (t 4) "Sell" (-1) "BTC" (-1) (Some "T3") ].

End Escenario.

(** ** Ledgers used below (exact arithmetic) *)

Module EscenarioQ.
Local Open Scope Q_scope.

Definition ignorar : gset string := {["EUR"]}.

(** A dust lot, a lot of 1, and a disposal of 3. *)
Definition sobrevendido : list (Row Q) :=
  [ mkRow 1 "Buy" 1 "BTC" 100 None;
    mkRow 2 "Buy" (1 # 2) "BTC" 70 None;
    mkRow 3 "Sell" (- 3) "BTC" (- 900) (Some "T1") ].

(** One lot of cost 0.016 disposed of in two halves. *)
Definition dos_mitades : list (Row Q) :=
  [ mkRow 1 "Buy" 2 "BTC" (16 # 1000) None;
    mkRow 2 "Sell" (- 1) "BTC" (- 1) (Some "T1");
    mkRow 3 "Sell" (- 1) "BTC" (- 1) (Some "T2") ].

(** Two lots, the second of negative cost, and a disposal of the first. *)
Definition coste_negativo : list (Row Q) :=
  [ mkRow 1 "Buy" 1 "BTC" 100 None;
    mkRow 2 "Buy" 1 "BTC" (- 50) None;
    mkRow 3 "Sell" (- 1) "BTC" (- 120) (Some "T1") ].

End EscenarioQ.

(** ** Vocabulary for the statements on the lots *)

Section Positivas.
Context {A : Type} `{Numero A}.
Local Open Scope num_scope.

(** A lot of positive quantity, in the order of the arithmetic. *)
Definition mayor_que_cero (l : Lot A) : Prop := (lot_qty l >? cero) = true.

(** Every lot of every queue has positive quantity. *)
Definition inventario_mayor_que_cero (inventario : gmap string (list (Lot A))) : Prop :=
  forall c cola, inventario !! c = Some cola -> Forall mayor_que_cero cola.

(** What the partial step needs of the arithmetic: where the guard holds
    and the front lot is not within the tolerance of the need, a positive
    lot less the need is positive. *)
Definition resta_positiva : Prop :=
  forall q s : A,
    (s >? eps) = true -> (q <=? s + eps) = false -> (q >? cero) = true ->
    (q - s >? cero) = true.

End Positivas.

Arguments resta_positiva A {_}.

(** ** Vocabulary for the statements on exact arithmetic *)

Definition positivo (l : Lot Q) : Prop := (0 < lot_qty l)%Q.
Definition coste_no_negativo (l : Lot Q) : Prop := (0 <= lot_coste l)%Q.

(** Every lot of every queue has positive quantity. *)
Definition inventario_positivo (inventario : gmap string (list (Lot Q))) : Prop :=
  forall c cola, inventario !! c = Some cola -> Forall positivo cola.

(** The cost of the acquisition rows of an asset that the loop takes in. *)
Definition coste_entrado (ignorar : gset string) (asset : string) (rows : list (Row Q)) : Q :=
  Exacto.suma_q (map eur (List.filter (fun r => comprada ignorar r && String.eqb (upper (cur r)) asset) rows)).

(** ** Vocabulary for further properties of the script *)

Section Vocabulario.
Context {A : Type} `{Numero A}.
Local Open Scope num_scope.

(** A row the loop acts on: its ticker is not ignored and its label is
    matched by [es_compra] or by [es_venta]. *)
Definition activa (ignorar : gset string) (row : Row A) : bool :=
  negb (bool_decide (upper (cur row) ∈ ignorar))
  && (es_compra (tipo row) || es_venta (tipo row)).

(** The row carries the ticker [asset], letter case aside. *)
Definition del_activo (asset : string) (row : Row A) : bool :=
  String.eqb (upper (cur row)) asset.

(** The lot an acquisition row appends. *)
Definition lote_de (row : Row A) : Lot A := mkLot (amount row) (eur row).

(** The fields of a record that do not come from the trade linkage. *)
Definition nucleo (f : Fila A) : Z * string * A * A * A :=
  (fecha f, cripto f, qty f, valor_transm f, coste_fifo f).

End Vocabulario.

(** A byte that is equal to a byte exactly when it is equal to that byte
    with the ASCII capitals made small: any byte but a small ASCII
    letter. *)
Definition fijo (a : ascii) : Prop :=
  forall c : ascii, Ascii.eqb a c = Ascii.eqb a (lower_ascii c).

(** [c] is the first byte of a character that the letter [p] of a pattern
    takes. *)
Definition abre (p c : ascii) : bool :=
  Ascii.eqb p (lower_ascii c)
  || existsb (fun pre => match pre with
                         | String a _ => Ascii.eqb a c
                         | EmptyString => false
                         end) (otras p).

(** The order of the summary: by ticker, then F before N. *)
Definition grupo_lt (a b : string * Clave) : Prop :=
  match String.compare (fst a) (fst b) with
  | Lt => True
  | Eq => snd a = F /\ snd b = N
  | Gt => False
  end.

(** The group a summary row stands for. *)
Definition grupo_resumen {A : Type} (s : Resumen A) : string * Clave :=
  (r_cripto s, r_clave s).

(** ** The fiscal year and the values, lines 94-102 *)

(** A cell of the [eur] column as [read_csv] gives it: a text, or a number
    when the reader has already made one of it (NaN, for an empty cell,
    included). *)
Inductive Celda (A : Type) :=
| Texto (s : string)
| Valor (x : A).
Arguments Texto {A}.
Arguments Valor {A}.

(** A row as it reaches line 94.  [c_date] is what [pd.to_datetime] with
    [errors="coerce"] gives for the date cell: [None] for a cell it cannot
    read (NaT).  [c_tipo] and [c_cur] are the texts of cells that hold one,
    and [c_amount] is a number: a frame with an empty label or ticker cell,
    or with an amount that is no number, makes the loop raise and is not a
    frame of this model. *)
Record Crudo (A : Type) := mkCrudo {
  c_date : option Z;
  c_tipo : string;
  c_amount : A;
  c_cur : string;
  c_eur : Celda A;
  c_trade_id : option string
}.
Arguments mkCrudo {A}.
Arguments c_date {A}.
Arguments c_tipo {A}.
Arguments c_amount {A}.
Arguments c_cur {A}.
Arguments c_eur {A}.
Arguments c_trade_id {A}.

(** [s.replace(",", "")] *)
Fixpoint sin_comas (s : string) : string :=
  match s with
  | EmptyString => EmptyString
  | String c r => if Ascii.eqb c "," then sin_comas r else String c (sin_comas r)
  end.

Section Anual.
Context {A : Type} `{Numero A}.

(** [Series.dt.year] on one timestamp. *)
Variable anio : Z -> Z.

(** [float(s)] on a text: [None] when Python raises ValueError. *)
Variable float_de : string -> option A.

(** [df["date"].dt.year == year]: the year of NaT is NaN, equal to no
    year. *)
Definition del_anio (year : Z) (c : Crudo A) : bool :=
  match c_date c with
  | Some d => (anio d =? year)%Z
  | None => false
  end.

(** Line 95, [df[df["date"].dt.year == year]]: the rows kept, each with
    its date. *)
Fixpoint filtra_anio (year : Z) (crudo : list (Crudo A)) : list (Z * Crudo A) :=
  match crudo with
  | [] => []
  | c :: crudo' =>
      match c_date c with
      | Some d =>
          if (anio d =? year)%Z then (d, c) :: filtra_anio year crudo'
          else filtra_anio year crudo'
      | None => filtra_anio year crudo'
      end
  end.

(** Lines 96-102 on one cell: a cell that is exactly "-" becomes 0, a
    text loses its commas and is read as a float, a number stays the number
    it is (it is written out and read back). *)
Definition limpia_eur (c : Celda A) : option A :=
  match c with
  | Valor x => Some x
  | Texto s => if String.eqb s "-" then Some cero else float_de (sin_comas s)
  end.

(** Lines 96-102 on the column: [None] when a cell cannot be read, which
    ends the program with a ValueError. *)
Fixpoint limpia_filas (l : list (Z * Crudo A)) : option (list (Row A)) :=
  match l with
  | [] => Some []
  | (d, c) :: l' =>
      match limpia_eur (c_eur c), limpia_filas l' with
      | Some x, Some rows =>
          Some (mkRow d (c_tipo c) (c_amount c) (c_cur c) x (c_trade_id c) :: rows)
      | _, _ => None
      end
  end.

(** [fifo_ct], from line 94 on: [None] when the cleaning of the values
    raises, which is the one error left to a frame of typed rows. *)
Definition fifo_ct_anual (year : Z) (ignorar : gset string) (solo_crypto : option string)
    (crudo : list (Crudo A)) : option (list (Fila A) * list (Resumen A)) :=
  option_map (fifo_ct ignorar solo_crypto) (limpia_filas (filtra_anio year crudo)).

End Anual.

(** [float(s)] into the exact numbers, on ASCII text: white space at both
    ends, a sign, digits with single underscores between them, a point, an
    exponent.  The texts [inf], [infinity] and [nan], which [float] reads
    too, have no rational value and are not read here; neither are digits
    and white space beyond ASCII. *)
Definition digito (c : ascii) : option Z :=
  let n := Z.of_nat (nat_of_ascii c) in
  if (48 <=? n)%Z && (n <=? 57)%Z then Some (n - 48)%Z else None.

Definition blanco (c : ascii) : bool :=
  let n := nat_of_ascii c in
  ((9 <=? n)%nat && (n <=? 13)%nat) || (n =? 32)%nat.

Fixpoint sin_blancos_delante (s : string) : string :=
  match s with
  | EmptyString => EmptyString
  | String c r => if blanco c then sin_blancos_delante r else s
  end.

Fixpoint sin_blancos_detras (s : string) : string :=
  match s with
  | EmptyString => EmptyString
  | String c r =>
      match sin_blancos_detras r with
      | EmptyString => if blanco c then EmptyString else String c EmptyString
      | r' => String c r'
      end
  end.

(** The digits at the start of [s], an underscore allowed between two of
    them: their number added to [10^k * num], how many they are with [n],
    and the rest of [s]. *)
Fixpoint digitos (s : string) (num : Z) (n : nat) : Z * nat * string :=
  match s with
  | EmptyString => (num, n, s)
  | String c r =>
      match digito c with
      | Some k => digitos r (10 * num + k)%Z (S n)
      | None =>
          if Ascii.eqb c "_" && (0 <? n)%nat then
            match r with
            | String c' _ =>
                match digito c' with
                | Some _ => digitos r num n
                | None => (num, n, s)
                end
            | EmptyString => (num, n, s)
            end
          else (num, n, s)
      end
  end.

(** The digits after a point, when [s] starts with one. *)
Definition tras_punto (s : string) : Z * nat * string :=
  match s with
  | String c r => if Ascii.eqb c "." then digitos r 0 0 else (0%Z, 0%nat, s)
  | EmptyString => (0%Z, 0%nat, s)
  end.

Definition signo (s : string) : bool * string :=
  match s with
  | String c r =>
      if Ascii.eqb c "-" then (true, r)
      else if Ascii.eqb c "+" then (false, r)
      else (false, s)
  | EmptyString => (false, s)
  end.

(** The exponent, when [s] starts with one; 0 when it does not. *)
Definition exponente (s : string) : option (Z * string) :=
  match s with
  | String c r =>
      if Ascii.eqb (lower_ascii c) "e" then
        let '(neg, r') := signo r in
        let '(e, n, r'') := digitos r' 0 0 in
        if (0 <? n)%nat then Some (if neg then (- e)%Z else e, r'') else None
      else Some (0%Z, s)
  | EmptyString => Some (0%Z, s)
  end.

Definition lee_decimal (s : string) : option Q :=
  let '(neg, s) := signo (sin_blancos_detras (sin_blancos_delante s)) in
  let '(ent, n1, r1) := digitos s 0 0 in
  let '(frac, n2, r2) := tras_punto r1 in
  if (0 <? n1 + n2)%nat then
    match exponente r2 with
    | Some (e, EmptyString) =>
        let m := (ent * 10 ^ Z.of_nat n2 + frac)%Z in
        let x := (inject_Z m / inject_Z (10 ^ Z.of_nat n2) * 10 ^ e)%Q in
        Some (Qred (if neg then - x else x))
    | _ => None
    end
  else None.

(** The calendar year of a timestamp in nanoseconds since 1970-01-01, in
    the proleptic Gregorian calendar (days to civil date, by eras of 400
    years). *)
Definition anio_civil (t : Z) : Z :=
  let z := (dia t + 719468)%Z in
  let era := (z / 146097)%Z in
  let doe := (z - era * 146097)%Z in
  let yoe := ((doe - doe / 1460 + doe / 36524 - doe / 146096) / 365)%Z in
  let y := (yoe + era * 400)%Z in
  let doy := (doe - (365 * yoe + yoe / 4 - yoe / 100))%Z in
  let mp := ((5 * doy + 2) / 153)%Z in
  let m := if (mp <? 10)%Z then (mp + 3)%Z else (mp - 9)%Z in
  if (m <=? 2)%Z then (y + 1)%Z else y.

(** ** The headers, lines 26-60 *)

Section Cabeceras.

(** The three string methods of lines 33-37 on one header: the byte-order
    mark removed, the white space at both ends stripped, the letters put in
    lower case. *)
Variable limpia : string -> string.

(** The dictionary of lines 40-53, in its order. *)
Definition rename_map : list (string * string) :=
  [ ("fecha de operación", "date");
    ("date", "date");
    ("tipo", "tipo");
    ("type", "tipo");
    ("cantidad", "amount");
    ("amount", "amount");
    ("cur.", "cur");
    ("cur", "cur");
    ("valor en eur en la transacción", "eur");
    ("value in eur", "eur");
    ("trade id", "trade_id");
    ("trade_id", "trade_id") ]%string.

(** [d.get(k)] *)
Fixpoint busca (k : string) (d : list (string * string)) : option string :=
  match d with
  | [] => None
  | (k', v) :: d' => if String.eqb k k' then Some v else busca k d'
  end.

(** [{k: v for k, v in rename_map.items() if k in df.columns}] *)
Definition presentes (cols : list string) : list (string * string) :=
  List.filter (fun kv => existsb (String.eqb (fst kv)) cols) rename_map.

(** [df.rename(columns=d)]: a header that is a key of [d] takes its value,
    any other header stays. *)
Definition rename (d : list (string * string)) (cols : list string) : list string :=
  map (fun c => default c (busca c d)) cols.

(** The set of line 57, as a list. *)
Definition requeridas : list string :=
  [ "date"; "tipo"; "amount"; "cur"; "eur"; "trade_id" ]%string.

(** [normaliza_cols] on the headers of the frame: [inl] the headers of the
    frame it returns, [inr] the canonical names it reports as missing when
    it ends the program (line 59; the script prints them in no fixed order,
    here they are in the order of [requeridas]). *)
Definition normaliza_cols (cols : list string) : list string + list string :=
  let cols := map limpia cols in
  let cols := rename (presentes cols) cols in
  match List.filter (fun c => negb (existsb (String.eqb c) cols)) requeridas with
  | [] => inl cols
  | faltan => inr faltan
  end.

(** The canonical name of a clean header. *)
Definition renombra (c : string) : string := default c (busca c rename_map).

(** The headers the function works out, before its check. *)
Definition canonicas (cols : list string) : list string :=
  map (fun h => renombra (limpia h)) cols.

End Cabeceras.

(** ** Inputs used below *)

Module EscenarioAnual.
Local Open Scope Q_scope.

(** An acquisition on 2023-06-01, a disposal on 2024-03-01 with its value
    written with a thousands separator, and a row whose date and value could
    not be read. *)
Definition dos_anios : list (Crudo Q) :=
  [ mkCrudo (Some (Escenario.t 19509)) "Buy" 1 "BTC" (Valor 100) None;
    mkCrudo (Some (Escenario.t 19783)) "Sell" (- 1) "BTC" (Texto "-1,450.50")
      (Some "T1"%string);
    mkCrudo None "Sell" (- 1) "BTC" (Texto "sin valor") (Some "T2"%string) ].

(** The same with a deposit of 2024 whose value cannot be read. *)
Definition con_error : list (Crudo Q) :=
  dos_anios
  ++ [ mkCrudo (Some (Escenario.t 19800)) "Deposit" 1 "EUR" (Texto "sin valor") None ].

(** The record and the summary row of the disposal of 2024. *)
Definition registro : Fila Q := mkFila 19783 "BTC" 1 (2901 # 2) 0 0 (2901 # 2) N.
Definition total : Resumen Q := mkResumen "BTC" N (2901 # 2) 0 0 (2901 # 2).

End EscenarioAnual.

Module EscenarioEnlace.
Local Open Scope float_scope.

(** A swap recorded as two disposals on one trade, with one fee row. *)
Definition dos_ventas : list (Row float) :=
  [ mkRow (Escenario.t 1) "Buy" 1 "BTC" 100 None;
    mkRow (Escenario.t 2) "Buy" 10 "ETH" 200 None;
    mkRow (Escenario.t 3) "Sell" (-1) "BTC" (-450) (Some "T1"%string);
    mkRow (Escenario.t 4) "Sell" (-10) "ETH" (-300) (Some "T1"%string);
    mkRow (Escenario.t 5) "Fee" 5 "EUR" 5 (Some "T1"%string) ].

(** A disposal dated before the acquisition, in both orders of supply. *)
Definition venta_primero : list (Row float) :=
  [ mkRow (Escenario.t 1) "Sell" (-1) "BTC" (-450) (Some "T1"%string);
    mkRow (Escenario.t 2) "Buy" 1 "BTC" 100 None ].

End EscenarioEnlace.

Module EscenarioCabeceras.
Local Open Scope string_scope.

(** Headers that cleaning leaves as they are. *)
Definition limpias (h : string) : string := h.

(** The Spanish headers of the export, clean, and one more column. *)
Definition castellano : list string :=
  [ "fecha de operación"; "tipo"; "cantidad"; "cur.";
    "valor en eur en la transacción"; "trade id"; "exchange" ].

Definition canonico : list string :=
  [ "date"; "tipo"; "amount"; "cur"; "eur"; "trade_id"; "exchange" ].

End EscenarioCabeceras.
(** ** Properties of the loop that hold for every arithmetic *)

Section Control.
Context {A : Type} `{Numero A}.
Local Open Scope num_scope.

(** The recursion on the queue computes the [while] loop: one guard
    evaluation more than there are lots is always enough. *)
Lemma bucle_consume (cola : list (Lot A)) :
  forall (fuel : nat) (salida coste : A),
    (length cola < fuel)%nat ->
    bucle fuel (salida, coste, cola) = Some (consume cola salida coste).
Proof.
  induction cola as [|lot resto IH]; intros fuel salida coste Hf.
  - destruct fuel; [simpl in Hf; lia|]. reflexivity.
  - destruct fuel as [|fuel]; [simpl in Hf; lia|].
    simpl in Hf. simpl.
    destruct (salida >? eps) eqn:Hg; [|reflexivity].
    destruct (lot_qty lot <=? salida + eps) eqn:Hw.
    + apply IH. lia.
    + destruct fuel as [|fuel]; [lia|]. simpl.
      rewrite ngt_cero_eps. reflexivity.
Qed.

Lemma paso_registra (ignorar : gset string) (df : list (Row A)) (t : Traza A) (row : Row A) :
  paso ignorar df (registra df t) row = registra df (paso_traza ignorar df t row).
Proof.
  destruct t as [inv vs]. unfold registra, paso, paso_traza. simpl.
  destruct (bool_decide (upper (cur row) ∈ ignorar)); [reflexivity|].
  destruct (es_compra (tipo row)); [reflexivity|].
  destruct (es_venta (tipo row)); [|reflexivity].
  simpl. rewrite map_app. reflexivity.
Qed.

Lemma fold_registra (ignorar : gset string) (df rows : list (Row A)) :
  forall t : Traza A,
    fold_left (paso ignorar df) rows (registra df t)
    = registra df (fold_left (paso_traza ignorar df) rows t).
Proof.
  induction rows as [|row rows IH]; intros t; [reflexivity|].
  cbn [fold_left]. rewrite paso_registra. apply IH.
Qed.

Lemma motor_registra (ignorar : gset string) (df : list (Row A)) :
  motor ignorar df = registra df (motor_traza ignorar df).
Proof.
  unfold motor, motor_traza.
  change (∅, []) with (registra df ((∅, []) : Traza A)) at 1.
  apply fold_registra.
Qed.

(** The recorded rows are the disposal rows, in the order of the frame. *)
Lemma traza_ventas (ignorar : gset string) (df rows : list (Row A)) :
  forall t : Traza A,
    map fst (snd (fold_left (paso_traza ignorar df) rows t))
    = map fst (snd t) ++ ventas ignorar rows.
Proof.
  induction rows as [|row rows IH]; intros [inv vs]; simpl.
  - rewrite app_nil_r. reflexivity.
  - rewrite IH. unfold paso_traza, vendida.
    destruct (bool_decide (upper (cur row) ∈ ignorar)); simpl; [reflexivity|].
    destruct (es_compra (tipo row)); simpl; [reflexivity|].
    destruct (es_venta (tipo row)); simpl; [|reflexivity].
    rewrite map_app. simpl. rewrite <- app_assoc. reflexivity.
Qed.

(** Every recorded entry holds the locals of its row for some queue. *)
Lemma traza_locales (ignorar : gset string) (df rows : list (Row A)) :
  forall t : Traza A,
    Forall (fun x => exists cola, snd x = locales df cola (fst x)) (snd t) ->
    Forall (fun x => exists cola, snd x = locales df cola (fst x))
           (snd (fold_left (paso_traza ignorar df) rows t)).
Proof.
  induction rows as [|row rows IH]; intros [inv vs] Ht; simpl; [exact Ht|].
  apply IH. unfold paso_traza.
  destruct (bool_decide (upper (cur row) ∈ ignorar)); [exact Ht|].
  destruct (es_compra (tipo row)); [exact Ht|].
  destruct (es_venta (tipo row)); [|exact Ht].
  simpl in *. apply Forall_app. split; [exact Ht|].
  constructor; [|constructor]. eexists. reflexivity.
Qed.

End Control.

(** ** Scenarios evaluated on binary64 *)

Section Binary64.
Import Escenario.
Local Open Scope float_scope.

(** Two floats with different representations are different. *)
Lemma float_distinto (a b : float) : Prim2SF a <> Prim2SF b -> a <> b.
Proof. intros Hne Heq. apply Hne. rewrite Heq. reflexivity. Qed.

Lemma guarda_uno : @ngt float _ 1 eps = true.
Proof. reflexivity. Qed.

Lemma casi_uno_entero : @nle float _ 1.0000000000001 (@nadd float _ 1 eps) = true.
Proof. reflexivity. Qed.

Lemma casi_uno_resto : @ngt float _ (@nsub float _ 1 1.0000000000001) eps = false.
Proof. reflexivity. Qed.

(** The lot of 1.0000000000001 is taken whole by a need of 1.0, whatever
    its cost, the cost matched so far and the lots behind it. *)
Lemma consume_casi_uno (c coste : float) (resto : list (Lot float)) :
  consume (mkLot 1.0000000000001 c :: resto) 1 coste
  = (1 - 1.0000000000001, coste + c, resto).
Proof.
  cbn [consume lot_qty lot_coste].
  rewrite guarda_uno, casi_uno_entero.
  destruct resto as [|l resto]; cbn [consume]; [reflexivity|].
  rewrite casi_uno_resto. reflexivity.
Qed.

Lemma bucle_casi_uno (c coste : float) (resto : list (Lot float)) :
  bucle 2 (1, coste, mkLot 1.0000000000001 c :: resto)
  = Some (1 - 1.0000000000001, coste + c, resto).
Proof.
  cbn [bucle iteracion lot_qty lot_coste].
  rewrite guarda_uno, casi_uno_entero.
  destruct resto as [|l resto]; [reflexivity|].
  cbn [iteracion]. rewrite casi_uno_resto. reflexivity.
Qed.

End Binary64.

(** ** Binary64: the guard of the consume loop

    The operations of the machine are specified by [SpecFloat]: a sum or a
    difference is the exact result on integer mantissas, rounded to nearest
    even.  What follows is what the loop needs of them: the rounded sum of a
    positive float and the tolerance is not below the float, and the rounded
    difference of two floats is positive when the first is the greater. *)

Section Maquina.
Local Open Scope Z_scope.

Lemma digits2_pos_bounds (p : positive) :
  2 ^ (Zpos (digits2_pos p) - 1) <= Zpos p < 2 ^ Zpos (digits2_pos p).
Proof.
  induction p as [p IH|p IH|]; cbn [digits2_pos].
  - rewrite Pos2Z.inj_succ.
    replace (Z.succ (Zpos (digits2_pos p)) - 1) with (Z.succ (Zpos (digits2_pos p) - 1)) by lia.
    rewrite !Z.pow_succ_r by lia. lia.
  - rewrite Pos2Z.inj_succ.
    replace (Z.succ (Zpos (digits2_pos p)) - 1) with (Z.succ (Zpos (digits2_pos p) - 1)) by lia.
    rewrite !Z.pow_succ_r by lia. lia.
  - cbn. lia.
Qed.

Lemma digits2_pos_mono (a b : positive) :
  Zpos a <= Zpos b -> Zpos (digits2_pos a) <= Zpos (digits2_pos b).
Proof.
  intros Hab.
  destruct (digits2_pos_bounds a) as [Ha _], (digits2_pos_bounds b) as [_ Hb].
  destruct (Z_lt_le_dec (Zpos (digits2_pos b)) (Zpos (digits2_pos a))) as [Hlt|]; [|assumption].
  exfalso.
  assert (2 ^ Zpos (digits2_pos b) <= 2 ^ (Zpos (digits2_pos a) - 1))
    by (apply Z.pow_le_mono_r; lia).
  lia.
Qed.

Lemma digits2_pos_shift (m : positive) (k : Z) (r : positive) :
  0 <= k -> Zpos r = Zpos m * 2 ^ k ->
  Zpos (digits2_pos r) = Zpos (digits2_pos m) + k.
Proof.
  intros Hk Hr.
  destruct (digits2_pos_bounds m) as [Hm1 Hm2], (digits2_pos_bounds r) as [Hr1 Hr2].
  assert (Hp : 0 < 2 ^ k) by (apply Z.pow_pos_nonneg; lia).
  assert (H1 : 2 ^ (Zpos (digits2_pos m) - 1 + k) <= Zpos r).
  { rewrite Z.pow_add_r by lia. rewrite Hr. nia. }
  assert (H2 : Zpos r < 2 ^ (Zpos (digits2_pos m) + k)).
  { rewrite Z.pow_add_r by lia. rewrite Hr. nia. }
  destruct (Z.lt_trichotomy (Zpos (digits2_pos r)) (Zpos (digits2_pos m) + k)) as [Hlt|[Heq|Hgt]];
    [exfalso|exact Heq|exfalso].
  - assert (2 ^ Zpos (digits2_pos r) <= 2 ^ (Zpos (digits2_pos m) - 1 + k))
      by (apply Z.pow_le_mono_r; lia).
    lia.
  - assert (2 ^ (Zpos (digits2_pos m) + k) <= 2 ^ (Zpos (digits2_pos r) - 1))
      by (apply Z.pow_le_mono_r; lia).
    lia.
Qed.

Lemma shr_1_m (mrs : shr_record) :
  0 <= shr_m mrs -> shr_m (shr_1 mrs) = Z.div2 (shr_m mrs).
Proof.
  destruct mrs as [m r s]. cbn [shr_m].
  destruct m as [|[p|p|]|p]; intros Hm; try reflexivity; lia.
Qed.

Lemma iter_pos_shr_m (p : positive) :
  forall mrs, 0 <= shr_m mrs ->
    shr_m (SpecFloat.iter_pos shr_1 p mrs) = shr_m mrs / 2 ^ Zpos p.
Proof.
  assert (Hnn : forall mrs, 0 <= shr_m mrs -> 0 <= shr_m (shr_1 mrs)).
  { intros mrs Hm. rewrite shr_1_m by exact Hm. rewrite Z.div2_div. apply Z.div_pos; lia. }
  induction p as [p IH|p IH|]; intros mrs Hm; cbn [SpecFloat.iter_pos].
  - assert (Hp : 2 ^ Zpos p~1 = 2 * (2 ^ Zpos p * 2 ^ Zpos p)).
    { rewrite Pos2Z.inj_xI, <- Z.pow_add_r, <- Z.pow_succ_r by lia. f_equal. lia. }
    assert (H1 : 0 <= shr_m (SpecFloat.iter_pos shr_1 p (shr_1 mrs))).
    { rewrite IH by (apply Hnn; exact Hm). apply Z.div_pos; [apply Hnn; exact Hm|].
      apply Z.pow_pos_nonneg; lia. }
    rewrite IH by exact H1. rewrite IH by (apply Hnn; exact Hm).
    rewrite shr_1_m by exact Hm.
    rewrite Z.div2_div, !Z.div_div by (try apply Z.pow_pos_nonneg; lia).
    rewrite Hp. first [reflexivity | f_equal; ring].
  - assert (Hp : 2 ^ Zpos p~0 = 2 ^ Zpos p * 2 ^ Zpos p).
    { rewrite Pos2Z.inj_xO, <- Z.pow_add_r by lia. f_equal. lia. }
    assert (H1 : 0 <= shr_m (SpecFloat.iter_pos shr_1 p mrs)).
    { rewrite IH by exact Hm. apply Z.div_pos; [exact Hm|]. apply Z.pow_pos_nonneg; lia. }
    rewrite IH by exact H1. rewrite IH by exact Hm.
    rewrite !Z.div_div by (try apply Z.pow_pos_nonneg; lia).
    rewrite Hp. reflexivity.
  - rewrite shr_1_m by exact Hm. rewrite Z.div2_div. reflexivity.
Qed.

(** Binary64: [fexp] is [max (x - 53) (-1074)]. *)
Lemma fexp_64 (x : Z) : fexp prec emax x = Z.max (x - 53) (-1074).
Proof. reflexivity. Qed.

Lemma canonical_64 (m : positive) (e : Z) :
  canonical_mantissa prec emax m e = true ->
  Z.max (Zpos (digits2_pos m) + e - 53) (-1074) = e.
Proof.
  unfold canonical_mantissa. rewrite fexp_64. intros H. apply Z.eqb_eq. exact H.
Qed.

Lemma valid_finite (s : bool) (m : positive) (e : Z) :
  valid_binary (S754_finite s m e) = true ->
  Z.max (Zpos (digits2_pos m) + e - 53) (-1074) = e.
Proof.
  cbn [SpecFloat.valid_binary]. unfold bounded. intros H.
  apply andb_prop in H as [H _]. apply canonical_64. exact H.
Qed.

(** The right shift of [shr_fexp] on a positive mantissa whose exponent is
    not below the least one: the exponent becomes [max e f] and the
    mantissa is divided by [2 ^ (f - e)], staying positive. *)
Lemma shr_fexp_pos (M : positive) (e : Z) (l : location) :
  -1074 <= e ->
  let f := fexp prec emax (Zpos (digits2_pos M) + e) in
  exists (mrs : shr_record) (p : positive),
    shr_fexp prec emax (Zpos M) e l = (mrs, Z.max e f)
    /\ shr_m mrs = Zpos p
    /\ Zpos p = (if f <=? e then Zpos M else Zpos M / 2 ^ (f - e)).
Proof.
  intros He f. unfold shr_fexp. cbn [Zdigits2]. fold f.
  assert (Hrec : shr_m (shr_record_of_loc (Zpos M) l) = Zpos M)
    by (destruct l as [|[| |]]; reflexivity).
  destruct (Z.leb_spec f e) as [Hfe|Hfe].
  - exists (shr_record_of_loc (Zpos M) l), M.
    split; [|split; [exact Hrec|reflexivity]].
    unfold shr. replace (Z.max e f) with e by lia.
    destruct (f - e) eqn:Hd; try reflexivity. lia.
  - assert (Hf : f = Zpos (digits2_pos M) + e - 53)
      by (unfold f in *; rewrite fexp_64 in *; lia).
    destruct (digits2_pos_bounds M) as [HM1 HM2].
    assert (Hq : 1 <= Zpos M / 2 ^ (f - e)).
    { apply Z.div_le_lower_bound; [apply Z.pow_pos_nonneg; lia|].
      rewrite Z.mul_1_r. etransitivity; [|exact HM1].
      apply Z.pow_le_mono_r; lia. }
    unfold shr. destruct (f - e) as [|d|d] eqn:Hd; try lia.
    destruct (Zpos M / 2 ^ Zpos d) as [|p|p] eqn:Hp; try lia.
    exists (SpecFloat.iter_pos shr_1 d (shr_record_of_loc (Zpos M) l)), p.
    split; [|split].
    + f_equal. lia.
    + rewrite iter_pos_shr_m by (rewrite Hrec; lia). rewrite Hrec. exact Hp.
    + reflexivity.
Qed.

Lemma round_nearest_even_ge (m : Z) (l : location) :
  m <= round_nearest_even m l <= m + 1.
Proof.
  destruct l as [|[| |]]; cbn [round_nearest_even]; try lia.
  destruct (Z.even m); lia.
Qed.

(** Rounding a positive mantissa gives a positive float or +infinity; the
    exponent of the result is at least [max e f], and a result at that
    exponent has a mantissa at least the mantissa shifted. *)
Lemma binary_round_aux_pos (M : positive) (e : Z) :
  -1074 <= e ->
  let f := fexp prec emax (Zpos (digits2_pos M) + e) in
  binary_round_aux prec emax false (Zpos M) e loc_Exact = S754_infinity false
  \/ exists (mt : positive) (et : Z),
       binary_round_aux prec emax false (Zpos M) e loc_Exact = S754_finite false mt et
       /\ Z.max e f <= et
       /\ (et = Z.max e f ->
           (if f <=? e then Zpos M else Zpos M / 2 ^ (f - e)) <= Zpos mt).
Proof.
  intros He f. unfold binary_round_aux.
  destruct (shr_fexp_pos M e loc_Exact He) as (mrs1 & p1 & Hs1 & Hm1 & Hp1).
  fold f in Hs1, Hp1. rewrite Hs1, Hm1.
  pose proof (round_nearest_even_ge (Zpos p1) (loc_of_shr_record mrs1)) as Hr.
  destruct (round_nearest_even (Zpos p1) (loc_of_shr_record mrs1)) as [|p2|p2] eqn:Hp2; try lia.
  assert (He1 : -1074 <= Z.max e f) by lia.
  destruct (shr_fexp_pos p2 (Z.max e f) loc_Exact He1) as (mrs2 & p3 & Hs2 & Hm2 & Hp3).
  cbv zeta in Hs2, Hp3. rewrite Hs2, Hm2.
  set (f' := fexp prec emax (Zpos (digits2_pos p2) + Z.max e f)) in *.
  destruct (Z.max (Z.max e f) f' <=? emax - prec); [right|left; reflexivity].
  exists p3, (Z.max (Z.max e f) f'). split; [reflexivity|]. split; [lia|].
  intros Heq. rewrite <- Hp1.
  destruct (Z.leb_spec f' (Z.max e f)); lia.
Qed.

Lemma shl_align_value (m : positive) (e e' : Z) :
  e' <= e ->
  Zpos (fst (shl_align m e e')) = Zpos m * 2 ^ (e - e')
  /\ snd (shl_align m e e') = e'.
Proof.
  intros Hle. unfold shl_align.
  destruct (e' - e) as [|d|d] eqn:Hd; try lia; cbn [fst snd].
  - replace (e - e') with 0 by lia. split; lia.
  - assert (He : e - e' = Zpos d) by lia. rewrite He. split; [|reflexivity].
    change (Zpos (shift_pos d m) = Zpos m * 2 ^ Zpos d).
    rewrite shift_pos_correct, Z.pow_pos_fold. apply Z.mul_comm.
Qed.

(** A positive integer at an exponent not below the least one rounds to a
    positive float or to +infinity. *)
Lemma binary_normalize_pos (M : positive) (e : Z) :
  -1074 <= e ->
  binary_normalize prec emax (Zpos M) e false = S754_infinity false
  \/ exists (mt : positive) (et : Z),
       binary_normalize prec emax (Zpos M) e false = S754_finite false mt et.
Proof.
  intros He. cbn [binary_normalize]. unfold binary_round.
  set (f := fexp prec emax (Zpos (digits2_pos M) + e)).
  assert (Hf : -1074 <= f) by (unfold f; rewrite fexp_64; lia).
  destruct (shl_align M e f) as [mz ez] eqn:Hsh.
  assert (Hez : -1074 <= ez).
  { unfold shl_align in Hsh. destruct (f - e); injection Hsh as <- <-; lia. }
  destruct (binary_round_aux_pos mz ez Hez) as [Hinf|(mt & et & Hfin & _)].
  - left. exact Hinf.
  - right. exists mt, et. exact Hfin.
Qed.

(** The rounding of a positive integer is not below a float that the
    integer is not below. *)
Lemma binary_normalize_ge (M : positive) (e : Z) (ms : positive) (es : Z) :
  -1074 <= e -> e <= es ->
  canonical_mantissa prec emax ms es = true ->
  Zpos ms * 2 ^ (es - e) <= Zpos M ->
  binary_normalize prec emax (Zpos M) e false = S754_infinity false
  \/ exists (mt : positive) (et : Z),
       binary_normalize prec emax (Zpos M) e false = S754_finite false mt et
       /\ (es < et \/ (es = et /\ Zpos ms <= Zpos mt)).
Proof.
  intros He Hes Hcan HM. apply canonical_64 in Hcan.
  cbn [binary_normalize]. unfold binary_round.
  set (f := fexp prec emax (Zpos (digits2_pos M) + e)).
  assert (Hp : 0 < 2 ^ (es - e)) by (apply Z.pow_pos_nonneg; lia).
  assert (Hdig : Zpos (digits2_pos ms) + (es - e) <= Zpos (digits2_pos M)).
  { destruct (Zpos ms * 2 ^ (es - e)) as [|r|r] eqn:Hr; try nia.
    rewrite <- (digits2_pos_shift ms (es - e) r) by lia.
    apply digits2_pos_mono. exact HM. }
  assert (Hf : es <= f) by (unfold f; rewrite fexp_64; lia).
  assert (Hsh : shl_align M e f = (M, e)).
  { unfold shl_align. destruct (f - e) eqn:Hd; try reflexivity. lia. }
  rewrite Hsh.
  destruct (binary_round_aux_pos M e He) as [Hinf|(mt & et & Hfin & Het & Hmt)].
  - left. exact Hinf.
  - right. exists mt, et. split; [exact Hfin|]. fold f in Het, Hmt.
    destruct (Z_lt_le_dec es et) as [Hlt|Hge]; [left; exact Hlt|right].
    assert (Heq : et = Z.max e f) by lia. split; [lia|].
    specialize (Hmt Heq). etransitivity; [|exact Hmt].
    destruct (Z.leb_spec f e) as [Hfe|Hfe].
    + replace (es - e) with 0 in HM by lia. lia.
    + replace (f - e) with (es - e) by lia.
      apply Z.div_le_lower_bound; [exact Hp|]. lia.
Qed.

(** The order of canonical positive floats is the order of their
    (exponent, mantissa) pairs. *)
Lemma canonical_lt (ma : positive) (ea : Z) (mb : positive) (eb : Z) :
  canonical_mantissa prec emax ma ea = true ->
  canonical_mantissa prec emax mb eb = true ->
  ea < eb \/ (ea = eb /\ Zpos ma < Zpos mb) ->
  forall z, z <= ea -> z <= eb ->
    Zpos ma * 2 ^ (ea - z) < Zpos mb * 2 ^ (eb - z).
Proof.
  intros Ha Hb Hlt z Hza Hzb. apply canonical_64 in Ha, Hb.
  destruct Hlt as [Hlt|[-> Hlt]].
  - destruct (digits2_pos_bounds ma) as [_ Ha2], (digits2_pos_bounds mb) as [Hb1 _].
    assert (Hdb : Zpos (digits2_pos mb) = 53) by lia.
    assert (Hda : Zpos (digits2_pos ma) <= 53) by lia.
    rewrite Hdb in Hb1.
    assert (H1 : Zpos ma * 2 ^ (ea - z) < 2 ^ (53 + (ea - z))).
    { rewrite Z.pow_add_r by lia.
      assert (0 < 2 ^ (ea - z)) by (apply Z.pow_pos_nonneg; lia).
      assert (2 ^ Zpos (digits2_pos ma) <= 2 ^ 53) by (apply Z.pow_le_mono_r; lia).
      nia. }
    assert (H2 : 2 ^ (52 + (eb - z)) <= Zpos mb * 2 ^ (eb - z)).
    { rewrite Z.pow_add_r by lia.
      assert (0 < 2 ^ (eb - z)) by (apply Z.pow_pos_nonneg; lia).
      change (53 - 1) with 52 in Hb1. nia. }
    assert (2 ^ (53 + (ea - z)) <= 2 ^ (52 + (eb - z))) by (apply Z.pow_le_mono_r; lia).
    lia.
  - assert (0 < 2 ^ (eb - z)) by (apply Z.pow_pos_nonneg; lia). nia.
Qed.

(** *** Two facts on the guard of the consume loop, on binary64 *)

Lemma Prim2SF_eps : Prim2SF 1e-12 = S754_finite false Binario.eps_m Binario.eps_e.
Proof. vm_compute. reflexivity. Qed.

Lemma Prim2SF_cero : Prim2SF 0 = S754_zero false.
Proof. vm_compute. reflexivity. Qed.

Lemma SF_positivo (x : spec_float) :
  SFltb (S754_zero false) x = true ->
  x = S754_infinity false \/ exists m e, x = S754_finite false m e.
Proof.
  destruct x as [[|]|[|]| |[|] m e]; cbn; intros H; try discriminate.
  - left. reflexivity.
  - right. exists m, e. reflexivity.
Qed.

Lemma SF_positivo_inv (x : spec_float) :
  x = S754_infinity false \/ (exists m e, x = S754_finite false m e) ->
  SFltb (S754_zero false) x = true.
Proof. intros [->|(m & e & ->)]; reflexivity. Qed.

Lemma SF_sobre_eps (s : spec_float) :
  SFltb (S754_finite false Binario.eps_m Binario.eps_e) s = true ->
  s = S754_infinity false \/ exists m e, s = S754_finite false m e.
Proof.
  destruct s as [[|]|[|]| |[|] m e]; cbn; intros H; try discriminate.
  - left. reflexivity.
  - right. exists m, e. reflexivity.
Qed.

(** The sum of a positive float and the tolerance is a positive float or
    +infinity, and is not below the float. *)
Lemma SF_mas_eps (ms : positive) (es : Z) :
  valid_binary (S754_finite false ms es) = true ->
  SF64add (S754_finite false ms es) (S754_finite false Binario.eps_m Binario.eps_e) = S754_infinity false
  \/ exists (mt : positive) (et : Z),
       SF64add (S754_finite false ms es) (S754_finite false Binario.eps_m Binario.eps_e)
       = S754_finite false mt et
       /\ (es < et \/ (es = et /\ Zpos ms <= Zpos mt)).
Proof.
  intros Hv. pose proof (valid_finite _ _ _ Hv) as Hes.
  cbn [SpecFloat.valid_binary] in Hv. unfold bounded in Hv.
  apply andb_prop in Hv as [Hcan _].
  unfold SF64add, SFadd. cbv zeta. cbn [cond_Zopp].
  set (ez := Z.min es Binario.eps_e).
  assert (Hee : -1074 <= Binario.eps_e) by (vm_compute; discriminate).
  destruct (shl_align_value ms es ez ltac:(lia)) as [Ha _].
  destruct (shl_align_value Binario.eps_m Binario.eps_e ez ltac:(lia)) as [Hb _].
  cbn [Z.add]. apply binary_normalize_ge.
  - lia.
  - lia.
  - exact Hcan.
  - rewrite Pos2Z.inj_add, Ha. lia.
Qed.

Lemma SF_resta_positiva (q s : spec_float) :
  valid_binary q = true -> valid_binary s = true ->
  SFltb (S754_finite false Binario.eps_m Binario.eps_e) s = true ->
  SFleb q (SF64add s (S754_finite false Binario.eps_m Binario.eps_e)) = false ->
  SFltb (S754_zero false) q = true ->
  SFltb (S754_zero false) (SF64sub q s) = true.
Proof.
  intros Hvq Hvs Hs Hle Hq.
  apply SF_sobre_eps in Hs as [->|(ms & es & ->)];
    apply SF_positivo in Hq as [->|(mq & eq & ->)]; try discriminate.
  - reflexivity.
  - destruct (SF_mas_eps ms es Hvs) as [Hinf|(mt & et & Hfin & Hge)];
      [rewrite Hinf in Hle; discriminate|].
    rewrite Hfin in Hle. unfold SFleb in Hle. cbn [SFcompare] in Hle.
    assert (Hlt : es < eq \/ (es = eq /\ Zpos ms < Zpos mq)).
    { destruct (Z.compare_spec eq et) as [Heq|Hlt|Hgt]; try discriminate; [|lia].
      subst et. rewrite Pos.compare_cont_spec in Hle. cbn [Pos.switch_Eq] in Hle.
      destruct (Pos.compare_spec mq mt) as [Heq|Hlt|Hgt]; try discriminate. lia. }
    clear Hle Hfin Hge mt et.
    pose proof (valid_finite _ _ _ Hvq) as Heq. pose proof (valid_finite _ _ _ Hvs) as Hes.
    cbn [SpecFloat.valid_binary] in Hvq, Hvs. unfold bounded in Hvq, Hvs.
    apply andb_prop in Hvq as [Hcq _]. apply andb_prop in Hvs as [Hcs _].
    unfold SF64sub, SFsub. cbv zeta. cbn [cond_Zopp].
    set (ez := Z.min eq es).
    destruct (shl_align_value mq eq ez ltac:(lia)) as [Ha _].
    destruct (shl_align_value ms es ez ltac:(lia)) as [Hb _].
    pose proof (canonical_lt ms es mq eq Hcs Hcq Hlt ez ltac:(lia) ltac:(lia)) as Hval.
    rewrite <- Ha, <- Hb in Hval.
    destruct (Zpos (fst (shl_align mq eq ez)) - Zpos (fst (shl_align ms es ez)))
      as [|d|d] eqn:Hd; try lia.
    apply SF_positivo_inv.
    destruct (binary_normalize_pos d ez ltac:(lia)) as [Hinf|Hfin]; [left|right]; assumption.
Qed.

Lemma SF_divisor (q s : spec_float) :
  valid_binary s = true ->
  SFltb (S754_finite false Binario.eps_m Binario.eps_e) s = true ->
  SFleb q (SF64add s (S754_finite false Binario.eps_m Binario.eps_e)) = false ->
  SFeqb q (S754_zero false) = false.
Proof.
  intros Hvs Hs Hle.
  destruct q as [sq|[|]| |[|] mq eq]; try reflexivity.
  exfalso.
  apply SF_sobre_eps in Hs as [->|(ms & es & ->)].
  - destruct sq; discriminate.
  - destruct (SF_mas_eps ms es Hvs) as [Hinf|(mt & et & Hfin & _)].
    + rewrite Hinf in Hle. destruct sq; discriminate.
    + rewrite Hfin in Hle. destruct sq; discriminate.
Qed.

(** On the floats of the machine. *)
Lemma resta_positiva_f (q s : float) :
  (1e-12 <? s)%float = true ->
  (q <=? s + 1e-12)%float = false ->
  (0 <? q)%float = true ->
  (0 <? q - s)%float = true.
Proof.
  rewrite !FloatAxioms.ltb_spec, FloatAxioms.leb_spec, FloatAxioms.add_spec,
    FloatAxioms.sub_spec, Prim2SF_eps, Prim2SF_cero.
  apply SF_resta_positiva; apply Prim2SF_valid.
Qed.

Lemma divisor_f (q s : float) :
  (1e-12 <? s)%float = true ->
  (q <=? s + 1e-12)%float = false ->
  (q =? 0)%float = false.
Proof.
  rewrite FloatAxioms.ltb_spec, FloatAxioms.leb_spec, FloatAxioms.eqb_spec,
    FloatAxioms.add_spec, Prim2SF_eps, Prim2SF_cero.
  apply SF_divisor; apply Prim2SF_valid.
Qed.

End Maquina.

(** The depth that [suma_f] gives the pairwise sum is enough: with the
    length of the list for [fuel], the sum does not depend on [fuel]. *)
Lemma pairwise_fuel (fuel : nat) :
  forall (fuel' : nat) (a : list float),
    (length a <= fuel)%nat -> (length a <= fuel')%nat ->
    Binario.pairwise fuel a = Binario.pairwise fuel' a.
Proof.
  induction fuel as [|f IH]; intros fuel' a Hf Hf'.
  - destruct a; [|cbn in Hf; lia]. destruct fuel'; reflexivity.
  - destruct fuel' as [|f'].
    + destruct a; [reflexivity|cbn in Hf'; lia].
    + cbn [Binario.pairwise].
      destruct (length a <? 8)%nat; [reflexivity|].
      destruct (length a <=? 128)%nat eqn:Hn; [reflexivity|].
      apply Nat.leb_gt in Hn.
      set (n2 := (length a / 2 - (length a / 2) mod 8)%nat).
      pose proof (Nat.div_mod_eq (length a) 2) as Hdm.
      pose proof (Nat.mod_upper_bound (length a) 2 ltac:(lia)) as Hm2.
      assert (Hmod : ((length a / 2) mod 8 < 8)%nat) by (apply Nat.mod_upper_bound; lia).
      pose proof (Nat.Div0.mod_le (length a / 2) 8) as Hle8.
      assert (H2 : (0 < n2 <= length a)%nat) by (unfold n2; lia).
      f_equal; apply IH; rewrite ?length_firstn, ?length_skipn; lia.
Qed.

(** ** The frame: sort and filter *)

Section Marco.
Context {A : Type} `{Numero A}.

Lemma inserta_perm (r : Row A) (l : list (Row A)) : Permutation (r :: l) (inserta r l).
Proof.
  induction l as [|x l IH]; cbn [inserta]; [reflexivity|].
  destruct (date r <=? date x)%Z; [reflexivity|].
  rewrite perm_swap. apply perm_skip. exact IH.
Qed.

Lemma sort_values_perm (df : list (Row A)) : Permutation df (sort_values df).
Proof.
  induction df as [|r df IH]; cbn [sort_values fold_right]; [reflexivity|].
  rewrite <- inserta_perm. apply perm_skip. exact IH.
Qed.

Lemma inserta_sorted (r : Row A) (l : list (Row A)) :
  Sorted antes l -> Sorted antes (inserta r l).
Proof.
  induction l as [|x l IH]; intros Hs; cbn [inserta].
  - repeat constructor.
  - destruct (date r <=? date x)%Z eqn:Hc.
    + constructor; [exact Hs|]. constructor. unfold antes. lia.
    + inversion Hs as [|? ? Hs' Hhd]; subst.
      constructor; [apply IH; exact Hs'|].
      destruct l as [|y l]; cbn [inserta].
      * constructor. unfold antes. lia.
      * destruct (date r <=? date y)%Z; constructor.
        -- unfold antes. lia.
        -- inversion Hhd; subst. assumption.
Qed.

Lemma sort_values_sorted (df : list (Row A)) : Sorted antes (sort_values df).
Proof.
  induction df as [|r df IH]; cbn [sort_values fold_right]; [constructor|].
  apply inserta_sorted. exact IH.
Qed.

(** A frame whose dates already ascend is left as it is. *)
Lemma sort_values_id (df : list (Row A)) :
  Sorted antes df -> sort_values df = df.
Proof.
  induction df as [|r df IH]; intros Hs; [reflexivity|].
  inversion Hs as [|? ? Hs' Hhd]; subst.
  cbn [sort_values fold_right]. fold (sort_values df). rewrite (IH Hs').
  destruct df as [|x df]; [reflexivity|].
  inversion Hhd as [|? ? Hrx]; subst. unfold antes in Hrx. cbn [inserta].
  destruct (date r <=? date x)%Z eqn:Hc; [reflexivity|lia].
Qed.

Lemma marco_sin_filtro (solo_crypto : option string) (df : list (Row A)) :
  solo solo_crypto = None -> marco solo_crypto df = sort_values df.
Proof. intros Hs. unfold marco. rewrite Hs. reflexivity. Qed.

Lemma marco_In (solo_crypto : option string) (df : list (Row A)) (r : Row A) :
  In r (marco solo_crypto df) -> In r df.
Proof.
  unfold marco. intros Hin.
  assert (Hs : In r (sort_values df)).
  { destruct (solo solo_crypto); [|exact Hin].
    apply filter_In in Hin. tauto. }
  eapply Permutation_in; [symmetry; apply sort_values_perm|exact Hs].
Qed.

End Marco.

(** ** What a disposal record is made of *)

Section Registros.
Context {A : Type} `{Numero A}.
Local Open Scope num_scope.

Lemma detalle_de_traza (ignorar : gset string) (solo_crypto : option string) (df : list (Row A)) :
  fst (fifo_ct ignorar solo_crypto df)
  = map (fun x => fila (marco solo_crypto df) (fst x) (snd x))
        (snd (motor_traza ignorar (marco solo_crypto df))).
Proof. unfold fifo_ct. cbn [fst]. rewrite motor_registra. reflexivity. Qed.

Lemma motor_traza_ventas (ignorar : gset string) (df : list (Row A)) :
  map fst (snd (motor_traza ignorar df)) = ventas ignorar df.
Proof. unfold motor_traza. rewrite traza_ventas. reflexivity. Qed.

Lemma motor_traza_locales (ignorar : gset string) (df : list (Row A)) :
  Forall (fun x => exists cola, snd x = locales df cola (fst x))
         (snd (motor_traza ignorar df)).
Proof. unfold motor_traza. apply traza_locales. constructor. Qed.

Lemma campos_de_la_fila (df : list (Row A)) (tr : list (Row A * Locales A)) :
  Forall (fun x => exists cola, snd x = locales df cola (fst x)) tr ->
  map en_la_fila (map (fun x => fila df (fst x) (snd x)) tr)
  = map (de_la_fila df) (map fst tr).
Proof.
  induction 1 as [|[row l] tr [cola Hl] _ IH]; [reflexivity|].
  cbn [map fst snd] in *. rewrite IH. subst l. reflexivity.
Qed.

(** The records of the loop on any frame: one per disposal row, in the
    order of the frame, with the row's own fields, the rounded fee of its
    trade and its class. *)
Lemma registros_del_marco (ignorar : gset string) (df : list (Row A)) :
  map en_la_fila (snd (motor ignorar df)) = map (de_la_fila df) (ventas ignorar df).
Proof.
  rewrite motor_registra. cbn [registra snd].
  rewrite campos_de_la_fila by apply motor_traza_locales.
  rewrite motor_traza_ventas. reflexivity.
Qed.

(** The locals of the records of the loop on any frame. *)
Lemma registros_locales (ignorar : gset string) (df : list (Row A)) (f : Fila A) :
  In f (snd (motor ignorar df)) ->
  exists (row : Row A) (cola : list (Lot A)),
    In row (ventas ignorar df) /\ f = fila df row (locales df cola row).
Proof.
  rewrite motor_registra. cbn [registra snd]. intros Hin.
  apply in_map_iff in Hin as ([row l] & <- & Hx).
  pose proof (motor_traza_locales ignorar df) as Hloc.
  rewrite List.Forall_forall in Hloc. destruct (Hloc _ Hx) as [cola Hl].
  cbn [fst snd] in *. subst l. exists row, cola. split; [|reflexivity].
  rewrite <- motor_traza_ventas. apply in_map_iff.
  exists (row, locales df cola row). split; [reflexivity|exact Hx].
Qed.

(** One record per disposal row, in the order of the frame, with the
    row's own fields, the rounded fee of its trade and its class. *)
Lemma detalle_ventas (ignorar : gset string) (solo_crypto : option string) (df : list (Row A)) :
  map en_la_fila (fst (fifo_ct ignorar solo_crypto df))
  = map (de_la_fila (marco solo_crypto df)) (ventas ignorar (marco solo_crypto df)).
Proof.
  rewrite detalle_de_traza, campos_de_la_fila by apply motor_traza_locales.
  rewrite motor_traza_ventas. reflexivity.
Qed.

Lemma filter_nada {X : Type} (p : X -> bool) (l : list X) :
  (forall x, In x l -> p x = false) -> List.filter p l = [].
Proof.
  induction l as [|x l IH]; intros Hp; [reflexivity|].
  cbn [List.filter]. rewrite (Hp x (or_introl eq_refl)).
  apply IH. intros y Hy. apply Hp. right. exact Hy.
Qed.

Lemma existsb_nada {X : Type} (p : X -> bool) (l : list X) :
  (forall x, In x l -> p x = false) -> existsb p l = false.
Proof.
  induction l as [|x l IH]; intros Hp; [reflexivity|].
  cbn [existsb]. rewrite (Hp x (or_introl eq_refl)).
  apply IH. intros y Hy. apply Hp. right. exact Hy.
Qed.

Lemma mismo_trade_None (a : option string) : mismo_trade a None = false.
Proof. destruct a; reflexivity. Qed.

(** No Fee row and no EUR row on the trade: fee 0.0 and class N. *)
Lemma sin_enlace (df : list (Row A)) (row : Row A) :
  (forall r, In r df -> mismo_trade (trade_id r) (trade_id row) = true ->
             es_fee (tipo r) = false /\ upper (cur r) <> "EUR"%string) ->
  round2_np (fee_eur df row) = cero /\ clave_de df row = N.
Proof.
  intros Hno. split.
  - unfold fee_eur. rewrite filter_nada.
    + cbn [map]. rewrite suma_nil. apply round2_np_cero.
    + intros r Hr. destruct (mismo_trade (trade_id r) (trade_id row)) eqn:Hm; [|reflexivity].
      destruct (Hno r Hr Hm) as [Hfee _]. rewrite Hfee. reflexivity.
  - unfold clave_de. rewrite existsb_nada; [reflexivity|].
    intros r Hr. destruct (mismo_trade (trade_id r) (trade_id row)) eqn:Hm; [|reflexivity].
    destruct (Hno r Hr Hm) as [_ Hcur]. cbn [andb].
    apply String.eqb_neq. exact Hcur.
Qed.

End Registros.

(** ** Exact arithmetic: sums, comparisons, rounding *)

Section Exacta.
Import Exacto.
Local Open Scope Q_scope.

Lemma ngt_Q (a b : Q) : @ngt Q _ a b = true <-> b < a.
Proof.
  cbn. rewrite negb_true_iff. split; intros Hx.
  - apply Qnot_le_lt. intros Hle. apply Qle_bool_iff in Hle. congruence.
  - destruct (Qle_bool a b) eqn:Hb; [|reflexivity].
    apply Qle_bool_iff in Hb. lra.
Qed.

Lemma ngt_Q_false (a b : Q) : @ngt Q _ a b = false <-> a <= b.
Proof.
  cbn. rewrite negb_false_iff. apply Qle_bool_iff.
Qed.

Lemma nle_Q (a b : Q) : @nle Q _ a b = true <-> a <= b.
Proof. cbn. apply Qle_bool_iff. Qed.

Lemma nle_Q_false (a b : Q) : @nle Q _ a b = false <-> b < a.
Proof.
  cbn. split; intros Hx.
  - apply Qnot_le_lt. intros Hle. apply Qle_bool_iff in Hle. congruence.
  - destruct (Qle_bool a b) eqn:Hb; [|reflexivity].
    apply Qle_bool_iff in Hb. lra.
Qed.

Lemma eps_Q : @eps Q _ == 1 # 1000000000000.
Proof. reflexivity. Qed.

Lemma eps_Q_pos : 0 < @eps Q _.
Proof. reflexivity. Qed.

(** [Series.sum] over exact numbers. *)
Lemma fold_suma (l : list Q) : forall a : Q, fold_left Qplus l a == a + suma_q l.
Proof.
  unfold suma_q. induction l as [|x l IH]; intros a; cbn [fold_left].
  - lra.
  - rewrite IH. rewrite (IH (0 + x)). lra.
Qed.

Lemma suma_q_nil : suma_q [] == 0.
Proof. reflexivity. Qed.

Lemma suma_q_cons (x : Q) (l : list Q) : suma_q (x :: l) == x + suma_q l.
Proof. unfold suma_q at 1. cbn [fold_left]. rewrite fold_suma. lra. Qed.

Lemma suma_q_app (l1 l2 : list Q) : suma_q (l1 ++ l2) == suma_q l1 + suma_q l2.
Proof.
  induction l1 as [|x l1 IH]; cbn [app].
  - rewrite suma_q_nil. lra.
  - rewrite !suma_q_cons, IH. lra.
Qed.

Lemma suma_q_perm (l1 l2 : list Q) : Permutation l1 l2 -> suma_q l1 == suma_q l2.
Proof.
  induction 1 as [|x l1 l2 _ IH|x y l|l1 l2 l3 _ IH1 _ IH2].
  - reflexivity.
  - rewrite !suma_q_cons, IH. reflexivity.
  - rewrite !suma_q_cons. lra.
  - rewrite IH1. exact IH2.
Qed.

Lemma suma_q_nonneg (l : list Q) : Forall (fun x => 0 <= x) l -> 0 <= suma_q l.
Proof.
  induction 1 as [|x l Hx _ IH]; [rewrite suma_q_nil; lra|].
  rewrite suma_q_cons. lra.
Qed.

(** Rounding to the nearest integer is off by at most one half. *)
Lemma redondeo_par_cerca (q : Q) :
  - (1 # 2) <= inject_Z (redondeo_par q) - q <= 1 # 2.
Proof.
  unfold redondeo_par.
  pose proof (Qfloor_le q) as Hlo. pose proof (Qlt_floor q) as Hhi.
  rewrite inject_Z_plus in Hhi. change (inject_Z 1) with 1 in Hhi.
  destruct (q - inject_Z (Qfloor q) ?= 1 # 2) eqn:Hc.
  - apply Qeq_alt in Hc.
    destruct (Z.even (Qfloor q)); [lra|].
    rewrite inject_Z_plus. change (inject_Z 1) with 1. lra.
  - apply Qlt_alt in Hc. lra.
  - apply Qgt_alt in Hc. rewrite inject_Z_plus. change (inject_Z 1) with 1. lra.
Qed.

(** [round(x, 2)] is off by at most half a cent. *)
Lemma round2_q_cerca (q : Q) : - (1 # 200) <= round2_q q - q <= 1 # 200.
Proof.
  unfold round2_q. rewrite Qred_correct.
  pose proof (redondeo_par_cerca (q * 100)) as Hr.
  set (n := inject_Z (redondeo_par (q * 100))) in *.
  assert (Hn : n / 100 == n * (1 # 100)) by (unfold Qdiv; reflexivity).
  rewrite Hn. lra.
Qed.

End Exacta.

(** ** Exact arithmetic: the consume loop *)

(** Unfolds the operations of the interface at the rationals. *)
Ltac numQ :=
  cbn [nadd nsub nmul ndiv nopp nabs cero uno suma Exacto.Q_Numero] in *.

Section ConsumeExacto.
Import Exacto.
Local Open Scope Q_scope.

(** The cost matched and the cost left in the queue add up to what was
    there before. *)
Lemma consume_conserva (cola : list (Lot Q)) :
  forall salida coste : Q,
    snd (fst (consume cola salida coste)) + suma_q (map lot_coste (snd (consume cola salida coste)))
    == coste + suma_q (map lot_coste cola).
Proof.
  induction cola as [|lot resto IH]; intros salida coste; cbn [consume].
  - cbn [fst snd map]. reflexivity.
  - destruct (ngt salida eps) eqn:Hg; [|cbn [fst snd]; reflexivity].
    destruct (nle (lot_qty lot) (nadd salida eps)) eqn:Hw.
    + rewrite IH. numQ. cbn [map]. rewrite suma_q_cons. ring.
    + cbn [fst snd map lot_coste]. numQ. rewrite !suma_q_cons.
      set (p := salida / lot_qty lot). ring.
Qed.

Lemma fraccion_menor (salida q : Q) :
  @eps Q _ < salida -> salida + @eps Q _ < q -> 0 <= 1 - salida / q.
Proof.
  intros Hs Hq. pose proof eps_Q_pos as He.
  assert (Hdiv : salida / q <= 1).
  { apply Qle_shift_div_r; lra. }
  lra.
Qed.

(** Lots of non-negative cost stay so. *)
Lemma consume_costes (cola : list (Lot Q)) :
  forall salida coste : Q,
    Forall coste_no_negativo cola ->
    Forall coste_no_negativo (snd (consume cola salida coste)).
Proof.
  induction cola as [|lot resto IH]; intros salida coste Hc; cbn [consume].
  - constructor.
  - inversion Hc as [|? ? Hlot Hresto]; subst.
    destruct (ngt salida eps) eqn:Hg; [|exact Hc].
    destruct (nle (lot_qty lot) (nadd salida eps)) eqn:Hw.
    + apply IH. exact Hresto.
    + cbn [snd]. constructor; [|exact Hresto].
      apply ngt_Q in Hg. apply nle_Q_false in Hw. numQ.
      unfold coste_no_negativo in *. cbn [lot_coste].
      apply Qmult_le_0_compat; [exact Hlot|].
      apply fraccion_menor; assumption.
Qed.

(** Lots of positive quantity stay so; the lot a partial step leaves
    keeps more than the tolerance. *)
Lemma consume_positivos (cola : list (Lot Q)) :
  forall salida coste : Q,
    Forall positivo cola ->
    Forall positivo (snd (consume cola salida coste)).
Proof.
  induction cola as [|lot resto IH]; intros salida coste Hc; cbn [consume].
  - constructor.
  - inversion Hc as [|? ? Hlot Hresto]; subst.
    destruct (ngt salida eps) eqn:Hg; [|exact Hc].
    destruct (nle (lot_qty lot) (nadd salida eps)) eqn:Hw.
    + apply IH. exact Hresto.
    + cbn [snd]. constructor; [|exact Hresto].
      apply ngt_Q in Hg. apply nle_Q_false in Hw. numQ.
      unfold positivo. cbn [lot_qty]. pose proof eps_Q_pos. lra.
Qed.

(** One iteration of the loop: a lot within the tolerance of the need is
    removed, and a lot that stays keeps more than the tolerance. *)
Lemma iteracion_positivos (salida coste : Q) (cola : list (Lot Q)) (st : Bucle Q) :
  Forall positivo cola ->
  iteracion (salida, coste, cola) = Some st ->
  Forall positivo (snd st) /\
  match cola with
  | [] => False
  | lot :: resto =>
      if nle (lot_qty lot) (nadd salida eps)
      then snd st = resto
      else exists lot', snd st = lot' :: resto /\ @eps Q _ < lot_qty lot'
  end.
Proof.
  intros Hc Hit. destruct cola as [|lot resto]; [discriminate|].
  cbn [iteracion] in Hit. inversion Hc as [|? ? Hlot Hresto]; subst.
  destruct (ngt salida eps) eqn:Hg; [|discriminate].
  destruct (nle (lot_qty lot) (nadd salida eps)) eqn:Hw;
    injection Hit as <-; cbn [snd].
  - split; [exact Hresto|reflexivity].
  - apply ngt_Q in Hg. apply nle_Q_false in Hw. numQ.
    assert (Hrem : @eps Q _ < lot_qty lot - salida) by lra.
    split.
    + constructor; [|exact Hresto]. unfold positivo. cbn [lot_qty].
      pose proof eps_Q_pos. lra.
    + eexists. split; [reflexivity|]. exact Hrem.
Qed.

(** A need above everything the queue holds: lots are taken whole from
    the front, at their full cost, until the queue is empty or what is
    left of it is within the tolerance; nothing else is added. *)
Lemma consume_sobrevendido (cola : list (Lot Q)) :
  forall salida coste : Q,
    Forall positivo cola ->
    suma_q (map lot_qty cola) < salida ->
    exists pre suf,
      cola = pre ++ suf /\
      consume cola salida coste
      = (fold_left Qminus (map lot_qty pre) salida,
         fold_left Qplus (map lot_coste pre) coste, suf) /\
      suma_q (map lot_qty suf) < @eps Q _ /\
      (suma_q (map lot_qty cola) + @eps Q _ < salida -> suf = []).
Proof.
  induction cola as [|lot resto IH]; intros salida coste Hc Hs.
  - exists [], []. repeat split.
  - inversion Hc as [|? ? Hlot Hresto]; subst.
    cbn [map] in Hs. rewrite suma_q_cons in Hs.
    pose proof (suma_q_nonneg (map lot_qty resto)) as Hnn.
    assert (Hr0 : 0 <= suma_q (map lot_qty resto)).
    { apply Hnn. apply Forall_map. eapply Forall_impl; [exact Hresto|].
      intros l Hl. unfold positivo in Hl. cbn beta. lra. }
    unfold positivo in Hlot. pose proof eps_Q_pos as He.
    cbn [consume]. destruct (ngt salida eps) eqn:Hg.
    + assert (Hw : nle (lot_qty lot) (nadd salida eps) = true).
      { apply nle_Q. numQ. lra. }
      rewrite Hw.
      destruct (IH (nsub salida (lot_qty lot)) (nadd coste (lot_coste lot)) Hresto)
        as (pre & suf & Hsplit & Hcons & Hsuf & Hall).
      { numQ. lra. }
      exists (lot :: pre), suf. split; [cbn [app]; congruence|].
      split; [exact Hcons|]. split; [exact Hsuf|].
      intros Hbig. apply Hall. numQ. cbn [map] in Hbig.
      rewrite suma_q_cons in Hbig. lra.
    + apply ngt_Q_false in Hg.
      exists [], (lot :: resto). split; [reflexivity|].
      split; [reflexivity|]. split.
      * cbn [map]. rewrite suma_q_cons. lra.
      * intros Hbig. cbn [map] in Hbig. rewrite suma_q_cons in Hbig. lra.
Qed.

End ConsumeExacto.

(** ** Exact arithmetic: invariants of the row loop *)

Section MotorExacto.
Import Exacto.
Local Open Scope Q_scope.

Lemma lotes_insert_eq {X : Type} `{Numero X} (inv : gmap string (list (Lot X))) (c : string) (cola : list (Lot X)) :
  lotes (<[c := cola]> inv) c = cola.
Proof. unfold lotes. rewrite lookup_insert_eq. reflexivity. Qed.

Lemma lotes_insert_ne {X : Type} `{Numero X} (inv : gmap string (list (Lot X))) (c a : string) (cola : list (Lot X)) :
  c <> a -> lotes (<[c := cola]> inv) a = lotes inv a.
Proof. intros Hne. unfold lotes. rewrite lookup_insert_ne by exact Hne. reflexivity. Qed.

Lemma lotes_positivos (inv : gmap string (list (Lot Q))) (c : string) :
  inventario_positivo inv -> Forall positivo (lotes inv c).
Proof.
  intros Hinv. unfold lotes. destruct (inv !! c) as [cola|] eqn:Hc; cbn [default].
  - exact (Hinv c cola Hc).
  - constructor.
Qed.

Lemma inventario_positivo_insert (inv : gmap string (list (Lot Q))) (c : string) (cola : list (Lot Q)) :
  inventario_positivo inv -> Forall positivo cola ->
  inventario_positivo (<[c := cola]> inv).
Proof.
  intros Hinv Hcola a cola' Ha.
  destruct (decide (c = a)) as [->|Hne].
  - rewrite lookup_insert_eq in Ha. injection Ha as <-. exact Hcola.
  - rewrite lookup_insert_ne in Ha by exact Hne. exact (Hinv a cola' Ha).
Qed.

(** One row of the loop keeps every lot positive. *)
Lemma paso_positivo (ignorar : gset string) (df : list (Row Q)) (st : Estado Q) (row : Row Q) :
  inventario_positivo (fst st) ->
  (es_compra (tipo row) = true -> 0 < amount row) ->
  inventario_positivo (fst (paso ignorar df st row)).
Proof.
  destruct st as [inv filas]. cbn [fst]. intros Hinv Hrow. unfold paso.
  destruct (bool_decide (upper (cur row) ∈ ignorar)); [exact Hinv|].
  destruct (es_compra (tipo row)) eqn:Hc.
  - cbn [fst]. apply inventario_positivo_insert; [exact Hinv|].
    apply Forall_app. split; [apply lotes_positivos; exact Hinv|].
    constructor; [|constructor]. unfold positivo. cbn [lot_qty]. auto.
  - destruct (es_venta (tipo row)); [|exact Hinv].
    cbn [fst]. apply inventario_positivo_insert; [exact Hinv|].
    apply consume_positivos. apply lotes_positivos. exact Hinv.
Qed.

Lemma fold_positivo (ignorar : gset string) (df rows : list (Row Q)) :
  forall st : Estado Q,
    inventario_positivo (fst st) ->
    (forall r, In r rows -> es_compra (tipo r) = true -> 0 < amount r) ->
    inventario_positivo (fst (fold_left (paso ignorar df) rows st)).
Proof.
  induction rows as [|row rows IH]; intros st Hinv Hrows; [exact Hinv|].
  cbn [fold_left]. apply IH.
  - apply paso_positivo; [exact Hinv|]. apply Hrows. left. reflexivity.
  - intros r Hr. apply Hrows. right. exact Hr.
Qed.

Lemma inventario_vacio_positivo : inventario_positivo ∅.
Proof. intros c cola Hc. rewrite lookup_empty in Hc. discriminate. Qed.

(** *** Conservation of cost, asset by asset *)

Lemma coste_exacto_app (asset : string) (tr1 tr2 : list (Row Q * Locales Q)) :
  coste_exacto asset (tr1 ++ tr2) == coste_exacto asset tr1 + coste_exacto asset tr2.
Proof.
  unfold coste_exacto. numQ. rewrite List.filter_app, map_app. apply suma_q_app.
Qed.

Lemma coste_entrado_cons (ignorar : gset string) (asset : string) (row : Row Q) (rows : list (Row Q)) :
  coste_entrado ignorar asset (row :: rows)
  == (if comprada ignorar row && String.eqb (upper (cur row)) asset then eur row else 0)
     + coste_entrado ignorar asset rows.
Proof.
  unfold coste_entrado. cbn [List.filter].
  destruct (comprada ignorar row && String.eqb (upper (cur row)) asset).
  - cbn [map]. apply suma_q_cons.
  - lra.
Qed.

(** One row of the loop: what is matched plus what the queue holds grows
    by the cost of the row when it is an acquisition of the asset, and
    stays otherwise. *)
Lemma paso_traza_conserva (ignorar : gset string) (df : list (Row Q)) (asset : string)
    (t : Traza Q) (row : Row Q) :
  Forall coste_no_negativo (lotes (fst t) asset) ->
  (es_compra (tipo row) = true -> upper (cur row) = asset -> 0 <= eur row) ->
  coste_exacto asset (snd (paso_traza ignorar df t row))
    + suma_q (map lot_coste (lotes (fst (paso_traza ignorar df t row)) asset))
  == coste_exacto asset (snd t) + suma_q (map lot_coste (lotes (fst t) asset))
     + (if comprada ignorar row && String.eqb (upper (cur row)) asset then eur row else 0)
  /\ Forall coste_no_negativo (lotes (fst (paso_traza ignorar df t row)) asset).
Proof.
  destruct t as [inv tr]. cbn [fst snd]. intros Hnn Hrow.
  unfold paso_traza, comprada.
  destruct (bool_decide (upper (cur row) ∈ ignorar)); cbn [negb andb fst snd].
  { split; [lra|exact Hnn]. }
  destruct (es_compra (tipo row)) eqn:Hc; cbn [andb fst snd].
  - destruct (String.eqb_spec (upper (cur row)) asset) as [Heq|Hne].
    + rewrite Heq, lotes_insert_eq. split.
      * rewrite map_app, suma_q_app. cbn [map lot_coste].
        rewrite suma_q_cons, suma_q_nil. lra.
      * apply Forall_app. split; [exact Hnn|].
        constructor; [|constructor]. unfold coste_no_negativo. cbn [lot_coste].
        apply Hrow; [reflexivity|exact Heq].
    + rewrite lotes_insert_ne by exact Hne. split; [lra|exact Hnn].
  - destruct (es_venta (tipo row)); cbn [fst snd]; [|split; [lra|exact Hnn]].
    destruct (String.eqb_spec (upper (cur row)) asset) as [Heq|Hne].
    + rewrite Heq, lotes_insert_eq. split.
      * rewrite coste_exacto_app.
        pose proof (consume_conserva (lotes inv asset) (- amount row)%num cero) as Hk.
        unfold coste_exacto at 2. cbn [List.filter fst snd].
        rewrite Heq, String.eqb_refl. cbn [map snd l_coste_fifo locales].
        numQ. rewrite suma_q_cons, suma_q_nil. lra.
      * apply consume_costes. exact Hnn.
    + rewrite lotes_insert_ne by exact Hne. split; [|exact Hnn].
      rewrite coste_exacto_app.
      unfold coste_exacto at 2. cbn [List.filter fst snd].
      apply String.eqb_neq in Hne. rewrite Hne. cbn [map]. numQ.
      rewrite suma_q_nil. lra.
Qed.

Lemma fold_traza_conserva (ignorar : gset string) (df : list (Row Q)) (asset : string)
    (rows : list (Row Q)) :
  forall t : Traza Q,
    Forall coste_no_negativo (lotes (fst t) asset) ->
    (forall r, In r rows -> es_compra (tipo r) = true -> upper (cur r) = asset -> 0 <= eur r) ->
    coste_exacto asset (snd (fold_left (paso_traza ignorar df) rows t))
      + suma_q (map lot_coste (lotes (fst (fold_left (paso_traza ignorar df) rows t)) asset))
    == coste_exacto asset (snd t) + suma_q (map lot_coste (lotes (fst t) asset))
       + coste_entrado ignorar asset rows
    /\ Forall coste_no_negativo (lotes (fst (fold_left (paso_traza ignorar df) rows t)) asset).
Proof.
  induction rows as [|row rows IH]; intros t Hnn Hrows; cbn [fold_left].
  - split; [|exact Hnn]. unfold coste_entrado. cbn [List.filter map].
    rewrite suma_q_nil. lra.
  - destruct (paso_traza_conserva ignorar df asset t row Hnn) as [Hstep Hnn'].
    { apply Hrows. left. reflexivity. }
    destruct (IH (paso_traza ignorar df t row) Hnn') as [Hrest Hfin].
    { intros r Hr. apply Hrows. right. exact Hr. }
    split; [|exact Hfin].
    rewrite Hrest, Hstep, coste_entrado_cons. lra.
Qed.

End MotorExacto.

(** ** Exact arithmetic: acquisitions taken in, and the recorded cost *)

Section Cotas.
Import Exacto.
Local Open Scope Q_scope.

Lemma filter_perm {X : Type} (p : X -> bool) (l1 l2 : list X) :
  Permutation l1 l2 -> Permutation (List.filter p l1) (List.filter p l2).
Proof.
  induction 1 as [|x l1 l2 _ IH|x y l|l1 l2 l3 _ IH1 _ IH2]; cbn [List.filter].
  - constructor.
  - destruct (p x); [apply perm_skip|]; exact IH.
  - destruct (p x), (p y); try reflexivity. apply perm_swap.
  - rewrite IH1. exact IH2.
Qed.

(** Summing over fewer rows of non-negative value gives no more. *)
Lemma suma_filter_le {X : Type} (f : X -> Q) (p s q : X -> bool) (l : list X) :
  (forall x, In x l -> q x = true -> 0 <= f x) ->
  (forall x, p x = true -> q x = true) ->
  suma_q (map f (List.filter p (List.filter s l))) <= suma_q (map f (List.filter q l)).
Proof.
  intros Hnn Hpq. induction l as [|x l IH]; [cbn; lra|].
  assert (IH' : suma_q (map f (List.filter p (List.filter s l)))
                <= suma_q (map f (List.filter q l))).
  { apply IH. intros y Hy. apply Hnn. right. exact Hy. }
  pose proof (Hnn x (or_introl eq_refl)) as Hx. pose proof (Hpq x) as Hpx.
  cbn [List.filter].
  destruct (s x); cbn [List.filter]; destruct (p x) eqn:Hp; destruct (q x) eqn:Hq;
    cbn [map]; rewrite ?suma_q_cons; try lra;
    try (specialize (Hpx eq_refl); discriminate);
    specialize (Hx eq_refl); lra.
Qed.

Lemma filter_todo {X : Type} (l : list X) : List.filter (fun _ => true) l = l.
Proof. induction l as [|x l IH]; [reflexivity|]. cbn [List.filter]. rewrite IH. reflexivity. Qed.

(** What the loop takes in for an asset is at most the cost of the asset's
    acquisition rows in the ledger. *)
Lemma coste_entrado_le (ignorar : gset string) (solo_crypto : option string)
    (asset : string) (df : list (Row Q)) :
  (forall r, In r df -> es_compra (tipo r) = true -> upper (cur r) = asset -> 0 <= eur r) ->
  coste_entrado ignorar asset (marco solo_crypto df) <= coste_adquirido asset df.
Proof.
  intros Hnn. unfold coste_entrado, coste_adquirido, compras_de. numQ.
  assert (Hperm : suma_q (map eur (List.filter
                    (fun r => es_compra (tipo r) && String.eqb (upper (cur r)) asset)
                    (sort_values df)))
                  == suma_q (map eur (List.filter
                    (fun r => es_compra (tipo r) && String.eqb (upper (cur r)) asset) df))).
  { apply suma_q_perm, Permutation_map, filter_perm. symmetry. apply sort_values_perm. }
  rewrite <- Hperm. unfold marco.
  assert (Hle : forall s : Row Q -> bool,
             suma_q (map eur (List.filter
               (fun r => comprada ignorar r && String.eqb (upper (cur r)) asset)
               (List.filter s (sort_values df))))
             <= suma_q (map eur (List.filter
               (fun r => es_compra (tipo r) && String.eqb (upper (cur r)) asset)
               (sort_values df)))).
  { intros s. apply suma_filter_le.
    - intros r Hr Hq. apply andb_true_iff in Hq as [Hc Ha].
      apply Hnn; [|exact Hc|apply String.eqb_eq; exact Ha].
      eapply Permutation_in; [symmetry; apply sort_values_perm|exact Hr].
    - intros r Hp. unfold comprada in Hp.
      apply andb_true_iff in Hp as [Hp Ha]. apply andb_true_iff in Hp as [_ Hc].
      rewrite Hc, Ha. reflexivity. }
  destruct (solo solo_crypto) as [s|].
  - apply Hle.
  - specialize (Hle (fun _ => true)). rewrite filter_todo in Hle. exact Hle.
Qed.

(** The recorded cost of an asset is its exact matched cost up to half a
    cent per record. *)
Lemma coste_registrado_cota (df : list (Row Q)) (asset : string) (tr : list (Row Q * Locales Q)) :
  coste_registrado asset (map (fun x => fila df (fst x) (snd x)) tr)
  <= coste_exacto asset tr
     + (1 # 200) * inject_Z (Z.of_nat (length
         (List.filter (fun f => String.eqb (cripto f) asset)
            (map (fun x => fila df (fst x) (snd x)) tr)))).
Proof.
  unfold coste_registrado, coste_exacto. numQ.
  induction tr as [|[row l] tr IH].
  { cbn. change (inject_Z (Z.of_nat 0)) with 0. lra. }
  cbn [map List.filter fst snd cripto fila].
  destruct (String.eqb (upper (cur row)) asset).
  - cbn [map length coste_fifo snd]. rewrite !suma_q_cons.
    rewrite Nat2Z.inj_succ, <- Z.add_1_r, inject_Z_plus.
    change (inject_Z 1) with 1.
    pose proof (round2_q_cerca (l_coste_fifo l)) as Hr.
    change (coste_fifo (fila df row l)) with (round2_q (l_coste_fifo l)).
    lra.
  - exact IH.
Qed.

End Cotas.

(** ** Lots stay positive

    Proved once for every arithmetic in which the partial step keeps a
    lot positive ([resta_positiva]), which binary64 and the rationals
    are. *)

Section LotesPositivos.
Context {A : Type} `{Numero A}.
Hypothesis Hresta : resta_positiva A.
Local Open Scope num_scope.

Lemma consume_mayor (cola : list (Lot A)) :
  forall salida coste : A,
    Forall mayor_que_cero cola ->
    Forall mayor_que_cero (snd (consume cola salida coste)).
Proof.
  induction cola as [|lot resto IH]; intros salida coste Hc; cbn [consume].
  - constructor.
  - inversion Hc as [|? ? Hlot Hresto]; subst.
    destruct (salida >? eps) eqn:Hg; [|exact Hc].
    destruct (lot_qty lot <=? salida + eps) eqn:Hw.
    + apply IH. exact Hresto.
    + cbn [snd]. constructor; [|exact Hresto].
      unfold mayor_que_cero. cbn [lot_qty]. apply Hresta; assumption.
Qed.

Lemma iteracion_mayor (salida coste : A) (cola : list (Lot A)) (st : Bucle A) :
  Forall mayor_que_cero cola ->
  iteracion (salida, coste, cola) = Some st ->
  Forall mayor_que_cero (snd st) /\
  match cola with
  | [] => False
  | lot :: resto =>
      if lot_qty lot <=? salida + eps
      then snd st = resto
      else exists lot', snd st = lot' :: resto /\ mayor_que_cero lot'
  end.
Proof.
  intros Hc Hit. destruct cola as [|lot resto]; [discriminate|].
  cbn [iteracion] in Hit. inversion Hc as [|? ? Hlot Hresto]; subst.
  destruct (salida >? eps) eqn:Hg; [|discriminate].
  destruct (lot_qty lot <=? salida + eps) eqn:Hw;
    injection Hit as <-; cbn [snd].
  - split; [exact Hresto|reflexivity].
  - assert (Hpos : mayor_que_cero (mkLot (lot_qty lot - salida)
                                      (lot_coste lot * (uno - salida / lot_qty lot))))
      by (unfold mayor_que_cero; cbn [lot_qty]; apply Hresta; assumption).
    split; [constructor; assumption|].
    eexists. split; [reflexivity|exact Hpos].
Qed.

Lemma lotes_mayor (inv : gmap string (list (Lot A))) (c : string) :
  inventario_mayor_que_cero inv -> Forall mayor_que_cero (lotes inv c).
Proof.
  intros Hinv. unfold lotes. destruct (inv !! c) as [cola|] eqn:Hc; cbn [default].
  - exact (Hinv c cola Hc).
  - constructor.
Qed.

Lemma inventario_mayor_insert (inv : gmap string (list (Lot A))) (c : string)
    (cola : list (Lot A)) :
  inventario_mayor_que_cero inv -> Forall mayor_que_cero cola ->
  inventario_mayor_que_cero (<[c := cola]> inv).
Proof.
  intros Hinv Hcola a cola' Ha.
  destruct (decide (c = a)) as [->|Hne].
  - rewrite lookup_insert_eq in Ha. injection Ha as <-. exact Hcola.
  - rewrite lookup_insert_ne in Ha by exact Hne. exact (Hinv a cola' Ha).
Qed.

Lemma paso_mayor (ignorar : gset string) (df : list (Row A)) (st : Estado A) (row : Row A) :
  inventario_mayor_que_cero (fst st) ->
  (es_compra (tipo row) = true -> (amount row >? cero) = true) ->
  inventario_mayor_que_cero (fst (paso ignorar df st row)).
Proof.
  destruct st as [inv filas]. cbn [fst]. intros Hinv Hrow. unfold paso.
  destruct (bool_decide (upper (cur row) ∈ ignorar)); [exact Hinv|].
  destruct (es_compra (tipo row)) eqn:Hc.
  - cbn [fst]. apply inventario_mayor_insert; [exact Hinv|].
    apply Forall_app. split; [apply lotes_mayor; exact Hinv|].
    constructor; [|constructor]. unfold mayor_que_cero. cbn [lot_qty]. auto.
  - destruct (es_venta (tipo row)); [|exact Hinv].
    cbn [fst]. apply inventario_mayor_insert; [exact Hinv|].
    apply consume_mayor. apply lotes_mayor. exact Hinv.
Qed.

Lemma fold_mayor (ignorar : gset string) (df rows : list (Row A)) :
  forall st : Estado A,
    inventario_mayor_que_cero (fst st) ->
    (forall r, In r rows -> es_compra (tipo r) = true -> (amount r >? cero) = true) ->
    inventario_mayor_que_cero (fst (fold_left (paso ignorar df) rows st)).
Proof.
  induction rows as [|row rows IH]; intros st Hinv Hrows; [exact Hinv|].
  cbn [fold_left]. apply IH.
  - apply paso_mayor; [exact Hinv|]. apply Hrows. left. reflexivity.
  - intros r Hr. apply Hrows. right. exact Hr.
Qed.

(** After any number of rows of a run on a ledger whose acquisitions have
    positive quantity, every lot of every queue has positive quantity. *)
Lemma prefijo_mayor (ignorar : gset string) (solo_crypto : option string)
    (df pre post : list (Row A)) :
  (forall r, In r df -> es_compra (tipo r) = true -> (amount r >? cero) = true) ->
  marco solo_crypto df = pre ++ post ->
  inventario_mayor_que_cero
    (fst (fold_left (paso ignorar (marco solo_crypto df)) pre ((∅, []) : Estado A))).
Proof.
  intros Hpos Hsplit. apply fold_mayor.
  - intros c cola Hc. cbn [fst] in Hc. rewrite lookup_empty in Hc. discriminate.
  - intros r Hr. apply Hpos. apply (marco_In solo_crypto).
    rewrite Hsplit. apply in_or_app. left. exact Hr.
Qed.

End LotesPositivos.

Lemma resta_positiva_float : resta_positiva float.
Proof. intros q s. apply resta_positiva_f. Qed.

Lemma resta_positiva_Q : resta_positiva Q.
Proof.
  intros q s Hs Hq H0. apply ngt_Q in Hs, H0. apply nle_Q_false in Hq.
  numQ. pose proof eps_Q_pos. apply ngt_Q. lra.
Qed.

(** ** A need that the queue cannot meet, on every arithmetic *)

Section SinCubrir.
Context {A : Type} `{Numero A}.
Local Open Scope num_scope.

(** When the loop ends with a need above the tolerance, it has taken
    every lot whole: the queue is empty and the matched cost is the cost so
    far plus the costs of the lots, in queue order. *)
Lemma consume_sin_cubrir (cola : list (Lot A)) :
  forall salida coste : A,
    (fst (fst (consume cola salida coste)) >? eps) = true ->
    consume cola salida coste
    = (fold_left nsub (map lot_qty cola) salida,
       fold_left nadd (map lot_coste cola) coste, []).
Proof.
  induction cola as [|lot resto IH]; intros salida coste; cbn [consume]; [reflexivity|].
  destruct (salida >? eps) eqn:Hg.
  - destruct (lot_qty lot <=? salida + eps) eqn:Hw.
    + intros Hfin. rewrite (IH _ _ Hfin). reflexivity.
    + cbn [fst]. rewrite ngt_cero_eps. discriminate.
  - cbn [fst]. rewrite Hg. discriminate.
Qed.

(** The step of the row loop on a disposal row. *)
Lemma paso_vendida (ignorar : gset string) (df : list (Row A))
    (inventario : gmap string (list (Lot A))) (filas : list (Fila A)) (row : Row A) :
  vendida ignorar row = true ->
  paso ignorar df (inventario, filas) row
  = (<[upper (cur row) := snd (consume (lotes inventario (upper (cur row))) (- amount row) cero)]>
       inventario,
     filas ++ [fila df row (locales df (lotes inventario (upper (cur row))) row)]).
Proof.
  unfold vendida. intros Hv.
  apply andb_true_iff in Hv as [Hv Hventa]. apply andb_true_iff in Hv as [Hign Hcompra].
  apply negb_true_iff in Hign, Hcompra.
  unfold paso. rewrite Hign, Hcompra, Hventa. reflexivity.
Qed.

End SinCubrir.

(** ** The groups of the summary *)

Section OrdenDeTexto.

Lemma ascii_compare_refl (c : ascii) : Ascii.compare c c = Eq.
Proof. unfold Ascii.compare. apply N.compare_refl. Qed.

Lemma string_compare_refl (s : string) : String.compare s s = Eq.
Proof.
  induction s as [|c s IH]; [reflexivity|].
  cbn [String.compare]. rewrite ascii_compare_refl. exact IH.
Qed.

Lemma ascii_lt_trans (a b c : ascii) :
  Ascii.compare a b = Lt -> Ascii.compare b c = Lt -> Ascii.compare a c = Lt.
Proof.
  unfold Ascii.compare. rewrite !N.compare_lt_iff. apply N.lt_trans.
Qed.

Lemma string_lt_trans (s : string) :
  forall t u : string,
    String.compare s t = Lt -> String.compare t u = Lt -> String.compare s u = Lt.
Proof.
  induction s as [|a s IH]; intros [|b t] [|c u]; cbn [String.compare];
    try discriminate; try reflexivity.
  destruct (Ascii.compare a b) eqn:Hab; try discriminate;
    destruct (Ascii.compare b c) eqn:Hbc; try discriminate; intros H1 H2.
  - apply Ascii.compare_eq_iff in Hab, Hbc. subst.
    rewrite ascii_compare_refl. exact (IH t u H1 H2).
  - apply Ascii.compare_eq_iff in Hab. subst. rewrite Hbc. reflexivity.
  - apply Ascii.compare_eq_iff in Hbc. subst. rewrite Hab. reflexivity.
  - rewrite (ascii_lt_trans a b c Hab Hbc). reflexivity.
Qed.

End OrdenDeTexto.

Section Grupos.
Context {A : Type} `{Numero A}.

Lemma clave_eqb_eq (a b : Clave) : clave_eqb a b = true <-> a = b.
Proof. destruct a, b; cbn; split; congruence. Qed.

Lemma grupo_eqb_eq (a b : string * Clave) : grupo_eqb a b = true <-> a = b.
Proof.
  destruct a as [s k], b as [s' k']. unfold grupo_eqb. cbn [fst snd].
  rewrite andb_true_iff, String.eqb_eq, clave_eqb_eq. split; [intros [-> ->]|intros [= -> ->]]; auto.
Qed.

Lemma grupo_ltb_lt (a b : string * Clave) : grupo_ltb a b = true <-> grupo_lt a b.
Proof.
  unfold grupo_ltb, grupo_lt. destruct (String.compare (fst a) (fst b)).
  - destruct (snd a), (snd b); cbn; intuition congruence.
  - tauto.
  - intuition congruence.
Qed.

Lemma grupo_lt_irrefl (a : string * Clave) : ~ grupo_lt a a.
Proof.
  unfold grupo_lt. rewrite string_compare_refl. intros [Hf Hn]. congruence.
Qed.

Lemma grupo_lt_trans (a b c : string * Clave) :
  grupo_lt a b -> grupo_lt b c -> grupo_lt a c.
Proof.
  unfold grupo_lt.
  destruct (String.compare (fst a) (fst b)) eqn:Hab; [|
    destruct (String.compare (fst b) (fst c)) eqn:Hbc; [| |tauto] |tauto].
  - apply String.compare_eq_iff in Hab. rewrite Hab.
    destruct (String.compare (fst b) (fst c)); [|tauto|tauto].
    intros [_ Hb] [Hb' _]. congruence.
  - apply String.compare_eq_iff in Hbc. rewrite <- Hbc, Hab. tauto.
  - rewrite (string_lt_trans _ _ _ Hab Hbc). tauto.
Qed.

(** Two groups are equal or one is before the other. *)
Lemma grupo_lt_total (a b : string * Clave) :
  grupo_ltb a b = false -> grupo_eqb a b = false -> grupo_lt b a.
Proof.
  unfold grupo_ltb, grupo_eqb, grupo_lt.
  rewrite (String.compare_antisym (fst b) (fst a)).
  destruct (String.compare (fst a) (fst b)) eqn:Hab; cbn [CompOpp].
  - apply String.compare_eq_iff in Hab. rewrite Hab, String.eqb_refl.
    destruct (snd a), (snd b); cbn; try discriminate; auto.
  - discriminate.
  - auto.
Qed.

Lemma inserta_grupo_In (k k0 : string * Clave) (ks : list (string * Clave)) :
  In k (inserta_grupo k0 ks) <-> k = k0 \/ In k ks.
Proof.
  induction ks as [|k' ks IH]; cbn [inserta_grupo In]; [intuition|].
  destruct (grupo_eqb k0 k') eqn:He.
  - apply grupo_eqb_eq in He. subst. cbn [In]. intuition.
  - destruct (grupo_ltb k0 k'); cbn [In]; rewrite ?IH; intuition.
Qed.

Lemma inserta_grupo_sorted (k0 : string * Clave) (ks : list (string * Clave)) :
  StronglySorted grupo_lt ks -> StronglySorted grupo_lt (inserta_grupo k0 ks).
Proof.
  induction 1 as [|k' ks Hs IH Hall]; cbn [inserta_grupo].
  - repeat constructor.
  - destruct (grupo_eqb k0 k') eqn:He; [constructor; assumption|].
    destruct (grupo_ltb k0 k') eqn:Hl.
    + apply grupo_ltb_lt in Hl. constructor; [constructor; assumption|].
      constructor; [exact Hl|].
      eapply Forall_impl; [exact Hall|]. intros x Hx. exact (grupo_lt_trans _ _ _ Hl Hx).
    + constructor; [exact IH|].
      apply List.Forall_forall. intros x Hx. apply inserta_grupo_In in Hx as [->|Hx].
      * apply grupo_lt_total; assumption.
      * rewrite List.Forall_forall in Hall. apply Hall, Hx.
Qed.

Lemma grupos_sorted (detalle : list (Fila A)) : StronglySorted grupo_lt (grupos detalle).
Proof.
  unfold grupos. induction (map grupo_de detalle) as [|k ks IH]; cbn [fold_right].
  - constructor.
  - apply inserta_grupo_sorted, IH.
Qed.

Lemma grupos_In (detalle : list (Fila A)) (k : string * Clave) :
  In k (grupos detalle) <-> exists f, In f detalle /\ grupo_de f = k.
Proof.
  assert (Hm : In k (map grupo_de detalle) <-> exists f, In f detalle /\ grupo_de f = k).
  { rewrite in_map_iff. split; intros (f & H1 & H2); exists f; auto. }
  rewrite <- Hm. unfold grupos. clear Hm.
  induction (map grupo_de detalle) as [|k' ks IH]; cbn [fold_right In]; [tauto|].
  rewrite inserta_grupo_In, IH. intuition.
Qed.

Lemma sorted_NoDup (ks : list (string * Clave)) : StronglySorted grupo_lt ks -> List.NoDup ks.
Proof.
  induction 1 as [|k ks Hs IH Hall]; constructor; [|exact IH].
  intros Hin. rewrite List.Forall_forall in Hall.
  exact (grupo_lt_irrefl k (Hall k Hin)).
Qed.

Lemma grupos_resumen (detalle : list (Fila A)) :
  map grupo_resumen (resumen detalle) = grupos detalle.
Proof.
  unfold resumen. rewrite map_map. unfold grupo_resumen. cbn [r_cripto r_clave].
  rewrite <- (map_id (grupos detalle)) at 2. apply map_ext. intros [s k]. reflexivity.
Qed.

End Grupos.

(** ** The properties of the specification *)

Section Afirmaciones.
Import Escenario.

(** C1. End-to-end scenario.  On the four-row ledger (acquire BTC 1 for
    100 on day 1, acquire BTC 1 for 300 on day 2, dispose of BTC 1.5 for 450
    on trade T1 on day 3, fee row of 5 on T1 on day 3) the engine emits
    exactly one disposal record, with matched cost 250, fee 5 and gain 195,
    and leaves one BTC lot of quantity 0.5 and cost 150.  The rows are in
    date order already, and the result is the same whichever of the two
    rows of day 3 comes first. *)
Theorem end_to_end_scenario :
  sort_values cuatro_filas = cuatro_filas
  /\ motor ignorar cuatro_filas
     = ({["BTC"%string := [mkLot 0.5 150]]},
        [mkFila 3 "BTC" 1.5 450 250 5 195 F])%float
  /\ fst (fifo_ct ignorar None cuatro_filas)
     = [mkFila 3 "BTC" 1.5 450 250 5 195 F]%float
  /\ motor ignorar cuatro_filas' = motor ignorar cuatro_filas.
Proof.
  repeat split; vm_compute; reflexivity.
Qed.

(** *** Fee attribution *)

(** C2 as stated fails.  The fee of a disposal is not always the sum over the ledger's Fee rows
    of its trade: with the single-asset filter on BTC, a fee row of trade T1
    carried in EUR is not seen and the recorded fee is 0, not 5; and with
    no filter, a fee row of 0.004 is recorded as 0.0. *)
Lemma fee_attribution_fails :
  ~ fee_es_la_suma ignorar (Some "BTC"%string) fee_en_eur
  /\ ~ fee_es_la_suma ignorar None fee_fino.
Proof.
  split; intros Heq;
    apply (f_equal (fun l => Prim2SF (hd 0%float l))) in Heq;
    vm_compute in Heq; discriminate.
Qed.

(** C2 (as amended). On every frame, in whatever order its rows have
    been put, the loop gives one record for each disposal row, and the fee
    of the record is the sum of the absolute values of the rows of the frame
    that share the trade_id of the disposal row and are labelled as a fee,
    rounded to 2 decimals the way NumPy rounds a scalar.  With no
    single-asset filter active the frame is the date-sorted ledger, which
    holds every row of the ledger; with no fee row on the trade the fee is
    zero.  On binary64 the sum is the pairwise sum of [Series.sum] and the
    rounding is [rint (x * 100) / 100]: legs of 2 and 3 give 5, a leg of
    2.675 gives 2.68, and the nine legs of [nueve_fees] give 1.8, where
    adding them one after the other would give 1.79.  In exact arithmetic
    the rounding is within half a cent of the sum and is a whole number of
    cents. *)
Theorem fee_attribution :
  (forall (A : Type) (HA : Numero A) (ign : gset string) (frame : list (Row A)),
      map gastos (snd (motor ign frame))
      = map (fun row : Row A =>
               round2_np (suma (map (fun r => nabs (eur r))
                         (List.filter
                            (fun r => mismo_trade (trade_id r) (trade_id row) && es_fee (tipo r))
                            frame))))
            (ventas ign frame))
  /\ (forall (A : Type) (HA : Numero A) (ign : gset string) (solo_crypto : option string)
             (df : list (Row A)),
         solo solo_crypto = None ->
         (fst (fifo_ct ign solo_crypto df) = snd (motor ign (sort_values df))
          /\ Permutation df (sort_values df))
         /\ map gastos (fst (fifo_ct ign solo_crypto df))
            = map (fun row : Row A =>
                     round2_np (suma (map (fun r => nabs (eur r))
                               (List.filter
                                  (fun r => mismo_trade (trade_id r) (trade_id row)
                                            && es_fee (tipo r))
                                  (sort_values df)))))
                  (ventas ign (sort_values df))
         /\ forall row : Row A,
              (forall r, In r df ->
                         mismo_trade (trade_id r) (trade_id row) && es_fee (tipo r) = false) ->
              round2_np (suma (map (fun r => nabs (eur r))
                        (List.filter
                           (fun r => mismo_trade (trade_id r) (trade_id row)
                                     && es_fee (tipo r))
                           (sort_values df)))) = cero)
  /\ (forall (ign : gset string) (frame : list (Row float)),
         map gastos (snd (motor ign frame))
         = map (fun row : Row float =>
                  (Binario.rint
                     (Binario.suma_f
                        (map (fun r => abs (eur r))
                           (List.filter
                              (fun r => mismo_trade (trade_id r) (trade_id row)
                                        && es_fee (tipo r))
                              frame)) * 100) / 100)%float)
               (ventas ign frame))
  /\ map gastos (fst (fifo_ct ignorar None dos_fees)) = [5%float]
  /\ map gastos (fst (fifo_ct ignorar None fee_medio_centimo)) = [2.68%float]
  /\ (map gastos (fst (fifo_ct ignorar None nueve_fees)) = [1.8%float]
      /\ Binario.round2_np_f
           (fold_left PrimFloat.add
              (map (fun r => abs (eur r)) (List.filter (fun r => es_fee (tipo r)) nueve_fees))
              0%float) = 1.79%float)
  /\ (forall x : Q,
         (Qabs (round2_np x - x) <= 1 # 200)%Q
         /\ exists n : Z, (round2_np x == inject_Z n / 100)%Q).
Proof.
  assert (Hgen : forall (A : Type) (HA : Numero A) (ign : gset string) (frame : list (Row A)),
             map gastos (snd (motor ign frame))
             = map (fun row : Row A => round2_np (fee_eur frame row)) (ventas ign frame)).
  { intros A HA ign frame.
    pose proof (registros_del_marco ign frame) as Hd.
    apply (f_equal (map (fun x : Z * string * A * A * A * Clave => snd (fst x)))) in Hd.
    rewrite !map_map in Hd. exact Hd. }
  split; [exact Hgen|].
  split; [|split; [|split; [|split; [|split]]]].
  - intros A HA ign solo_crypto df Hsolo.
    assert (Hm : fst (fifo_ct ign solo_crypto df) = snd (motor ign (sort_values df)))
      by (unfold fifo_ct; cbn [fst]; rewrite (marco_sin_filtro solo_crypto df Hsolo);
          reflexivity).
    split; [split; [exact Hm|apply sort_values_perm]|].
    split; [rewrite Hm; apply Hgen|].
    intros row Hno. rewrite filter_nada.
    + cbn [map]. rewrite suma_nil. apply round2_np_cero.
    + intros r Hr. apply Hno.
      eapply Permutation_in; [symmetry; apply sort_values_perm|exact Hr].
  - intros ign frame. exact (Hgen float _ ign frame).
  - vm_compute. reflexivity.
  - vm_compute. reflexivity.
  - split; vm_compute; reflexivity.
  - intros x. change (@round2_np Q _ x) with (Exacto.round2_q x). split.
    + pose proof (round2_q_cerca x) as Hc. apply Qabs_Qle_condition. lra.
    + exists (Exacto.redondeo_par (x * 100)). unfold Exacto.round2_q. apply Qred_correct.
Qed.

(** Two fee legs on one trade, 2 and 3, give a fee of 5; a disposal with
    no fee row has a fee of zero. *)
Lemma fee_attribution_witness :
  map gastos (fst (fifo_ct ignorar None dos_fees)) = [5%float]
  /\ (round2_np (suma (map (fun r : Row float => nabs (eur r))
                   (List.filter
                      (fun r => mismo_trade (trade_id r) (Some "T1"%string) && es_fee (tipo r))
                      (sort_values medio_lote)))) = cero).
Proof.
  split.
  - rewrite (proj1 (proj2 (proj1 (proj2 fee_attribution) float _ ignorar None dos_fees
                             eq_refl))).
    vm_compute. reflexivity.
  - apply (proj2 (proj2 (proj1 (proj2 fee_attribution) float _ ignorar None medio_lote
                           eq_refl))
             (mkRow (t 2) "Sell" (-1) "BTC" (-80) (Some "T1"%string))%float).
    intros r [<-|[<-|[]]]; reflexivity.
Defined.

(** *** Order of processing *)

(** C3 as stated fails.  The function does not process the rows as they are supplied: an
    acquisition dated day 2 and supplied first, followed by a disposal dated
    day 1, is matched at cost 100 by the loop on the rows as supplied, and
    at cost 0 by the function, which sorts them first. *)
Lemma unsorted_input_is_sorted : ~ procesa_como_llega ignorar desordenado.
Proof.
  intros Heq.
  apply (f_equal (fun l => Prim2SF (hd 0%float (map coste_fifo l)))) in Heq.
  vm_compute in Heq. discriminate.
Qed.

(** C3 (as amended). The function sorts the rows by ascending date before
    the matching loop, and the loop processes them in that order: the
    records are those of the loop on the sorted (and, with a filter,
    filtered) frame, which is a rearrangement of the supplied rows in
    ascending date order.  When the supplied rows already ascend strictly
    by date and no filter is active, the output is that of the loop on the
    rows as supplied. *)
Theorem rows_processed_in_date_order (A : Type) (HA : Numero A)
    (ign : gset string) (solo_crypto : option string) (df : list (Row A)) :
  fst (fifo_ct ign solo_crypto df) = snd (motor ign (marco solo_crypto df))
  /\ (solo solo_crypto = None -> marco solo_crypto df = sort_values df)
  /\ Permutation df (sort_values df)
  /\ Sorted antes (sort_values df)
  /\ (Sorted antes_estricto df -> solo solo_crypto = None ->
      fst (fifo_ct ign solo_crypto df) = snd (motor ign df)).
Proof.
  split; [reflexivity|].
  split; [apply marco_sin_filtro|].
  split; [apply sort_values_perm|].
  split; [apply sort_values_sorted|].
  intros Hs Hsolo. unfold fifo_ct. cbn [fst].
  rewrite (marco_sin_filtro solo_crypto df Hsolo), sort_values_id; [reflexivity|].
  clear Hsolo. induction Hs as [|r l Hs IH Hhd]; constructor; [exact IH|].
  destruct Hhd as [|x l Hrx]; constructor. unfold antes, antes_estricto in *. lia.
Qed.

Lemma rows_processed_in_date_order_witness :
  fst (fifo_ct ignorar None medio_lote) = snd (motor ignorar medio_lote).
Proof.
  apply (rows_processed_in_date_order float _ ignorar None medio_lote).
  - repeat constructor.
  - reflexivity.
Defined.

(** *** Partial lots *)

(** C4. Partial-lot split.  In an iteration of the consume loop (so with a
    remaining need above the tolerance) whose front lot is not within the
    tolerance of the need, [lot_qty <= salida + 1e-12] being false, the
    loop adds [lot_coste * (salida / lot_qty)] to the matched cost, leaves
    the lot at the front with quantity [lot_qty - salida] and cost
    [lot_coste * (1 - salida / lot_qty)], and stops.  In exact arithmetic
    the quantity left is [lot_qty * (1 - salida / lot_qty)], the same
    fraction as the cost.  After an acquisition of (qty 2, cost 100), a
    disposal of qty 1 is recorded with matched cost 50 and leaves the lot
    (qty 1, cost 50). *)
Theorem partial_lot_split :
  (forall (A : Type) (HA : Numero A) (lot : Lot A) (resto : list (Lot A)) (salida coste : A),
      (salida >? eps)%num = true ->
      (lot_qty lot <=? salida + eps)%num = false ->
      consume (lot :: resto) salida coste
      = (cero,
         coste + lot_coste lot * (salida / lot_qty lot),
         mkLot (lot_qty lot - salida) (lot_coste lot * (uno - salida / lot_qty lot))
           :: resto)%num)
  /\ (forall (lot : Lot Q) (salida : Q),
         (salida >? eps)%num = true ->
         (lot_qty lot <=? salida + eps)%num = false ->
         (lot_qty lot - salida == lot_qty lot * (1 - salida / lot_qty lot))%Q)
  /\ motor ignorar medio_lote
     = ({["BTC"%string := [mkLot 1 50]]},
        [mkFila 2 "BTC" 1 80 50 0 30 N])%float.
Proof.
  split; [|split].
  - intros A HA lot resto salida coste Hg Hw.
    cbn [consume]. rewrite Hg, Hw. reflexivity.
  - intros lot salida Hg Hw.
    apply ngt_Q in Hg. apply nle_Q_false in Hw.
    cbn [nadd Exacto.Q_Numero] in Hw. pose proof eps_Q_pos as He.
    field. intros H0. rewrite H0 in Hw. lra.
  - vm_compute. reflexivity.
Qed.

Lemma partial_lot_split_witness :
  (consume [mkLot 2 100] 1 0
   = (0, 0 + 100 * (1 / 2), [mkLot (2 - 1) (100 * (1 - 1 / 2))]))%float.
Proof.
  exact (proj1 partial_lot_split float _ (mkLot 2 100)%float [] 1%float 0%float
           eq_refl eq_refl).
Defined.

(** *** Conservation of cost *)

(** C5 as stated fails.  The recorded matched cost can exceed the cost acquired without any
    oversold disposal: a lot of quantity 2 and cost 0.016 disposed of in two
    disposals of quantity 1 is matched at 0.008 each, recorded as 0.01 each,
    0.02 in all.  It does so on binary64 and in exact arithmetic alike. *)
Lemma recorded_cost_exceeds_acquired :
  ~ conservacion_registrada ignorar None dos_mitades "BTC"
  /\ ~ conservacion_registrada EscenarioQ.ignorar None EscenarioQ.dos_mitades "BTC".
Proof.
  split; intros Hc.
  - assert (Hs : sin_sobreventa ignorar (marco None dos_mitades) = true)
      by (vm_compute; reflexivity).
    specialize (Hc Hs). vm_compute in Hc. discriminate.
  - assert (Hs : sin_sobreventa EscenarioQ.ignorar (marco None EscenarioQ.dos_mitades) = true)
      by (vm_compute; reflexivity).
    specialize (Hc Hs). vm_compute in Hc. discriminate.
Qed.

(** An acquisition row of negative cost breaks conservation whatever
    the rounding: lots of cost 100 and -50, one unit each, and a disposal of
    one unit matched at 100, against 50 acquired. *)
Lemma negative_cost_breaks_conservation :
  ~ conservacion_registrada EscenarioQ.ignorar None EscenarioQ.coste_negativo "BTC".
Proof.
  intros Hc.
  assert (Hs : sin_sobreventa EscenarioQ.ignorar (marco None EscenarioQ.coste_negativo) = true)
    by (vm_compute; reflexivity).
  specialize (Hc Hs). vm_compute in Hc. discriminate.
Qed.

(** On binary64 the cost matched before rounding can itself exceed the
    cost acquired, by the rounding of the shares: a lot of cost 0.1 disposed
    of in three thirds is matched at 0.10000000000000002 in all. *)
Lemma conservacion_en_binario :
  coste_exacto "BTC" (snd (motor_traza ignorar (marco None tres_tercios)))
  = 0.10000000000000002%float
  /\ sin_sobreventa ignorar (marco None tres_tercios) = true
  /\ (coste_adquirido "BTC" tres_tercios
       <? coste_exacto "BTC" (snd (motor_traza ignorar (marco None tres_tercios))))%float
     = true.
Proof. repeat split; vm_compute; reflexivity. Qed.

(** C5 (as amended). Conservation.  In exact arithmetic, for every asset
    whose acquisition rows have a non-negative cost, the sum over the
    asset's disposals of the matched cost before rounding never exceeds the
    sum of the costs of the asset's acquisition rows, oversold or not.  The
    matched cost of a record is that value rounded to 2 decimals, so the sum
    of the recorded values exceeds the acquired cost by at most half a cent
    per record of the asset. *)
Theorem conservation_before_rounding
    (ign : gset string) (solo_crypto : option string) (df : list (Row Q)) (asset : string) :
  (forall r, In r df -> es_compra (tipo r) = true -> upper (cur r) = asset -> (0 <= eur r)%Q) ->
  let tr := snd (motor_traza ign (marco solo_crypto df)) in
  let detalle := fst (fifo_ct ign solo_crypto df) in
  map coste_fifo detalle = map (fun x => round2 (l_coste_fifo (snd x))) tr
  /\ (coste_exacto asset tr <= coste_adquirido asset df)%Q
  /\ (coste_registrado asset detalle
      <= coste_adquirido asset df
         + (1 # 200) * inject_Z (Z.of_nat (length
             (List.filter (fun f => String.eqb (cripto f) asset) detalle))))%Q.
Proof.
  intros Hnn tr detalle.
  assert (Hdet : detalle = map (fun x => fila (marco solo_crypto df) (fst x) (snd x)) tr)
    by apply detalle_de_traza.
  assert (Hex : (coste_exacto asset tr <= coste_adquirido asset df)%Q).
  { destruct (fold_traza_conserva ign (marco solo_crypto df) asset (marco solo_crypto df)
                ((∅, []) : Traza Q)) as [Hsum Hfin].
    - unfold lotes. cbn [fst]. rewrite lookup_empty. constructor.
    - intros r Hr. apply Hnn. eapply marco_In. exact Hr.
    - fold (motor_traza ign (marco solo_crypto df)) in Hsum, Hfin. fold tr in Hsum.
      pose proof (coste_entrado_le ign solo_crypto asset df Hnn) as Hle.
      assert (H0 : (0 <= Exacto.suma_q (map lot_coste
                      (lotes (fst (motor_traza ign (marco solo_crypto df))) asset)))%Q).
      { apply suma_q_nonneg, Forall_map. exact Hfin. }
      assert (Hini : (coste_exacto asset (snd ((∅, []) : Traza Q))
                      + Exacto.suma_q (map lot_coste (lotes (fst ((∅, []) : Traza Q)) asset))
                      == 0)%Q).
      { unfold lotes. cbn [fst snd]. rewrite lookup_empty. reflexivity. }
      rewrite Hini in Hsum. lra. }
  split; [|split].
  - rewrite Hdet, map_map. reflexivity.
  - exact Hex.
  - rewrite Hdet. pose proof (coste_registrado_cota (marco solo_crypto df) asset tr) as Hb.
    lra.
Qed.

Lemma conservation_before_rounding_witness :
  (coste_exacto "BTC" (snd (motor_traza EscenarioQ.ignorar (marco None EscenarioQ.dos_mitades)))
   <= coste_adquirido "BTC" EscenarioQ.dos_mitades)%Q.
Proof.
  apply (conservation_before_rounding EscenarioQ.ignorar None EscenarioQ.dos_mitades "BTC").
  intros r [<-|[<-|[<-|[]]]] Hc _; vm_compute; discriminate.
Defined.

(** *** Lots in the inventory *)

(** C6. Positive lots.  On binary64, when every acquisition row has a
    positive quantity, after any number of rows of a run every lot of every
    queue has a positive quantity.  Inside the consume loop the same holds
    after each iteration: a lot whose quantity is within the tolerance of
    the remaining need ([lot_qty <= salida + 1e-12]) is removed by that
    iteration, and a lot that is split keeps a positive quantity.  A lot
    of 1 against a need of 1 is removed and the lot behind it stays, and a
    lot of 1.0000000000001 against a need of 1 leaves an empty queue.  The
    same invariant holds in exact arithmetic, where a lot that is split
    keeps more than the tolerance. *)
Theorem lots_stay_positive :
  (forall (ign : gset string) (solo_crypto : option string) (df : list (Row float)),
      (forall r, In r df -> es_compra (tipo r) = true -> (0 <? amount r)%float = true) ->
      forall pre post : list (Row float),
        marco solo_crypto df = pre ++ post ->
        forall (c : string) (cola : list (Lot float)) (lot : Lot float),
          fst (fold_left (paso ign (marco solo_crypto df)) pre (∅, [])) !! c = Some cola ->
          In lot cola -> (0 <? lot_qty lot)%float = true)
  /\ (forall (salida coste : float) (cola : list (Lot float)) (st : Bucle float),
         (forall lot, In lot cola -> (0 <? lot_qty lot)%float = true) ->
         iteracion (salida, coste, cola) = Some st ->
         (forall lot, In lot (snd st) -> (0 <? lot_qty lot)%float = true) /\
         match cola with
         | [] => False
         | lot :: resto =>
             if (lot_qty lot <=? salida + 1e-12)%float
             then snd st = resto
             else exists lot', snd st = lot' :: resto /\ (0 <? lot_qty lot')%float = true
         end)
  /\ (consume [mkLot 1 100; mkLot 2 50] 1 0 = (0, 100, [mkLot 2 50])
      /\ motor ignorar casi_uno
         = ({["BTC"%string := []]}, [mkFila 2 "BTC" 1 120 100 0 20 N]))%float
  /\ (forall (ign : gset string) (solo_crypto : option string) (df : list (Row Q)),
         (forall r, In r df -> es_compra (tipo r) = true -> (0 < amount r)%Q) ->
         forall pre post : list (Row Q),
           marco solo_crypto df = pre ++ post ->
           forall (c : string) (cola : list (Lot Q)) (lot : Lot Q),
             fst (fold_left (paso ign (marco solo_crypto df)) pre (∅, [])) !! c = Some cola ->
             In lot cola -> (0 < lot_qty lot)%Q)
  /\ (forall (salida coste : Q) (cola : list (Lot Q)) (st : Bucle Q),
         Forall positivo cola ->
         iteracion (salida, coste, cola) = Some st ->
         Forall positivo (snd st) /\
         match cola with
         | [] => False
         | lot :: resto =>
             if (lot_qty lot <=? salida + eps)%num
             then snd st = resto
             else exists lot', snd st = lot' :: resto /\ (eps < lot_qty lot')%Q
         end).
Proof.
  split; [|split; [|split; [|split]]].
  - intros ign solo_crypto df Hpos pre post Hsplit c cola lot Hc Hin.
    pose proof (prefijo_mayor resta_positiva_float ign solo_crypto df pre post Hpos Hsplit
                  c cola Hc) as Hall.
    rewrite List.Forall_forall in Hall. exact (Hall lot Hin).
  - intros salida coste cola st Hcola Hit.
    assert (Hall : Forall mayor_que_cero cola)
      by (apply List.Forall_forall; exact Hcola).
    destruct (iteracion_mayor resta_positiva_float salida coste cola st Hall Hit)
      as [Hst Hm].
    split; [rewrite List.Forall_forall in Hst; exact Hst|exact Hm].
  - split; vm_compute; reflexivity.
  - intros ign solo_crypto df Hpos pre post Hsplit c cola lot Hc Hin.
    assert (Hinv : inventario_positivo
                     (fst (fold_left (paso ign (marco solo_crypto df)) pre
                             ((∅, []) : Estado Q)))).
    { apply fold_positivo; [apply inventario_vacio_positivo|].
      intros r Hr. apply Hpos. apply (marco_In solo_crypto).
      rewrite Hsplit. apply in_or_app. left. exact Hr. }
    pose proof (Hinv c cola Hc) as Hall.
    rewrite List.Forall_forall in Hall. exact (Hall lot Hin).
  - intros salida coste cola st. apply iteracion_positivos.
Qed.

(** After the acquisition of (2, 100) and the disposal of 1 the queue
    holds the lot (1, 50), which is positive; the iteration that splits the
    lot leaves it positive; and so is, in exact arithmetic, the lot of the
    first row of [dos_mitades]. *)
Lemma lots_stay_positive_witness :
  (0 <? lot_qty (mkLot 1 50))%float = true
  /\ (forall lot : Lot float,
         In lot (snd (1 - 1, 0 + 100 * (1 / 2),
                      [mkLot (2 - 1) (100 * (1 - 1 / 2))])%float) ->
         (0 <? lot_qty lot)%float = true)
  /\ (0 < lot_qty (mkLot 2 (16 # 1000)))%Q.
Proof.
  split; [|split].
  - refine (proj1 lots_stay_positive ignorar None medio_lote _
              (marco None medio_lote) [] _ "BTC"%string [mkLot 1 50]%float
              (mkLot 1 50)%float _ _).
    + intros r [<-|[<-|[]]] Hc;
        first [vm_compute; reflexivity | vm_compute in Hc; discriminate].
    + symmetry. apply app_nil_r.
    + vm_compute. reflexivity.
    + left. reflexivity.
  - refine (proj1 (proj1 (proj2 lots_stay_positive) 1 0 [mkLot 2 100] _ _ _)%float).
    + intros lot [<-|[]]. reflexivity.
    + vm_compute. reflexivity.
  - refine (proj1 (proj2 (proj2 (proj2 lots_stay_positive)))
              EscenarioQ.ignorar None EscenarioQ.dos_mitades _
              (firstn 1 (marco None EscenarioQ.dos_mitades))
              (skipn 1 (marco None EscenarioQ.dos_mitades)) _
              "BTC"%string [mkLot 2 (16 # 1000)]%Q (mkLot 2 (16 # 1000))%Q _ _).
    + intros r [<-|[<-|[<-|[]]]] Hc;
        first [vm_compute; reflexivity | vm_compute in Hc; discriminate].
    + symmetry. apply firstn_skipn.
    + vm_compute. reflexivity.
    + left. reflexivity.
Defined.

(** *** Oversold disposals *)

(** On binary64 the need is subtracted with rounding, so a disposal of
    more than the queue holds can end with the need met and a lot left:
    against lots of 1.25, 1e16 and 0.5, a disposal of 1e16 + 2 leaves the
    lot of 0.5 untouched and is matched at the cost of the first two. *)
Lemma sobreventa_redondeada :
  motor ignorar sobrevendido_grande
  = ({["BTC"%string := [mkLot 0.5 30]]},
     [mkFila 4 "BTC" 10000000000000002 900 30 0 870 N])%float.
Proof. vm_compute. reflexivity. Qed.

(** C7. Oversold disposal.  The run has no error outcome and has one
    record for each disposal row; on every frame, in whatever order its
    rows have been put, the records are in the order of the disposal rows
    and have the date, asset, quantity and rounded value of their rows,
    whatever the queues hold.  The step on a
    disposal row, on every arithmetic and whatever the queue of the asset
    holds: the record has the rounded matched cost that the consume loop
    returns, and when the loop ends with a need above the tolerance it has
    emptied the queue, and the matched cost is the sum of the costs of the
    lots that were in it: nothing is added for the quantity left unmatched.
    The one operation of the loop that can fail, the division of the partial
    step, never has a zero divisor, on binary64 and in exact arithmetic.
    Lots of 1 and 0.5 against a disposal of 3 give, on binary64, a record
    of matched cost 170 and an empty queue.  In exact arithmetic, on a
    ledger whose acquisitions have positive quantity, a disposal of more
    than the whole quantity of its queue takes lots whole from the front at
    their full cost and leaves at most a remainder of total quantity below
    the tolerance, none when the excess is above the tolerance. *)
Theorem oversold_is_not_an_error :
  (forall (A : Type) (HA : Numero A) (ign : gset string) (solo_crypto : option string)
          (df : list (Row A)),
      length (fst (fifo_ct ign solo_crypto df))
      = length (ventas ign (marco solo_crypto df)))
  /\ (forall (A : Type) (HA : Numero A) (ign : gset string) (frame : list (Row A)),
         map (fun f : Fila A => (fecha f, cripto f, qty f, valor_transm f))
             (snd (motor ign frame))
         = map (fun row : Row A =>
                  (dia (date row), upper (cur row), - amount row, round2 (- eur row))%num)
               (ventas ign frame))
  /\ (forall (A : Type) (HA : Numero A) (ign : gset string) (df : list (Row A))
             (inventario : gmap string (list (Lot A))) (filas : list (Fila A)) (row : Row A),
         vendida ign row = true ->
         let cola := lotes inventario (upper (cur row)) in
         let fin := consume cola (- amount row)%num cero in
         paso ign df (inventario, filas) row
         = (<[upper (cur row) := snd fin]> inventario,
            filas ++ [mkFila (dia (date row)) (upper (cur row)) (- amount row)%num
                        (round2 (- eur row)%num)
                        (round2 (snd (fst fin)))
                        (round2_np (fee_eur df row))
                        (round2_np (- eur row - snd (fst fin) - fee_eur df row)%num)
                        (clave_de df row)])
         /\ ((fst (fst fin) >? eps)%num = true ->
             snd fin = []
             /\ snd (fst fin) = fold_left nadd (map lot_coste cola) cero))
  /\ (forall (lot : Lot float) (salida : float),
         (1e-12 <? salida)%float = true ->
         (lot_qty lot <=? salida + 1e-12)%float = false ->
         (lot_qty lot =? 0)%float = false)
  /\ (forall (lot : Lot Q) (salida : Q),
         (salida >? eps)%num = true ->
         (lot_qty lot <=? salida + eps)%num = false ->
         ~ (lot_qty lot == 0)%Q)
  /\ motor ignorar sobrevendido
     = ({["BTC"%string := []]}, [mkFila 3 "BTC" 3 900 170 0 730 N])%float
  /\ (forall (ign : gset string) (solo_crypto : option string) (df : list (Row Q)),
         (forall r, In r df -> es_compra (tipo r) = true -> (0 < amount r)%Q) ->
         forall (pre post : list (Row Q)) (row : Row Q),
           marco solo_crypto df = pre ++ row :: post ->
           vendida ign row = true ->
           let cola := lotes (fst (fold_left (paso ign (marco solo_crypto df)) pre (∅, [])))
                         (upper (cur row)) in
           (Exacto.suma_q (map lot_qty cola) < - amount row)%Q ->
           exists enteros resto : list (Lot Q),
             cola = enteros ++ resto
             /\ consume cola (- amount row)%Q 0%Q
                = (fold_left Qminus (map lot_qty enteros) (- amount row)%Q,
                   fold_left Qplus (map lot_coste enteros) 0%Q, resto)
             /\ (Exacto.suma_q (map lot_qty resto) < eps)%Q
             /\ ((Exacto.suma_q (map lot_qty cola) + eps < - amount row)%Q -> resto = [])).
Proof.
  split; [|split; [|split; [|split; [|split; [|split]]]]].
  - intros A HA ign solo_crypto df.
    pose proof (detalle_ventas ign solo_crypto df) as Hd.
    apply (f_equal (@length _)) in Hd. rewrite !length_map in Hd. exact Hd.
  - intros A HA ign frame.
    pose proof (registros_del_marco ign frame) as Hd.
    apply (f_equal (map (fun x : Z * string * A * A * A * Clave =>
                           (fst (fst (fst (fst (fst x)))), snd (fst (fst (fst (fst x)))),
                            snd (fst (fst (fst x))), snd (fst (fst x)))))) in Hd.
    rewrite !map_map in Hd. exact Hd.
  - intros A HA ign df inventario filas row Hv cola fin. split.
    + rewrite (paso_vendida ign df inventario filas row Hv). reflexivity.
    + intros Hfin. unfold fin. rewrite (consume_sin_cubrir cola _ _ Hfin).
      split; reflexivity.
  - intros lot salida. apply divisor_f.
  - intros lot salida Hg Hw H0.
    apply ngt_Q in Hg. apply nle_Q_false in Hw.
    cbn [nadd Exacto.Q_Numero] in Hw. pose proof eps_Q_pos as He.
    rewrite H0 in Hw. lra.
  - vm_compute. reflexivity.
  - intros ign solo_crypto df Hpos pre post row Hsplit Hv cola Hover.
    apply consume_sobrevendido; [|exact Hover].
    apply lotes_positivos. apply fold_positivo; [apply inventario_vacio_positivo|].
    intros r Hr. apply Hpos. apply (marco_In solo_crypto).
    rewrite Hsplit. apply in_or_app. left. exact Hr.
Qed.

(** The disposal of 3 against lots of 1 and 0.5, step by step on binary64
    and as a run in exact arithmetic; and the divisor of the partial step of
    a need of 1 against a lot of 2. *)
Lemma oversold_is_not_an_error_witness :
  (paso ignorar sobrevendido
     ({["BTC"%string := [mkLot 1 100; mkLot 0.5 70]]}, [])
     (mkRow (t 3) "Sell" (-3) "BTC" (-900) (Some "T1"%string))
   = (<["BTC"%string := []]> {["BTC"%string := [mkLot 1 100; mkLot 0.5 70]]},
      [mkFila 3 "BTC" 3 900 170 0 730 N]))%float
  /\ (exists enteros resto : list (Lot Q),
         [mkLot 1 100; mkLot (1 # 2) 70]%Q = enteros ++ resto
         /\ consume [mkLot 1 100; mkLot (1 # 2) 70]%Q (- - 3)%Q 0%Q
            = (fold_left Qminus (map lot_qty enteros) (- - 3)%Q,
               fold_left Qplus (map lot_coste enteros) 0%Q, resto)
         /\ (Exacto.suma_q (map lot_qty resto) < eps)%Q
         /\ ((Exacto.suma_q (map lot_qty [mkLot 1 100; mkLot (1 # 2) 70]%Q) + eps < - - 3)%Q
             -> resto = []))
  /\ (lot_qty (mkLot 2 100) =? 0)%float = false
  /\ ~ (lot_qty (mkLot 2 100) == 0)%Q.
Proof.
  split; [|split; [|split]];
    [| |exact (proj1 (proj2 (proj2 (proj2 oversold_is_not_an_error)))
                 (mkLot 2 100)%float 1%float eq_refl eq_refl)
       |exact (proj1 (proj2 (proj2 (proj2 (proj2 oversold_is_not_an_error))))
                 (mkLot 2 100)%Q 1%Q eq_refl eq_refl)].
  - destruct (proj1 (proj2 (proj2 oversold_is_not_an_error)) float _ ignorar sobrevendido
                {["BTC"%string := [mkLot 1 100; mkLot 0.5 70]%float]} []
                (mkRow (t 3) "Sell" (-3) "BTC" (-900) (Some "T1"%string))%float eq_refl)
      as [Hpaso _].
    rewrite Hpaso. vm_compute. reflexivity.
  - refine (proj2 (proj2 (proj2 (proj2 (proj2 (proj2 oversold_is_not_an_error)))))
              EscenarioQ.ignorar None EscenarioQ.sobrevendido _
              (firstn 2 EscenarioQ.sobrevendido) [] 
              (mkRow 3 "Sell" (- 3) "BTC" (- 900) (Some "T1"%string))%Q _ _ _).
    + intros r [<-|[<-|[<-|[]]]] Hc;
        first [vm_compute; reflexivity | vm_compute in Hc; discriminate].
    + vm_compute. reflexivity.
    + vm_compute. reflexivity.
    + vm_compute. reflexivity.
Defined.

(** *** Unlinked trades *)

(** C8. Unlinked trade.  The i-th disposal row of the frame has the i-th
    record.  When no row of the ledger shares its trade_id while being
    labelled as a fee or carrying the ticker EUR, that record has fee 0.0
    and class N; so it is, in particular, when the trade_id of the row is
    missing (an empty cell is read as a missing one). *)
Theorem unlinked_trade (A : Type) (HA : Numero A)
    (ign : gset string) (solo_crypto : option string) (df : list (Row A))
    (i : nat) (row : Row A) :
  nth_error (ventas ign (marco solo_crypto df)) i = Some row ->
  exists f : Fila A,
    nth_error (fst (fifo_ct ign solo_crypto df)) i = Some f
    /\ ((forall r, In r df -> mismo_trade (trade_id r) (trade_id row) = true ->
                   es_fee (tipo r) = false /\ upper (cur r) <> "EUR"%string) ->
        gastos f = cero /\ clave f = N)
    /\ (trade_id row = None -> gastos f = cero /\ clave f = N).
Proof.
  intros Hrow.
  pose proof (detalle_ventas ign solo_crypto df) as Hd.
  assert (Hi : nth_error (map en_la_fila (fst (fifo_ct ign solo_crypto df))) i
               = Some (de_la_fila (marco solo_crypto df) row)).
  { rewrite Hd. apply map_nth_error. exact Hrow. }
  rewrite nth_error_map in Hi.
  destruct (nth_error (fst (fifo_ct ign solo_crypto df)) i) as [f|]; [|discriminate].
  cbn [option_map] in Hi. injection Hi as Hf.
  unfold en_la_fila, de_la_fila in Hf.
  assert (Hg : gastos f = round2_np (fee_eur (marco solo_crypto df) row)) by congruence.
  assert (Hk : clave f = clave_de (marco solo_crypto df) row) by congruence.
  assert (Hlink : (forall r, In r df -> mismo_trade (trade_id r) (trade_id row) = true ->
                             es_fee (tipo r) = false /\ upper (cur r) <> "EUR"%string) ->
                  gastos f = cero /\ clave f = N).
  { intros Hno. rewrite Hg, Hk. apply sin_enlace.
    intros r Hr. apply Hno. eapply marco_In. exact Hr. }
  exists f. split; [reflexivity|]. split; [exact Hlink|].
  intros Hnone. apply Hlink. intros r _ Hm.
  rewrite Hnone, mismo_trade_None in Hm. discriminate.
Qed.

Lemma unlinked_trade_witness :
  exists f : Fila float,
    nth_error (fst (fifo_ct ignorar None medio_lote)) 0 = Some f
    /\ gastos f = 0%float /\ clave f = N.
Proof.
  destruct (unlinked_trade float _ ignorar None medio_lote 0%nat
              (mkRow (t 2) "Sell" (-1) "BTC" (-80) (Some "T1"%string))%float eq_refl)
    as (f & Hf & Hlink & _).
  exists f. split; [exact Hf|]. apply Hlink.
  intros r [<-|[<-|[]]] _; split; first [reflexivity | discriminate].
Defined.

(** *** Epsilon *)

(** C9. Epsilon handling.  On binary64, a lot of quantity 1.0000000000001
    at the front of a queue is taken whole by a need of 1.0, whatever its
    cost and whatever is behind it: its full cost is added, it is removed,
    and the loop ends after that one iteration (two evaluations of the
    guard) with the rest of the queue untouched.  In a run, the acquisition
    of 1.0000000000001 followed by a disposal of 1.0 is recorded with the
    full cost and leaves the BTC queue empty.  On every arithmetic and every
    queue the loop ends within one evaluation of its guard more than there
    are lots. *)
Theorem epsilon_drains_lot (c coste : float) (resto : list (Lot float)) :
  (consume (mkLot 1.0000000000001 c :: resto) 1 coste
   = (1 - 1.0000000000001, coste + c, resto))%float
  /\ (bucle 2 (1, coste, mkLot 1.0000000000001 c :: resto)
      = Some (1 - 1.0000000000001, coste + c, resto))%float
  /\ motor ignorar casi_uno
     = ({["BTC"%string := []]}, [mkFila 2 "BTC" 1 120 100 0 20 N])%float
  /\ (forall (A : Type) (HA : Numero A) (cola : list (Lot A)) (s k : A),
         bucle (S (length cola)) (s, k, cola) = Some (consume cola s k)).
Proof.
  split; [apply consume_casi_uno|].
  split; [apply bucle_casi_uno|].
  split; [vm_compute; reflexivity|].
  intros A HA cola s k. apply bucle_consume. lia.
Qed.

(** *** Rounding *)

(** C10. Rounding.  Every record comes from a disposal row of the frame
    and holds the roundings to 2 decimals of the value received, of the
    matched cost and of the fee, and as its gain the rounding of value
    minus cost minus fee taken on the unrounded values.  The value and the
    cost are rounded as Python floats, the fee and the gain as NumPy
    scalars: a value of 2.675 with nothing to match is recorded as 2.67 and
    its gain as 2.68.  The gain of a record can differ from value minus cost
    minus fee over its own fields: with a value of 1.006 and a cost of 0.002
    the gain is 1.0 and the fields give 1.01.  Every record has its row in
    the summary, and each field of a summary row is the sum, as [groupby]
    adds, of that rounded field over the records of its group, which is
    not empty; the two records of [dos_mitades] give one row with their
    sums, and the values 0.1, 0.2 and 0.3 of [tres_ventas] are summed to
    0.6, where adding them one after the other would give
    0.6000000000000001. *)
Theorem records_round_once :
  (forall (A : Type) (HA : Numero A) (ign : gset string) (solo_crypto : option string)
          (df : list (Row A)) (f : Fila A),
      In f (fst (fifo_ct ign solo_crypto df)) ->
      exists (row : Row A) (cola : list (Lot A)),
        In row (ventas ign (marco solo_crypto df))
        /\ let v := (- eur row)%num in
           let c := snd (fst (consume cola (- amount row)%num cero)) in
           let g := fee_eur (marco solo_crypto df) row in
           valor_transm f = round2 v
           /\ coste_fifo f = round2 c
           /\ gastos f = round2_np g
           /\ ganancia f = round2_np (v - c - g)%num)
  /\ (forall (ign : gset string) (frame : list (Row float)) (f : Fila float),
         In f (snd (motor ign frame)) ->
         exists (row : Row float) (cola : list (Lot float)),
           In row (ventas ign frame)
           /\ let v := (- eur row)%float in
              let c := snd (fst (consume cola (- amount row)%float 0%float)) in
              let g := fee_eur frame row in
              valor_transm f = Binario.round2_f v
              /\ coste_fifo f = Binario.round2_f c
              /\ gastos f = (Binario.rint (g * 100) / 100)%float
              /\ ganancia f = (Binario.rint ((v - c - g) * 100) / 100)%float)
  /\ (forall x : Q,
         (Qabs (round2 x - x) <= 1 # 200)%Q
         /\ (exists n : Z, (round2 x == inject_Z n / 100)%Q)
         /\ round2_np x = round2 x)
  /\ fst (fifo_ct ignorar None valor_medio_centimo)
     = [mkFila 1 "BTC" 1 2.67 0 0 2.68 N]%float
  /\ (exists f : Fila float,
         fst (fifo_ct ignorar None milesimas) = [f]
         /\ ganancia f = 1%float
         /\ (valor_transm f - coste_fifo f - gastos f)%float = 1.01%float
         /\ ganancia f <> (valor_transm f - coste_fifo f - gastos f)%float)
  /\ (forall (A : Type) (HA : Numero A) (ign : gset string) (solo_crypto : option string)
             (df : list (Row A)),
         snd (fifo_ct ign solo_crypto df) = resumen (fst (fifo_ct ign solo_crypto df)))
  /\ (forall (A : Type) (HA : Numero A) (detalle : list (Fila A)),
         (forall f : Fila A,
             In f detalle ->
             exists s : Resumen A,
               In s (resumen detalle) /\ r_cripto s = cripto f /\ r_clave s = clave f)
         /\ (forall s : Resumen A,
                In s (resumen detalle) ->
                let g := del_grupo (r_cripto s, r_clave s) detalle in
                g <> []
                /\ r_valor_transm s = suma_grupo (map valor_transm g)
                /\ r_coste_fifo s = suma_grupo (map coste_fifo g)
                /\ r_gastos s = suma_grupo (map gastos g)
                /\ r_ganancia s = suma_grupo (map ganancia g)))
  /\ snd (fifo_ct ignorar None dos_mitades)
     = [mkResumen "BTC" N 2 0.02 0 1.98]%float
  /\ (map r_valor_transm (snd (fifo_ct ignorar None tres_ventas)) = [0.6%float]
      /\ fold_left PrimFloat.add
           (map valor_transm (fst (fifo_ct ignorar None tres_ventas))) 0%float
         = 0.6000000000000001%float).
Proof.
  assert (Hgen : forall (A : Type) (HA : Numero A) (ign : gset string)
                        (solo_crypto : option string) (df : list (Row A)) (f : Fila A),
             In f (fst (fifo_ct ign solo_crypto df)) ->
             exists (row : Row A) (cola : list (Lot A)),
               In row (ventas ign (marco solo_crypto df))
               /\ let v := (- eur row)%num in
                  let c := snd (fst (consume cola (- amount row)%num cero)) in
                  let g := fee_eur (marco solo_crypto df) row in
                  valor_transm f = round2 v
                  /\ coste_fifo f = round2 c
                  /\ gastos f = round2_np g
                  /\ ganancia f = round2_np (v - c - g)%num).
  { intros A HA ign solo_crypto df f Hin.
    rewrite detalle_de_traza in Hin. apply in_map_iff in Hin as ([row l] & <- & Hx).
    pose proof (motor_traza_locales ign (marco solo_crypto df)) as Hloc.
    rewrite List.Forall_forall in Hloc. destruct (Hloc _ Hx) as [cola Hl].
    cbn [fst snd] in Hl. subst l.
    exists row, cola. split.
    + rewrite <- motor_traza_ventas. apply in_map_iff. exists (row, locales (marco solo_crypto df) cola row).
      split; [reflexivity|exact Hx].
    + cbn. repeat split. }
  split; [exact Hgen|].
  split.
  { intros ign frame f Hin.
    destruct (registros_locales ign frame f Hin) as (row & cola & Hrow & ->).
    exists row, cola. split; [exact Hrow|]. cbn. repeat split. }
  split.
  { intros x. change (@round2 Q _ x) with (Exacto.round2_q x). split; [|split].
    - pose proof (round2_q_cerca x) as Hc. apply Qabs_Qle_condition. lra.
    - exists (Exacto.redondeo_par (x * 100)). unfold Exacto.round2_q. apply Qred_correct.
    - reflexivity. }
  split; [|split; [|split; [|split; [|split]]]].
  - vm_compute. reflexivity.
  - eexists. split; [vm_compute; reflexivity|].
    split; [reflexivity|]. split; [reflexivity|].
    apply float_distinto. vm_compute. discriminate.
  - intros A HA ign solo_crypto df. reflexivity.
  - intros A HA detalle. split.
    + intros f Hf.
      assert (Hk : In (grupo_de f) (grupos detalle))
        by (apply grupos_In; exists f; split; [exact Hf|reflexivity]).
      unfold resumen.
      eexists. split; [apply in_map; exact Hk|]. split; reflexivity.
    + intros s Hs.
      unfold resumen in Hs. apply in_map_iff in Hs as (k & <- & Hk).
      cbn [r_cripto r_clave r_valor_transm r_coste_fifo r_gastos r_ganancia].
      rewrite <- surjective_pairing. split; [|repeat split].
      apply grupos_In in Hk as (f & Hf & Hg). intros Hnil.
      assert (Hin : In f (del_grupo k detalle)).
      { unfold del_grupo. apply filter_In. split; [exact Hf|].
        apply grupo_eqb_eq. exact Hg. }
      rewrite Hnil in Hin. destruct Hin.
  - vm_compute. reflexivity.
  - split; vm_compute; reflexivity.
Qed.

(** The record of [milesimas], and the summary row of the first record
    of [dos_mitades]. *)
Lemma records_round_once_witness :
  (exists (row : Row float) (cola : list (Lot float)),
      In row (ventas ignorar (marco None milesimas))
      /\ valor_transm (mkFila 2 "BTC" 1 1.01 0 0 1 N)%float = round2 (- eur row)%num
      /\ coste_fifo (mkFila 2 "BTC" 1 1.01 0 0 1 N)%float
         = round2 (snd (fst (consume cola (- amount row)%num cero)))
      /\ gastos (mkFila 2 "BTC" 1 1.01 0 0 1 N)%float
         = round2_np (fee_eur (marco None milesimas) row)
      /\ ganancia (mkFila 2 "BTC" 1 1.01 0 0 1 N)%float
         = round2_np (- eur row - snd (fst (consume cola (- amount row) cero))
                      - fee_eur (marco None milesimas) row)%num)
  /\ (exists s : Resumen float,
         In s (resumen (fst (fifo_ct ignorar None dos_mitades)))
         /\ r_cripto s = cripto (mkFila 2 "BTC" 1 1 0.01 0 0.99 N)%float
         /\ r_clave s = clave (mkFila 2 "BTC" 1 1 0.01 0 0.99 N)%float).
Proof.
  split.
  - refine (proj1 records_round_once float _ ignorar None milesimas
              (mkFila 2 "BTC" 1 1.01 0 0 1 N)%float _).
    left. vm_compute. reflexivity.
  - refine (proj1 (proj1 (proj2 (proj2 (proj2 (proj2 (proj2 (proj2 records_round_once))))))
                     float _ (fst (fifo_ct ignorar None dos_mitades)))
              (mkFila 2 "BTC" 1 1 0.01 0 0.99 N)%float _).
    left. vm_compute. reflexivity.
Defined.

End Afirmaciones.
(** ** Further properties: the label predicates, lines 66-75 *)

Section Etiquetas.

Lemma lower_upper_ascii (c : ascii) : lower_ascii (upper_ascii c) = lower_ascii c.
Proof. destruct c as [[] [] [] [] [] [] [] []]; reflexivity. Qed.

Lemma upper_upper_ascii (c : ascii) : upper_ascii (upper_ascii c) = upper_ascii c.
Proof. destruct c as [[] [] [] [] [] [] [] []]; reflexivity. Qed.

Lemma upper_idem (s : string) : upper (upper s) = upper s.
Proof.
  induction s as [|c s IH]; [reflexivity|].
  cbn [upper]. rewrite upper_upper_ascii, IH. reflexivity.
Qed.

(** *** Text after the keyword *)

Lemma append_String (c : ascii) (s t : string) :
  (String c s ++ t)%string = String c (s ++ t).
Proof. reflexivity. Qed.

Lemma letra_app (p : ascii) (s t r : string) :
  letra p s = Some r -> letra p (s ++ t) = Some (r ++ t)%string.
Proof.
  destruct s as [|c s]; [discriminate|]. rewrite append_String. unfold letra.
  destruct (Ascii.eqb p (lower_ascii c)); [intros [= <-]; reflexivity|].
  unfold otras.
  destruct (Ascii.eqb p "i"); [|destruct (Ascii.eqb p "s"); [|destruct (Ascii.eqb p "k")]];
    cbn [quita_alguno quita]; try discriminate;
    (destruct (Ascii.eqb _ c); [|discriminate]);
    (destruct s as [|c2 s]; [discriminate|]); rewrite append_String;
    repeat (destruct (Ascii.eqb _ c2); [first [intros [= <-]; reflexivity | idtac]|]);
    try discriminate.
  destruct s as [|c3 s]; [discriminate|]. rewrite append_String.
  destruct (Ascii.eqb _ c3); [intros [= <-]; reflexivity|discriminate].
Qed.

Lemma empieza_app (pat s t : string) :
  empieza pat s = true -> empieza pat (s ++ t) = true.
Proof.
  revert s. induction pat as [|p pat IH]; intros s Hs; [reflexivity|].
  cbn [empieza] in *. destruct (letra p s) as [r|] eqn:Hl; [|discriminate].
  rewrite (letra_app p s t r Hl). apply IH. exact Hs.
Qed.

(** *** The case of the ASCII letters *)

Lemma letra_minusculas (p : ascii) (s s' : string) :
  minusculas s = minusculas s' ->
  match letra p s, letra p s' with
  | Some r, Some r' => minusculas r = minusculas r'
  | None, None => True
  | _, _ => False
  end.
Proof.
  assert (H196 : fijo "196") by (intros [[] [] [] [] [] [] [] []]; reflexivity).
  assert (H176 : fijo "176") by (intros [[] [] [] [] [] [] [] []]; reflexivity).
  assert (H177 : fijo "177") by (intros [[] [] [] [] [] [] [] []]; reflexivity).
  assert (H197 : fijo "197") by (intros [[] [] [] [] [] [] [] []]; reflexivity).
  assert (H191 : fijo "191") by (intros [[] [] [] [] [] [] [] []]; reflexivity).
  assert (H226 : fijo "226") by (intros [[] [] [] [] [] [] [] []]; reflexivity).
  assert (H132 : fijo "132") by (intros [[] [] [] [] [] [] [] []]; reflexivity).
  assert (H170 : fijo "170") by (intros [[] [] [] [] [] [] [] []]; reflexivity).
  destruct s as [|c s], s' as [|c' s']; cbn [minusculas]; try discriminate;
    [intros _; exact I|].
  intros [= Hc Hs]. unfold letra. rewrite Hc.
  destruct (Ascii.eqb p (lower_ascii c')); [exact Hs|].
  unfold otras.
  destruct (Ascii.eqb p "i"); [|destruct (Ascii.eqb p "s"); [|destruct (Ascii.eqb p "k")]];
    cbn [quita_alguno quita]; [| | |trivial].
  - rewrite (H196 c), (H196 c'), Hc. destruct (Ascii.eqb "196" (lower_ascii c')); [|trivial].
    destruct s as [|c2 s], s' as [|c2' s']; cbn [minusculas] in Hs; try discriminate; [trivial|].
    injection Hs as Hc2 Hs.
    rewrite (H176 c2), (H176 c2'), (H177 c2), (H177 c2'), Hc2.
    destruct (Ascii.eqb "176" (lower_ascii c2')); [exact Hs|].
    destruct (Ascii.eqb "177" (lower_ascii c2')); [exact Hs|trivial].
  - rewrite (H197 c), (H197 c'), Hc. destruct (Ascii.eqb "197" (lower_ascii c')); [|trivial].
    destruct s as [|c2 s], s' as [|c2' s']; cbn [minusculas] in Hs; try discriminate; [trivial|].
    injection Hs as Hc2 Hs.
    rewrite (H191 c2), (H191 c2'), Hc2.
    destruct (Ascii.eqb "191" (lower_ascii c2')); [exact Hs|trivial].
  - rewrite (H226 c), (H226 c'), Hc. destruct (Ascii.eqb "226" (lower_ascii c')); [|trivial].
    destruct s as [|c2 s], s' as [|c2' s']; cbn [minusculas] in Hs; try discriminate; [trivial|].
    injection Hs as Hc2 Hs.
    rewrite (H132 c2), (H132 c2'), Hc2.
    destruct (Ascii.eqb "132" (lower_ascii c2')); [|trivial].
    destruct s as [|c3 s], s' as [|c3' s']; cbn [minusculas] in Hs; try discriminate; [trivial|].
    injection Hs as Hc3 Hs.
    rewrite (H170 c3), (H170 c3'), Hc3.
    destruct (Ascii.eqb "170" (lower_ascii c3')); [exact Hs|trivial].
Qed.

Lemma empieza_minusculas (pat s s' : string) :
  minusculas s = minusculas s' -> empieza pat s = empieza pat s'.
Proof.
  revert s s'. induction pat as [|p pat IH]; intros s s' Hs; [reflexivity|].
  cbn [empieza]. pose proof (letra_minusculas p s s' Hs) as Hl.
  destruct (letra p s) as [r|], (letra p s') as [r'|]; try contradiction; [|reflexivity].
  apply IH. exact Hl.
Qed.

(** *** Disjoint classes *)

Lemma letra_abre (p : ascii) (s r : string) :
  letra p s = Some r -> exists c s', s = String c s' /\ abre p c = true.
Proof.
  destruct s as [|c s]; [discriminate|]. intros Hl. exists c, s. split; [reflexivity|].
  unfold letra in Hl. unfold abre.
  destruct (Ascii.eqb p (lower_ascii c)); [reflexivity|]. cbn [orb].
  revert Hl. unfold otras.
  destruct (Ascii.eqb p "i"); [|destruct (Ascii.eqb p "s"); [|destruct (Ascii.eqb p "k")]];
    cbn [quita_alguno quita existsb]; try discriminate;
    destruct (Ascii.eqb _ c); try reflexivity; discriminate.
Qed.

(** Two keywords whose first letters take no common character are not
    both at the start of a label. *)
Lemma empieza_distintas (p q : ascii) (pr qr s : string) :
  (forall c, abre p c && abre q c = false) ->
  empieza (String p pr) s && empieza (String q qr) s = false.
Proof.
  intros Hpq. cbn [empieza].
  destruct (letra p s) as [r|] eqn:Hp; [|reflexivity].
  destruct (letra q s) as [r'|] eqn:Hq; [|apply andb_false_r].
  apply letra_abre in Hp as (c & s1 & -> & Hc).
  apply letra_abre in Hq as (c' & s2 & [= <- _] & Hc').
  specialize (Hpq c). rewrite Hc, Hc' in Hpq. discriminate.
Qed.

(** Two keywords with the same first letter: the question passes to what
    follows it. *)
Lemma empieza_comun (p : ascii) (pr qr s : string) :
  empieza (String p pr) s && empieza (String p qr) s
  = match letra p s with
    | Some r => empieza pr r && empieza qr r
    | None => false
    end.
Proof. cbn [empieza]. destruct (letra p s); reflexivity. Qed.

Ltac bytes := let c := fresh "c" in intros c; destruct c as [[] [] [] [] [] [] [] []]; reflexivity.

Lemma compra_no_venta (s : string) : es_compra s && es_venta s = false.
Proof.
  unfold es_compra, es_venta.
  rewrite andb_orb_distrib_l, !andb_orb_distrib_r.
  rewrite !empieza_distintas by bytes. reflexivity.
Qed.

Lemma venta_no_fee (s : string) : es_venta s && es_fee s = false.
Proof.
  unfold es_venta, es_fee.
  rewrite andb_orb_distrib_l, !andb_orb_distrib_r.
  rewrite !empieza_distintas by bytes. reflexivity.
Qed.

Lemma compra_no_fee (s : string) : es_compra s && es_fee s = false.
Proof.
  unfold es_compra, es_fee.
  rewrite andb_orb_distrib_l, !andb_orb_distrib_r.
  rewrite (empieza_distintas "c" "f"), (empieza_distintas "b" "c"),
    (empieza_distintas "b" "f") by bytes.
  rewrite !orb_false_r.
  rewrite empieza_comun. destruct (letra "c" s) as [r1|]; [|reflexivity].
  rewrite empieza_comun. destruct (letra "o" r1) as [r2|]; [|reflexivity].
  rewrite empieza_comun. destruct (letra "m" r2) as [r3|]; [|reflexivity].
  apply empieza_distintas. bytes.
Qed.

(** A label matched by [es_fee] is matched by neither of the other two. *)
Lemma fee_excluye (s : string) :
  es_fee s = true -> es_compra s = false /\ es_venta s = false.
Proof.
  intros Hf. pose proof (compra_no_fee s) as H1. pose proof (venta_no_fee s) as H2.
  rewrite Hf, andb_true_r in H1, H2. split; assumption.
Qed.

(** X1. The three classes of labels are disjoint: no label is matched by
    two of [es_compra], [es_venta] and [es_fee]. *)
Theorem label_classes_disjoint (s : string) :
  es_compra s && es_venta s = false
  /\ es_compra s && es_fee s = false
  /\ es_venta s && es_fee s = false.
Proof.
  split; [apply compra_no_venta|]. split; [apply compra_no_fee|apply venta_no_fee].
Qed.

(** X2. A label is classified by its first letters alone, whatever the
    case of the ASCII letters among them: two labels that differ only in
    the case of ASCII letters are in the same classes, and adding text
    after a label keeps it in its class. *)
Theorem label_class_ignores_case_and_tail (s s' t : string) :
  (minusculas s = minusculas s' ->
   es_compra s = es_compra s' /\ es_venta s = es_venta s' /\ es_fee s = es_fee s')
  /\ (es_compra s = true -> es_compra (s ++ t) = true)
  /\ (es_venta s = true -> es_venta (s ++ t) = true)
  /\ (es_fee s = true -> es_fee (s ++ t) = true).
Proof.
  unfold es_compra, es_venta, es_fee. split.
  - intros Hs. rewrite !(empieza_minusculas _ s s' Hs). repeat split.
  - repeat split; intros Hs; apply orb_true_iff in Hs as [Hs|Hs];
      rewrite (empieza_app _ s t Hs); [reflexivity|apply orb_true_r|
      reflexivity|apply orb_true_r|reflexivity|apply orb_true_r].
Qed.

Lemma label_class_ignores_case_and_tail_witness :
  (es_venta "SELL btc" = es_venta "sell BTC"
   /\ es_fee "Fee" = es_fee "FEE"
   /\ es_compra "compra" = es_compra "COMPRA")
  /\ es_compra ("Compra" ++ " de BTC") = true.
Proof.
  split.
  - destruct (label_class_ignores_case_and_tail "SELL btc" "sell BTC" "") as [Hc _].
    destruct (label_class_ignores_case_and_tail "Fee" "FEE" "") as [Hf _].
    destruct (label_class_ignores_case_and_tail "compra" "COMPRA" "") as [Hb _].
    split; [apply Hc; reflexivity|]. split; [apply Hf; reflexivity|apply Hb; reflexivity].
  - apply (label_class_ignores_case_and_tail "Compra" "Compra" " de BTC"). reflexivity.
Defined.

(** X3. The keyword has to open the label, which is not trimmed: a label
    that starts with a space is in none of the three classes. *)
Theorem label_with_leading_space_unclassified (s : string) :
  es_compra (String " " s) = false
  /\ es_venta (String " " s) = false
  /\ es_fee (String " " s) = false.
Proof. repeat split. Qed.

End Etiquetas.

(** ** Further properties: the row loop, lines 110-167 *)

Section Bucle.
Context {A : Type} `{Numero A}.
Local Open Scope num_scope.

Lemma paso_inactiva (ignorar : gset string) (df : list (Row A)) (st : Estado A) (row : Row A) :
  activa ignorar row = false -> paso ignorar df st row = st.
Proof.
  destruct st as [inv filas]. unfold activa, paso. intros Ha.
  destruct (bool_decide (upper (cur row) ∈ ignorar)); [reflexivity|].
  cbn [negb andb] in Ha. apply orb_false_iff in Ha as [-> ->]. reflexivity.
Qed.

Lemma fold_activas (ignorar : gset string) (df rows : list (Row A)) :
  forall st : Estado A,
    fold_left (paso ignorar df) rows st
    = fold_left (paso ignorar df) (List.filter (activa ignorar) rows) st.
Proof.
  induction rows as [|row rows IH]; intros st; [reflexivity|].
  cbn [fold_left List.filter]. destruct (activa ignorar row) eqn:Ha.
  - cbn [fold_left]. apply IH.
  - rewrite paso_inactiva by exact Ha. apply IH.
Qed.

(** X4. Only the acquisition and disposal rows of tickers that are not
    ignored act on the inventory and on the records: the loop gives the same
    result when every other row is left out of the iteration (the frame the
    trade linkage reads staying whole).  In particular a fee row changes
    nothing when the loop reaches it. *)
Theorem only_active_rows_matter (ignorar : gset string) (df : list (Row A)) :
  (forall (rows : list (Row A)) (st : Estado A),
      fold_left (paso ignorar df) rows st
      = fold_left (paso ignorar df) (List.filter (activa ignorar) rows) st)
  /\ (forall (st : Estado A) (row : Row A),
         es_fee (tipo row) = true -> paso ignorar df st row = st).
Proof.
  split; [intros rows st; apply fold_activas|].
  intros st row Hfee. apply paso_inactiva. unfold activa.
  destruct (fee_excluye (tipo row) Hfee) as [-> ->]. apply andb_false_r.
Qed.

Lemma fold_paso_inv (P : Estado A -> Prop) (ignorar : gset string) (df rows : list (Row A)) :
  (forall st row, P st -> P (paso ignorar df st row)) ->
  forall st, P st -> P (fold_left (paso ignorar df) rows st).
Proof.
  intros Hstep. induction rows as [|row rows IH]; intros st Hst; [exact Hst|].
  cbn [fold_left]. apply IH, Hstep, Hst.
Qed.

(** X5. An ignored ticker leaves no trace: no record carries it and the
    inventory has no queue for it, at the end of the loop on any frame. *)
Theorem ignored_tickers_leave_no_trace (ignorar : gset string) (df : list (Row A)) :
  (forall f : Fila A, In f (snd (motor ignorar df)) -> cripto f ∉ ignorar)
  /\ (forall c : string, c ∈ ignorar -> fst (motor ignorar df) !! c = None).
Proof.
  unfold motor.
  apply (fold_paso_inv
           (fun st => (forall f : Fila A, In f (snd st) -> cripto f ∉ ignorar)
                      /\ (forall c : string, c ∈ ignorar -> fst st !! c = None))).
  - intros [inv filas] row [Hf Hc]. unfold paso.
    destruct (bool_decide (upper (cur row) ∈ ignorar)) eqn:Hi; [split; assumption|].
    apply bool_decide_eq_false in Hi. cbn [fst snd] in *.
    assert (Hne : forall c, c ∈ ignorar -> upper (cur row) <> c)
      by (intros c Hin Heq; apply Hi; rewrite Heq; exact Hin).
    destruct (es_compra (tipo row)).
    + cbn [fst snd]. split; [exact Hf|].
      intros c Hin. rewrite lookup_insert_ne by (apply Hne; exact Hin). apply Hc, Hin.
    + destruct (es_venta (tipo row)); [|split; assumption].
      cbn [fst snd]. split.
      * intros f Hin. apply in_app_or in Hin as [Hin|[<-|[]]]; [apply Hf, Hin|exact Hi].
      * intros c Hin. rewrite lookup_insert_ne by (apply Hne; exact Hin). apply Hc, Hin.
  - split; [intros f []|]. intros c _. apply lookup_empty.
Qed.

(** X6. First in, first out.  The consume loop takes a number of lots
    whole from the front of the queue, then at most one lot in part, and
    leaves every lot behind as it was and where it was.  The matched cost is
    the cost so far plus the full costs of the lots taken whole, in queue
    order, plus the share of the lot taken in part. *)
Theorem consume_takes_from_the_front (cola : list (Lot A)) :
  forall salida coste : A,
  exists k : nat,
    let pre := firstn k cola in
    let s := fold_left nsub (map lot_qty pre) salida in
    let c := fold_left nadd (map lot_coste pre) coste in
    consume cola salida coste = (s, c, skipn k cola)
    \/ exists lot : Lot A,
         nth_error cola k = Some lot
         /\ consume cola salida coste
            = (cero, c + lot_coste lot * (s / lot_qty lot),
               mkLot (lot_qty lot - s) (lot_coste lot * (uno - s / lot_qty lot))
                 :: skipn (S k) cola).
Proof.
  induction cola as [|lot resto IH]; intros salida coste.
  - exists 0%nat. left. reflexivity.
  - cbn [consume]. destruct (salida >? eps) eqn:Hg; [|exists 0%nat; left; reflexivity].
    destruct (lot_qty lot <=? salida + eps) eqn:Hw.
    + destruct (IH (salida - lot_qty lot) (coste + lot_coste lot)) as [k Hk].
      exists (S k). exact Hk.
    + exists 0%nat. right. exists lot. split; reflexivity.
Qed.

(** X7. Acquisitions queue up in the order of the frame: over rows that
    hold no disposal of an asset, the queue of the asset grows by the lots of
    its acquisition rows, in their order, at its end. *)
Theorem acquisitions_queue_in_order (ignorar : gset string) (df : list (Row A)) (asset : string)
    (rows : list (Row A)) :
  forall st : Estado A,
    (forall r, In r rows -> vendida ignorar r && del_activo asset r = false) ->
    lotes (fst (fold_left (paso ignorar df) rows st)) asset
    = lotes (fst st) asset
      ++ map lote_de (List.filter (fun r => comprada ignorar r && del_activo asset r) rows).
Proof.
  induction rows as [|row rows IH]; intros [inv filas] Hno.
  - cbn. rewrite app_nil_r. reflexivity.
  - cbn [fold_left]. rewrite IH by (intros r Hr; apply Hno; right; exact Hr).
    specialize (Hno row (or_introl eq_refl)).
    cbn [List.filter]. unfold paso, vendida, comprada, del_activo in *.
    destruct (bool_decide (upper (cur row) ∈ ignorar)); cbn [negb andb fst] in *;
      [reflexivity|].
    destruct (es_compra (tipo row)); cbn [negb andb fst] in *.
    + destruct (String.eqb_spec (upper (cur row)) asset) as [Heq|Hne].
      * rewrite Heq, lotes_insert_eq. cbn [map]. rewrite <- app_assoc. reflexivity.
      * rewrite lotes_insert_ne by exact Hne. reflexivity.
    + destruct (es_venta (tipo row)); cbn [andb fst] in *; [|reflexivity].
      destruct (String.eqb_spec (upper (cur row)) asset) as [Heq|Hne]; [discriminate|].
      rewrite lotes_insert_ne by exact Hne. reflexivity.
Qed.

End Bucle.

(** ** Further properties: one asset at a time, lines 106-107 and 110-167 *)

Section Activos.
Context {A : Type} `{Numero A}.
Local Open Scope num_scope.

(** The entry of the recorded run for a disposal [row] met with the queue
    [cola], when the linkage reads the frame [df]. *)
Local Abbreviation entrada df := (fun rc : Row A * list (Lot A) => (fst rc, locales df (snd rc) (fst rc))).

Local Abbreviation de a := (fun x : Row A * Locales A => String.eqb (upper (cur (fst x))) a).

(** One row of the asset: the same queue gives the same new queue and
    the same entry, whatever frame the linkage reads. *)
Lemma paso_traza_del_activo (ignorar : gset string) (dfA dfB : list (Row A)) (asset : string)
    (tA tB : Traza A) (row : Row A) :
  upper (cur row) = asset ->
  lotes (fst tA) asset = lotes (fst tB) asset ->
  exists news : list (Row A * list (Lot A)),
    List.filter (de asset) (snd (paso_traza ignorar dfA tA row))
    = List.filter (de asset) (snd tA) ++ map (entrada dfA) news
    /\ snd (paso_traza ignorar dfB tB row) = snd tB ++ map (entrada dfB) news
    /\ lotes (fst (paso_traza ignorar dfA tA row)) asset
       = lotes (fst (paso_traza ignorar dfB tB row)) asset.
Proof.
  destruct tA as [invA trA], tB as [invB trB]. cbn [fst snd]. intros Heq Hq.
  unfold paso_traza. rewrite Heq.
  destruct (bool_decide (asset ∈ ignorar)).
  { exists []. cbn [map fst snd]. rewrite !app_nil_r. auto. }
  destruct (es_compra (tipo row)).
  { exists []. cbn [map fst snd]. rewrite !app_nil_r, !lotes_insert_eq, Hq. auto. }
  destruct (es_venta (tipo row)).
  - exists [(row, lotes invB asset)]. cbn [map fst snd].
    rewrite !lotes_insert_eq, Hq, List.filter_app. cbn [List.filter fst].
    rewrite Heq, String.eqb_refl. auto.
  - exists []. cbn [map fst snd]. rewrite !app_nil_r. auto.
Qed.

(** One row of another asset: nothing of the asset changes. *)
Lemma paso_traza_de_otro (ignorar : gset string) (df : list (Row A)) (asset : string)
    (t : Traza A) (row : Row A) :
  upper (cur row) <> asset ->
  List.filter (de asset) (snd (paso_traza ignorar df t row)) = List.filter (de asset) (snd t)
  /\ lotes (fst (paso_traza ignorar df t row)) asset = lotes (fst t) asset.
Proof.
  destruct t as [inv tr]. cbn [fst snd]. intros Hne. unfold paso_traza.
  destruct (bool_decide (upper (cur row) ∈ ignorar)); [auto|].
  destruct (es_compra (tipo row)); [cbn [fst snd]; rewrite lotes_insert_ne by exact Hne; auto|].
  destruct (es_venta (tipo row)); [|auto].
  cbn [fst snd]. rewrite lotes_insert_ne by exact Hne. split; [|reflexivity].
  rewrite List.filter_app. cbn [List.filter fst].
  apply String.eqb_neq in Hne. rewrite Hne. apply app_nil_r.
Qed.

(** The loop on the rows of one asset, reading any frame, meets the same
    queues at the same disposal rows as the loop on all the rows. *)
Lemma fold_traza_activo (ignorar : gset string) (dfA dfB : list (Row A)) (asset : string)
    (rows : list (Row A)) :
  forall tA tB : Traza A,
    lotes (fst tA) asset = lotes (fst tB) asset ->
    exists colas : list (Row A * list (Lot A)),
      List.filter (de asset) (snd (fold_left (paso_traza ignorar dfA) rows tA))
      = List.filter (de asset) (snd tA) ++ map (entrada dfA) colas
      /\ snd (fold_left (paso_traza ignorar dfB) (List.filter (del_activo asset) rows) tB)
         = snd tB ++ map (entrada dfB) colas
      /\ lotes (fst (fold_left (paso_traza ignorar dfA) rows tA)) asset
         = lotes (fst (fold_left (paso_traza ignorar dfB)
                         (List.filter (del_activo asset) rows) tB)) asset.
Proof.
  induction rows as [|row rows IH]; intros tA tB Hq.
  - exists []. cbn. rewrite !app_nil_r. auto.
  - cbn [fold_left List.filter]. destruct (del_activo asset row) eqn:Hd.
    + assert (Heq : upper (cur row) = asset) by (apply String.eqb_eq; exact Hd).
      cbn [fold_left].
      destruct (paso_traza_del_activo ignorar dfA dfB asset tA tB row Heq Hq)
        as (news & HA1 & HB1 & Hq1).
      destruct (IH _ _ Hq1) as (colas & HA & HB & Hl).
      exists (news ++ colas). rewrite HA, HB, HA1, HB1, !map_app, <- !app_assoc.
      auto.
    + assert (Hne : upper (cur row) <> asset) by (apply String.eqb_neq; exact Hd).
      destruct (paso_traza_de_otro ignorar dfA asset tA row Hne) as [HA1 Hq1].
      destruct (IH (paso_traza ignorar dfA tA row) tB) as (colas & HA & HB & Hl);
        [rewrite Hq1; exact Hq|].
      exists colas. rewrite HA, HA1. auto.
Qed.

Lemma filter_cripto_fila (df : list (Row A)) (asset : string) (tr : list (Row A * Locales A)) :
  List.filter (fun f => String.eqb (cripto f) asset) (map (fun x => fila df (fst x) (snd x)) tr)
  = map (fun x => fila df (fst x) (snd x)) (List.filter (de asset) tr).
Proof.
  induction tr as [|[row l] tr IH]; [reflexivity|].
  cbn [map List.filter fst snd cripto fila].
  destruct (String.eqb (upper (cur row)) asset); cbn [map fst snd]; rewrite IH; reflexivity.
Qed.

(** X8. Assets are independent.  The queue of an asset and the records of
    its disposals at the end of the loop are those of the loop on the rows
    of that asset alone (the frame the trade linkage reads staying
    whole). *)
Theorem assets_are_independent (ignorar : gset string) (df : list (Row A)) (asset : string) :
  lotes (fst (motor ignorar df)) asset
  = lotes (fst (fold_left (paso ignorar df) (List.filter (del_activo asset) df) (∅, []))) asset
  /\ List.filter (fun f => String.eqb (cripto f) asset) (snd (motor ignorar df))
     = snd (fold_left (paso ignorar df) (List.filter (del_activo asset) df) (∅, [])).
Proof.
  destruct (fold_traza_activo ignorar df df asset df ((∅, []) : Traza A) ((∅, []) : Traza A)
              eq_refl) as (colas & HA & HB & Hl).
  cbn [snd List.filter app] in HA, HB.
  pose proof (fold_registra ignorar df (List.filter (del_activo asset) df)
                ((∅, []) : Traza A)) as Hr.
  change (registra df ((∅, []) : Traza A)) with ((∅, []) : Estado A) in Hr.
  rewrite Hr, motor_registra. unfold motor_traza, registra. cbn [fst snd].
  split; [exact Hl|].
  rewrite filter_cripto_fila, HA, HB. reflexivity.
Qed.

(** X9. The single-asset filter changes the fee, the gain and the class
    of a record and nothing else: with a filter on a ticker, the records
    are, in date, asset, quantity, value received and matched cost, the
    records that the run without the filter gives for that ticker. *)
Theorem filter_keeps_matching (ignorar : gset string) (s : string) (df : list (Row A)) :
  s <> ""%string ->
  map nucleo (fst (fifo_ct ignorar (Some s) df))
  = map nucleo (List.filter (fun f => String.eqb (cripto f) (upper s))
                  (fst (fifo_ct ignorar None df))).
Proof.
  intros Hs. rewrite !detalle_de_traza, filter_cripto_fila.
  assert (Hm : marco (Some s) df = List.filter (del_activo (upper s)) (marco None df)).
  { unfold marco. destruct s; [congruence|]. reflexivity. }
  destruct (fold_traza_activo ignorar (marco None df) (marco (Some s) df) (upper s)
              (marco None df) ((∅, []) : Traza A) ((∅, []) : Traza A) eq_refl)
    as (colas & HA & HB & _).
  cbn [snd List.filter app] in HA, HB.
  unfold motor_traza. rewrite Hm at 2. rewrite HA, HB, !map_map. reflexivity.
Qed.

(** X10. With a filter on a ticker, every record is of that ticker, and
    unless the ticker is EUR itself every record is classed N: the rows
    that could make a disposal fiat are no longer in the frame. *)
Theorem filter_hides_the_counter_asset (ignorar : gset string) (s : string)
    (df : list (Row A)) (f : Fila A) :
  s <> ""%string ->
  In f (fst (fifo_ct ignorar (Some s) df)) ->
  cripto f = upper s /\ (upper s <> "EUR"%string -> clave f = N).
Proof.
  intros Hs Hin.
  assert (Hm : marco (Some s) df = List.filter (del_activo (upper s)) (sort_values df)).
  { unfold marco. destruct s; [congruence|]. reflexivity. }
  assert (Hin' : In (en_la_fila f) (map en_la_fila (fst (fifo_ct ignorar (Some s) df))))
    by (apply in_map; exact Hin).
  rewrite detalle_ventas in Hin'. apply in_map_iff in Hin' as (row & Hrow & Hv).
  unfold de_la_fila, en_la_fila in Hrow.
  assert (Hc : cripto f = upper (cur row)) by congruence.
  assert (Hk : clave f = clave_de (marco (Some s) df) row) by congruence.
  unfold ventas in Hv. apply filter_In in Hv as [Hv _].
  assert (Hall : forall r, In r (marco (Some s) df) -> upper (cur r) = upper s).
  { intros r Hr. rewrite Hm in Hr. apply filter_In in Hr as [_ Hr].
    apply String.eqb_eq. exact Hr. }
  split; [rewrite Hc; apply Hall; exact Hv|].
  intros Hne. rewrite Hk. unfold clave_de. rewrite existsb_nada; [reflexivity|].
  intros r Hr. rewrite (Hall r Hr).
  apply String.eqb_neq in Hne. rewrite Hne. apply andb_false_r.
Qed.

End Activos.

(** ** Further properties: the summary, lines 169-183 *)

Section FilasDelResumen.
Context {A : Type} `{Numero A}.

(** X11. The summary has exactly one row for each (ticker, class) pair
    that occurs among the records, the rows in ascending order of ticker and,
    within a ticker, F before N; it is empty exactly when there is no
    record. *)
Theorem summary_groups (detalle : list (Fila A)) :
  StronglySorted grupo_lt (map grupo_resumen (resumen detalle))
  /\ List.NoDup (map grupo_resumen (resumen detalle))
  /\ (forall k : string * Clave,
         In k (map grupo_resumen (resumen detalle))
         <-> exists f, In f detalle /\ grupo_de f = k)
  /\ (resumen detalle = [] <-> detalle = []).
Proof.
  rewrite grupos_resumen.
  split; [apply grupos_sorted|].
  split; [apply sorted_NoDup, grupos_sorted|].
  split; [apply grupos_In|].
  split.
  - intros Hr. destruct detalle as [|f detalle]; [reflexivity|].
    assert (Hin : In (grupo_de f) (grupos (f :: detalle)))
      by (apply grupos_In; exists f; split; [left|]; reflexivity).
    rewrite <- grupos_resumen, Hr in Hin. destruct Hin.
  - intros ->. reflexivity.
Qed.

End FilasDelResumen.

Section TotalesExactos.
Import Exacto.
Local Open Scope Q_scope.

Lemma suma_q_ext {X : Type} (h h' : X -> Q) (l : list X) :
  (forall x, In x l -> h x == h' x) -> suma_q (map h l) == suma_q (map h' l).
Proof.
  induction l as [|x l IH]; intros Hh; [reflexivity|].
  cbn [map]. rewrite !suma_q_cons, (Hh x (or_introl eq_refl)).
  rewrite IH; [reflexivity|]. intros y Hy. apply Hh. right. exact Hy.
Qed.

Lemma suma_q_mas {X : Type} (h1 h2 : X -> Q) (l : list X) :
  suma_q (map (fun x => h1 x + h2 x) l) == suma_q (map h1 l) + suma_q (map h2 l).
Proof.
  induction l as [|x l IH]; [reflexivity|].
  cbn [map]. rewrite !suma_q_cons, IH. ring.
Qed.

Lemma suma_q_ceros {X : Type} (l : list X) : suma_q (map (fun _ => 0) l) == 0.
Proof.
  induction l as [|x l IH]; [reflexivity|]. cbn [map]. rewrite suma_q_cons, IH. ring.
Qed.

(** A value counted for the one group it belongs to. *)
Lemma suma_q_un_grupo (k0 : string * Clave) (x : Q) (ks : list (string * Clave)) :
  List.NoDup ks ->
  suma_q (map (fun k => if grupo_eqb k0 k then x else 0) ks)
  == if existsb (grupo_eqb k0) ks then x else 0.
Proof.
  induction 1 as [|k ks Hk Hnd IH]; [reflexivity|].
  cbn [map existsb]. rewrite suma_q_cons, IH.
  destruct (grupo_eqb k0 k) eqn:He; cbn [orb]; [|ring].
  apply grupo_eqb_eq in He. subst k.
  rewrite existsb_nada; [ring|].
  intros k Hin. destruct (grupo_eqb k0 k) eqn:He; [|reflexivity].
  apply grupo_eqb_eq in He. subst. contradiction.
Qed.

Lemma suma_por_grupos (g : Fila Q -> Q) (ks : list (string * Clave)) (detalle : list (Fila Q)) :
  List.NoDup ks ->
  (forall f, In f detalle -> In (grupo_de f) ks) ->
  suma_q (map (fun k => suma_q (map g (del_grupo k detalle))) ks) == suma_q (map g detalle).
Proof.
  intros Hnd. induction detalle as [|f detalle IH]; intros Hin.
  - cbn [del_grupo List.filter map]. apply suma_q_ceros.
  - rewrite (suma_q_ext _ (fun k => (if grupo_eqb (grupo_de f) k then g f else 0)
                                   + suma_q (map g (del_grupo k detalle)))).
    + rewrite suma_q_mas, IH by (intros f' Hf'; apply Hin; right; exact Hf').
      rewrite suma_q_un_grupo by exact Hnd.
      assert (He : existsb (grupo_eqb (grupo_de f)) ks = true).
      { apply existsb_exists. exists (grupo_de f). split; [apply Hin; left; reflexivity|].
        apply grupo_eqb_eq. reflexivity. }
      rewrite He. cbn [map]. rewrite suma_q_cons. reflexivity.
    + intros k _. unfold del_grupo. cbn [List.filter].
      destruct (grupo_eqb (grupo_de f) k); cbn [map]; rewrite ?suma_q_cons; ring.
Qed.

(** X12. In exact arithmetic the summary loses nothing: for each of the
    four monetary fields, the field added up over the summary rows is the
    field added up over the records. *)
Theorem summary_totals (detalle : list (Fila Q)) :
  suma_q (map r_valor_transm (resumen detalle)) == suma_q (map valor_transm detalle)
  /\ suma_q (map r_coste_fifo (resumen detalle)) == suma_q (map coste_fifo detalle)
  /\ suma_q (map r_gastos (resumen detalle)) == suma_q (map gastos detalle)
  /\ suma_q (map r_ganancia (resumen detalle)) == suma_q (map ganancia detalle).
Proof.
  assert (Hnd : List.NoDup (grupos detalle)) by apply sorted_NoDup, grupos_sorted.
  assert (Hin : forall f, In f detalle -> In (grupo_de f) (grupos detalle))
    by (intros f Hf; apply grupos_In; exists f; auto).
  unfold resumen. rewrite !map_map. cbn [r_valor_transm r_coste_fifo r_gastos r_ganancia].
  repeat split; apply (suma_por_grupos _ _ _ Hnd Hin).
Qed.

End TotalesExactos.

(** ** Further properties: the order of the records, lines 103 and 113 *)

Section OrdenDeRegistros.
Context {A : Type} `{Numero A}.

Lemma filter_strongly_sorted {X : Type} (R : X -> X -> Prop) (p : X -> bool) (l : list X) :
  StronglySorted R l -> StronglySorted R (List.filter p l).
Proof.
  induction 1 as [|x l Hs IH Hall]; cbn [List.filter]; [constructor|].
  destruct (p x); [|exact IH]. constructor; [exact IH|].
  rewrite List.Forall_forall in *. intros y Hy. apply filter_In in Hy as [Hy _]. apply Hall, Hy.
Qed.

Lemma antes_trans (a b c : Row A) : antes a b -> antes b c -> antes a c.
Proof. unfold antes. lia. Qed.

Lemma marco_sorted (solo_crypto : option string) (df : list (Row A)) :
  StronglySorted antes (marco solo_crypto df).
Proof.
  assert (Hs : StronglySorted antes (sort_values df)).
  { apply Sorted_StronglySorted; [|apply sort_values_sorted].
    intros a b c. apply antes_trans. }
  unfold marco. destruct (solo solo_crypto); [apply filter_strongly_sorted|]; exact Hs.
Qed.

Lemma dia_mono (a b : Z) : (a <= b)%Z -> (dia a <= dia b)%Z.
Proof. intros Hab. unfold dia. apply Z.div_le_mono; lia. Qed.

(** X13. The records come out in date order: their dates never
    decrease down the detail table, whatever the order of the rows
    supplied. *)
Theorem records_in_date_order (ignorar : gset string) (solo_crypto : option string)
    (df : list (Row A)) :
  StronglySorted Z.le (map fecha (fst (fifo_ct ignorar solo_crypto df))).
Proof.
  pose proof (detalle_ventas ignorar solo_crypto df) as Hd.
  apply (f_equal (map (fun x : Z * string * A * A * A * Clave =>
                         fst (fst (fst (fst (fst x))))))) in Hd.
  rewrite !map_map in Hd.
  assert (Hd' : map fecha (fst (fifo_ct ignorar solo_crypto df))
                = map (fun r => dia (date r)) (ventas ignorar (marco solo_crypto df)))
    by exact Hd.
  rewrite Hd'. clear Hd Hd'.
  assert (Hs : StronglySorted antes (ventas ignorar (marco solo_crypto df)))
    by (apply filter_strongly_sorted, marco_sorted).
  induction Hs as [|r l Hs IH Hall]; cbn [map]; constructor; [exact IH|].
  apply Forall_map. eapply Forall_impl; [exact Hall|].
  intros x Hx. apply dia_mono. exact Hx.
Qed.

End OrdenDeRegistros.

(** ** Further properties: what a disposal takes, in exact arithmetic *)

Section CuentaExacta.
Import Exacto.
Local Open Scope Q_scope.

(** X14. In exact arithmetic the consume loop accounts for what it takes.
    The quantity in the queue goes down by exactly the part of the need
    that was matched, and the cost in the queue by exactly the cost matched.
    When the loop ends with lots left, the need left unmatched is at most
    1e-12.  With lots of positive quantity, a need is over-matched by at
    most 1e-12. *)
Theorem consume_accounts (cola : list (Lot Q)) :
  forall salida coste : Q,
    let s' := fst (fst (consume cola salida coste)) in
    let c' := snd (fst (consume cola salida coste)) in
    let cola' := snd (consume cola salida coste) in
    suma_q (map lot_qty cola) - suma_q (map lot_qty cola') == salida - s'
    /\ suma_q (map lot_coste cola) - suma_q (map lot_coste cola') == c' - coste
    /\ (cola' = [] \/ s' <= eps)
    /\ (Forall positivo cola -> - eps <= salida -> - eps <= s').
Proof.
  induction cola as [|lot resto IH]; intros salida coste.
  - cbn. split; [lra|]. split; [lra|]. split; [left; reflexivity|]. intros _ Hs. exact Hs.
  - cbn zeta in *. cbn [consume].
    destruct (ngt salida eps) eqn:Hg.
    + destruct (nle (lot_qty lot) (nadd salida eps)) eqn:Hw.
      * destruct (IH (nsub salida (lot_qty lot)) (nadd coste (lot_coste lot)))
          as (Hq & Hc & Hend & Hlow).
        apply nle_Q in Hw. numQ. cbn [map]. rewrite !suma_q_cons.
        split; [lra|]. split; [lra|]. split; [exact Hend|].
        intros Hpos _. inversion Hpos; subst. apply Hlow; [assumption|lra].
      * apply ngt_Q in Hg. apply nle_Q_false in Hw. numQ.
        cbn [fst snd map lot_qty lot_coste]. rewrite !suma_q_cons.
        pose proof eps_Q_pos as He.
        split; [lra|]. split; [set (p := salida / lot_qty lot); ring|].
        split; [right; lra|]. intros _ _. lra.
    + apply ngt_Q_false in Hg. cbn [fst snd].
      split; [lra|]. split; [lra|]. split; [right; exact Hg|]. intros _ Hs. exact Hs.
Qed.

End CuentaExacta.

(** ** Further properties: the fiscal year and the values, lines 94-102 *)

Section AnioFiscal.
Context {A : Type} `{Numero A}.
Variable anio : Z -> Z.
Variable float_de : string -> option A.
Local Open Scope num_scope.

Lemma filtra_anio_In (year : Z) (crudo : list (Crudo A)) (d : Z) (c : Crudo A) :
  In (d, c) (filtra_anio anio year crudo)
  <-> In c crudo /\ c_date c = Some d /\ anio d = year.
Proof.
  induction crudo as [|c0 crudo IH]; cbn [filtra_anio In]; [tauto|].
  destruct (c_date c0) as [d0|] eqn:Hd.
  - destruct (anio d0 =? year)%Z eqn:Hy.
    + apply Z.eqb_eq in Hy. cbn [In]. rewrite IH. split.
      * intros [[= <- <-]|(Hc & Hdc & Hyc)]; auto.
      * intros ([<-|Hc] & Hdc & Hyc); [left; congruence|right; auto].
    + apply Z.eqb_neq in Hy. rewrite IH. split.
      * intros (Hc & Hdc & Hyc); auto.
      * intros ([<-|Hc] & Hdc & Hyc); [congruence|auto].
  - rewrite IH. split.
    + intros (Hc & Hdc & Hyc); auto.
    + intros ([<-|Hc] & Hdc & Hyc); [congruence|auto].
Qed.

Lemma limpia_filas_In (l : list (Z * Crudo A)) (rows : list (Row A)) (r : Row A) :
  limpia_filas float_de l = Some rows ->
  In r rows ->
  exists c, In (date r, c) l /\ tipo r = c_tipo c /\ cur r = c_cur c
            /\ amount r = c_amount c /\ trade_id r = c_trade_id c
            /\ limpia_eur float_de (c_eur c) = Some (eur r).
Proof.
  revert rows. induction l as [|[d c] l IH]; intros rows Hl Hin; cbn [limpia_filas] in Hl.
  - injection Hl as <-. destruct Hin.
  - destruct (limpia_eur float_de (c_eur c)) as [x|] eqn:Hx; [|discriminate].
    destruct (limpia_filas float_de l) as [rows'|]; [|discriminate].
    injection Hl as <-. destruct Hin as [<-|Hin].
    + exists c. cbn. repeat split; auto.
    + destruct (IH rows' eq_refl Hin) as (c' & Hc' & Hrest).
      exists c'. split; [right; exact Hc'|exact Hrest].
Qed.

(** The rows the loop is given come from rows of the year. *)
Lemma fila_del_anio (year : Z) (crudo : list (Crudo A)) (rows : list (Row A)) (r : Row A) :
  limpia_filas float_de (filtra_anio anio year crudo) = Some rows ->
  In r rows ->
  exists c, In c crudo /\ c_date c = Some (date r) /\ anio (date r) = year
            /\ tipo r = c_tipo c /\ cur r = c_cur c /\ amount r = c_amount c.
Proof.
  intros Hl Hin.
  destruct (limpia_filas_In _ rows r Hl Hin) as (c & Hc & Ht & Hcur & Ham & _).
  apply filtra_anio_In in Hc as (Hc & Hd & Hy).
  exists c. auto 7.
Qed.

(** X15. Only the rows of the fiscal year are processed.  Every record
    comes from a disposal row whose date could be read and falls in the
    year asked for; rows of other years and rows with an unreadable date
    give no record. *)
Theorem records_are_of_the_year (year : Z) (ignorar : gset string)
    (solo_crypto : option string) (crudo : list (Crudo A))
    (detalle : list (Fila A)) (resumen : list (Resumen A)) (f : Fila A) :
  fifo_ct_anual anio float_de year ignorar solo_crypto crudo = Some (detalle, resumen) ->
  In f detalle ->
  exists (c : Crudo A) (d : Z),
    In c crudo /\ c_date c = Some d /\ anio d = year
    /\ es_venta (c_tipo c) = true
    /\ fecha f = dia d /\ cripto f = upper (c_cur c) /\ qty f = - c_amount c.
Proof.
  unfold fifo_ct_anual. intros Hrun Hin.
  destruct (limpia_filas float_de (filtra_anio anio year crudo)) as [rows|] eqn:Hl;
    [|discriminate].
  cbn [option_map] in Hrun. injection Hrun as Hd _.
  assert (Hin' : In (en_la_fila f) (map en_la_fila (fst (fifo_ct ignorar solo_crypto rows))))
    by (apply in_map; unfold fifo_ct; cbn [fst]; rewrite Hd; exact Hin).
  rewrite detalle_ventas in Hin'. apply in_map_iff in Hin' as (row & Hrow & Hv).
  unfold de_la_fila, en_la_fila in Hrow.
  unfold ventas in Hv. apply filter_In in Hv as [Hv Hvend].
  apply marco_In in Hv.
  destruct (fila_del_anio year crudo rows row Hl Hv) as (c & Hc & Hdc & Hy & Ht & Hcur & Ham).
  exists c, (date row). rewrite <- Ht, <- Hcur, <- Ham.
  unfold vendida in Hvend. apply andb_true_iff in Hvend as [_ Hventa].
  repeat split; try assumption; congruence.
Qed.

(** An asset with no acquisition row among the rows of the loop: its
    queue stays empty and its disposals are matched at cost 0.0. *)
Lemma fold_sin_compras (ignorar : gset string) (df : list (Row A)) (asset : string)
    (rows : list (Row A)) :
  forall t : Traza A,
    (forall r, In r rows -> es_compra (tipo r) && del_activo asset r = false) ->
    lotes (fst t) asset = [] ->
    Forall (fun x => upper (cur (fst x)) = asset -> l_coste_fifo (snd x) = cero) (snd t) ->
    Forall (fun x => upper (cur (fst x)) = asset -> l_coste_fifo (snd x) = cero)
           (snd (fold_left (paso_traza ignorar df) rows t)).
Proof.
  induction rows as [|row rows IH]; intros [inv tr] Hno Hq Htr; [exact Htr|].
  cbn [fold_left].
  assert (Hrow := Hno row (or_introl eq_refl)).
  assert (Hno' : forall r, In r rows -> es_compra (tipo r) && del_activo asset r = false)
    by (intros r Hr; apply Hno; right; exact Hr).
  cbn [fst snd] in *. unfold paso_traza, del_activo in *.
  destruct (bool_decide (upper (cur row) ∈ ignorar)); [apply IH; assumption|].
  destruct (es_compra (tipo row)).
  - cbn [andb] in Hrow. apply String.eqb_neq in Hrow.
    apply IH; [assumption| |assumption].
    cbn [fst]. rewrite lotes_insert_ne by exact Hrow. exact Hq.
  - destruct (es_venta (tipo row)); [|apply IH; assumption].
    destruct (String.eqb_spec (upper (cur row)) asset) as [Heq|Hne].
    + apply IH; [assumption| |].
      * cbn [fst]. rewrite Heq, lotes_insert_eq, Hq. reflexivity.
      * cbn [snd]. apply Forall_app. split; [exact Htr|].
        constructor; [|constructor]. intros _. cbn [snd fst locales l_coste_fifo].
        rewrite Heq, Hq. reflexivity.
    + apply IH; [assumption| |].
      * cbn [fst]. rewrite lotes_insert_ne by exact Hne. exact Hq.
      * cbn [snd]. apply Forall_app. split; [exact Htr|].
        constructor; [|constructor]. cbn [fst]. intros Heq. contradiction.
Qed.

(** X16. The inventory starts empty in the fiscal year: what was acquired
    in another year is not there to be matched.  When an asset has no
    acquisition row dated in the year, every disposal of it in the year is
    recorded with the matched cost of nothing, [round(0.0, 2)]. *)
Theorem acquisitions_of_other_years_are_lost (year : Z) (ignorar : gset string)
    (solo_crypto : option string) (crudo : list (Crudo A)) (asset : string)
    (detalle : list (Fila A)) (resumen : list (Resumen A)) (f : Fila A) :
  (forall c, In c crudo -> es_compra (c_tipo c) = true -> upper (c_cur c) = asset ->
             del_anio anio year c = false) ->
  fifo_ct_anual anio float_de year ignorar solo_crypto crudo = Some (detalle, resumen) ->
  In f detalle ->
  cripto f = asset ->
  coste_fifo f = round2 cero.
Proof.
  unfold fifo_ct_anual. intros Hno Hrun Hin Hf.
  destruct (limpia_filas float_de (filtra_anio anio year crudo)) as [rows|] eqn:Hl;
    [|discriminate].
  cbn [option_map] in Hrun. injection Hrun as Hd _.
  set (df := marco solo_crypto rows) in *.
  assert (Htr : Forall (fun x => upper (cur (fst x)) = asset -> l_coste_fifo (snd x) = cero)
                       (snd (motor_traza ignorar df))).
  { unfold motor_traza. apply fold_sin_compras.
    - intros r Hr. destruct (es_compra (tipo r)) eqn:Hc; [|reflexivity].
      unfold del_activo. destruct (String.eqb_spec (upper (cur r)) asset) as [Heq|]; [|reflexivity].
      apply marco_In in Hr.
      destruct (fila_del_anio year crudo rows r Hl Hr) as (c & Hc0 & Hdc & Hy & Ht & Hcur & _).
      specialize (Hno c Hc0). rewrite <- Ht, <- Hcur in Hno. specialize (Hno Hc Heq).
      unfold del_anio in Hno. rewrite Hdc, Hy, Z.eqb_refl in Hno. discriminate.
    - unfold lotes. cbn [fst]. rewrite lookup_empty. reflexivity.
    - constructor. }
  assert (Hin' : In f (fst (fifo_ct ignorar solo_crypto rows)))
    by (unfold fifo_ct; cbn [fst]; fold df; rewrite Hd; exact Hin).
  rewrite detalle_de_traza in Hin'. fold df in Hin'.
  apply in_map_iff in Hin' as ([row l] & <- & Hx).
  rewrite List.Forall_forall in Htr. specialize (Htr _ Hx). cbn [fst snd] in *.
  cbn [fila cripto coste_fifo] in *. rewrite (Htr Hf). reflexivity.
Qed.

Lemma limpia_filas_None (l : list (Z * Crudo A)) :
  limpia_filas float_de l = None
  <-> exists d c, In (d, c) l /\ limpia_eur float_de (c_eur c) = None.
Proof.
  induction l as [|[d0 c0] l IH]; cbn [limpia_filas In].
  - split; [discriminate|]. intros (d & c & [] & _).
  - destruct (limpia_eur float_de (c_eur c0)) as [x|] eqn:Hx.
    + destruct (limpia_filas float_de l) as [rows|].
      * split; [discriminate|]. intros (d & c & [[= <- <-]|Hin] & Hn); [congruence|].
        exfalso. assert (Hf : Some rows = None) by (apply IH; eauto). discriminate.
      * split; [intros _|reflexivity].
        destruct (proj1 IH eq_refl) as (d & c & Hin & Hn). eauto 6.
    + split; [intros _|reflexivity]. exists d0, c0. auto.
Qed.

Lemma filtra_anio_app (year : Z) (l1 l2 : list (Crudo A)) :
  filtra_anio anio year (l1 ++ l2) = filtra_anio anio year l1 ++ filtra_anio anio year l2.
Proof.
  induction l1 as [|c l1 IH]; [reflexivity|].
  cbn [app filtra_anio]. destruct (c_date c) as [d|]; [|exact IH].
  destruct (anio d =? year)%Z; [cbn [app]; rewrite IH; reflexivity|exact IH].
Qed.

(** X24. The cleaning of the values (lines 96-102) fails exactly when the
    value of some row of the fiscal year cannot be read, whatever the label
    and the ticker of that row, even one the loop would pass over, and the
    run then ends with that error; a row of another year, or whose date
    cannot be read, is never looked at: the run ends the same way, with the
    same result, when the row is left out. *)
Theorem unreadable_value_stops_the_run (year : Z) (ignorar : gset string)
    (solo_crypto : option string) (crudo : list (Crudo A)) :
  (limpia_filas float_de (filtra_anio anio year crudo) = None
   <-> exists c, In c crudo /\ del_anio anio year c = true
                 /\ limpia_eur float_de (c_eur c) = None)
  /\ (limpia_filas float_de (filtra_anio anio year crudo) = None ->
      fifo_ct_anual anio float_de year ignorar solo_crypto crudo = None)
  /\ (forall (pre post : list (Crudo A)) (c : Crudo A),
         crudo = pre ++ c :: post -> del_anio anio year c = false ->
         fifo_ct_anual anio float_de year ignorar solo_crypto crudo
         = fifo_ct_anual anio float_de year ignorar solo_crypto (pre ++ post)).
Proof.
  split; [|split].
  - rewrite limpia_filas_None. split.
    + intros (d & c & Hin & Hx). apply filtra_anio_In in Hin as (Hc & Hd & Hy).
      exists c. unfold del_anio. rewrite Hd, Hy, Z.eqb_refl. auto.
    + intros (c & Hc & Hy & Hx).
      unfold del_anio in Hy. destruct (c_date c) as [d|] eqn:Hd; [|discriminate].
      apply Z.eqb_eq in Hy. exists d, c. split; [apply filtra_anio_In; auto|exact Hx].
  - intros Hn. unfold fifo_ct_anual. rewrite Hn. reflexivity.
  - intros pre post c -> Hc. unfold fifo_ct_anual.
    rewrite !filtra_anio_app. cbn [filtra_anio].
    unfold del_anio in Hc. destruct (c_date c) as [d|]; [|reflexivity].
    rewrite Hc. reflexivity.
Qed.

Lemma sin_comas_app (s t : string) : sin_comas (s ++ t) = (sin_comas s ++ sin_comas t)%string.
Proof.
  induction s as [|c s IH]; [reflexivity|].
  change (String c s ++ t)%string with (String c (s ++ t)). cbn [sin_comas].
  destruct (Ascii.eqb c ","); rewrite IH; reflexivity.
Qed.

(** X25. Commas in a value are dropped wherever they are, so a comma
    never counts as a decimal mark: a cell reads the same with a comma put
    between any two of its characters, "12,5" as "125". *)
Theorem commas_are_dropped (s t : string) :
  (s ++ t)%string <> "-"%string ->
  limpia_eur float_de (Texto (s ++ "," ++ t)) = limpia_eur float_de (Texto (s ++ t)).
Proof.
  intros Hne. unfold limpia_eur.
  assert (H1 : String.eqb (s ++ "," ++ t) "-" = false).
  { apply String.eqb_neq. destruct s as [|a [|b s]]; cbn; intros [=]. }
  apply String.eqb_neq in Hne. rewrite H1, Hne, !sin_comas_app. reflexivity.
Qed.

End AnioFiscal.

(** ** Further properties: the headers, lines 26-60 *)

Section NormalizaCols.
Variable limpia : string -> string.

(** Restricting the dictionary to the headers present changes nothing for
    a header that is present. *)
Lemma busca_presentes (cols : list string) (c : string) (d : list (string * string)) :
  In c cols ->
  busca c (List.filter (fun kv => existsb (String.eqb (fst kv)) cols) d) = busca c d.
Proof.
  intros Hc. induction d as [|[k v] d IH]; [reflexivity|].
  cbn [List.filter fst busca].
  destruct (existsb (String.eqb k) cols) eqn:He.
  - cbn [busca]. rewrite IH. reflexivity.
  - rewrite IH. destruct (String.eqb_spec c k) as [->|]; [|reflexivity].
    assert (Hk : existsb (String.eqb k) cols = true)
      by (apply existsb_exists; exists k; split; [exact Hc|apply String.eqb_refl]).
    congruence.
Qed.

Lemma rename_presentes (cols : list string) :
  rename (presentes cols) cols = map renombra cols.
Proof.
  unfold rename, presentes, renombra. apply map_ext_in. intros c Hc.
  rewrite busca_presentes by exact Hc. reflexivity.
Qed.

Lemma normaliza_cols_eq (cols : list string) :
  normaliza_cols limpia cols
  = match List.filter (fun c => negb (existsb (String.eqb c) (canonicas limpia cols))) requeridas with
    | [] => inl (canonicas limpia cols)
    | faltan => inr faltan
    end.
Proof.
  unfold normaliza_cols, canonicas. rewrite rename_presentes, map_map. reflexivity.
Qed.

Lemma falta_In (cols : list string) (c : string) :
  In c (List.filter (fun c => negb (existsb (String.eqb c) cols)) requeridas)
  <-> In c requeridas /\ ~ In c cols.
Proof.
  rewrite filter_In, negb_true_iff. split; intros [Hr Hn]; split; try exact Hr.
  - intros Hin.
    assert (He : existsb (String.eqb c) cols = true)
      by (apply existsb_exists; exists c; split; [exact Hin|apply String.eqb_refl]).
    congruence.
  - apply existsb_nada. intros x Hx.
    destruct (String.eqb_spec c x) as [->|]; [contradiction|reflexivity].
Qed.

(** The frame is returned exactly when every canonical name is there. *)
Lemma normaliza_cols_inl (cols cols' : list string) :
  normaliza_cols limpia cols = inl cols'
  <-> cols' = canonicas limpia cols /\ forall c, In c requeridas -> In c cols'.
Proof.
  rewrite normaliza_cols_eq.
  pose proof (falta_In (canonicas limpia cols)) as Hf.
  destruct (List.filter (fun c => negb (existsb (String.eqb c) (canonicas limpia cols)))
              requeridas) as [|c0 faltan0].
  - split.
    + intros [= <-]. split; [reflexivity|].
      intros c Hc. destruct (in_dec string_dec c (canonicas limpia cols)) as [Hin|Hn]; [exact Hin|].
      destruct (proj2 (Hf c) (conj Hc Hn)).
    + intros [-> _]. reflexivity.
  - split; [intros [=]|]. intros [-> Hall]. exfalso.
    destruct (proj1 (Hf c0) (or_introl eq_refl)) as [Hr Hn]. exact (Hn (Hall c0 Hr)).
Qed.

(** X17. What [normaliza_cols] accepts.  It returns a frame exactly when
    each of the six canonical names is the canonical name of some header;
    the frame then has, column by column, the canonical names of the
    headers it was given, hence as many columns in the same order.
    Otherwise it stops, reporting exactly the canonical names that no
    header gives. *)
Theorem normaliza_cols_result (cols : list string) :
  (forall cols', normaliza_cols limpia cols = inl cols' ->
      cols' = canonicas limpia cols /\ forall c, In c requeridas -> In c cols')
  /\ (forall faltan, normaliza_cols limpia cols = inr faltan ->
         faltan <> []
         /\ forall c, In c faltan <-> In c requeridas /\ ~ In c (canonicas limpia cols))
  /\ ((forall c, In c requeridas -> In c (canonicas limpia cols)) ->
      normaliza_cols limpia cols = inl (canonicas limpia cols)).
Proof.
  split; [intros cols'; apply normaliza_cols_inl|].
  split; [|intros Hall; apply normaliza_cols_inl; split; [reflexivity|exact Hall]].
  intros faltan. rewrite normaliza_cols_eq.
  pose proof (falta_In (canonicas limpia cols)) as Hf.
  destruct (List.filter (fun c => negb (existsb (String.eqb c) (canonicas limpia cols)))
              requeridas) as [|c0 faltan0]; [intros [=]|].
  intros [= <-]. split; [discriminate|exact Hf].
Qed.

Lemma renombra_idem (c : string) : renombra (renombra c) = renombra c.
Proof.
  unfold renombra at 2 3. unfold rename_map. cbn [busca].
  repeat match goal with
         | |- context [String.eqb c ?k] =>
             destruct (String.eqb c k) eqn:?; [reflexivity|]
         end.
  cbn [default]. unfold renombra, rename_map. cbn [busca].
  repeat match goal with
         | Hk : String.eqb c ?k = false |- _ => rewrite Hk; clear Hk
         end.
  reflexivity.
Qed.

(** X18. A frame that [normaliza_cols] has returned is left as it is by a
    second pass, provided cleaning leaves its headers as they are: every
    canonical name, and every header the dictionary does not know, is its
    own canonical name. *)
Theorem normaliza_cols_idempotent (cols cols' : list string) :
  normaliza_cols limpia cols = inl cols' ->
  (forall h, In h cols' -> limpia h = h) ->
  normaliza_cols limpia cols' = inl cols'.
Proof.
  intros Hok Hclean.
  destruct (proj1 (normaliza_cols_inl cols cols') Hok) as [Hc Hreq].
  assert (Hfix : canonicas limpia cols' = cols').
  { unfold canonicas. rewrite <- (map_id cols') at 2. apply map_ext_in. intros h Hh.
    rewrite (Hclean h Hh). rewrite Hc in Hh. unfold canonicas in Hh.
    apply in_map_iff in Hh as (h0 & <- & _). apply renombra_idem. }
  apply normaliza_cols_inl. rewrite Hfix. split; [reflexivity|exact Hreq].
Qed.

(** X19. Columns beyond the six never make [normaliza_cols] stop, not
    even a second column with the name of one it already has: the check is
    on the presence of the names alone. *)
Theorem normaliza_cols_extra_columns (cols extra cols' : list string) :
  normaliza_cols limpia cols = inl cols' ->
  normaliza_cols limpia (cols ++ extra) = inl (cols' ++ canonicas limpia extra).
Proof.
  intros Hok.
  destruct (proj1 (normaliza_cols_inl cols cols') Hok) as [Hc Hreq].
  apply normaliza_cols_inl. split.
  - unfold canonicas in *. rewrite map_app, <- Hc. reflexivity.
  - intros c Hr. apply in_or_app. left. apply Hreq, Hr.
Qed.

End NormalizaCols.

(** ** Further properties: order of the input and trade linkage *)

Section OrdenDeEntrada.
Context {A : Type} `{Numero A}.

Lemma estrictamente_ordenado (l : list (Row A)) :
  StronglySorted antes l -> List.NoDup (map date l) -> StronglySorted antes_estricto l.
Proof.
  induction 1 as [|x l Hs IH Hall]; intros Hnd; constructor.
  - apply IH. inversion Hnd; assumption.
  - inversion Hnd as [|? ? Hx _]; subst.
    rewrite List.Forall_forall in *. intros y Hy.
    specialize (Hall y Hy). unfold antes, antes_estricto in *.
    assert (date x <> date y) by (intros Heq; apply Hx; rewrite Heq; apply in_map; exact Hy).
    lia.
Qed.

(** Two strictly ascending arrangements of the same rows are the same. *)
Lemma orden_unico (l1 : list (Row A)) :
  forall l2 : list (Row A),
    StronglySorted antes_estricto l1 -> StronglySorted antes_estricto l2 ->
    Permutation l1 l2 -> l1 = l2.
Proof.
  induction l1 as [|x l1 IH]; intros l2 H1 H2 Hp.
  - apply Permutation_nil in Hp. subst. reflexivity.
  - destruct l2 as [|y l2]; [apply Permutation_sym, Permutation_nil in Hp; discriminate|].
    inversion H1 as [|? ? H1' Hx]; inversion H2 as [|? ? H2' Hy]; subst.
    rewrite List.Forall_forall in Hx, Hy.
    assert (Hxy : x = y).
    { assert (Hin : In x (y :: l2)) by (eapply Permutation_in; [exact Hp|left; reflexivity]).
      destruct Hin as [->|Hin]; [reflexivity|].
      assert (Hin' : In y (x :: l1))
        by (eapply Permutation_in; [symmetry; exact Hp|left; reflexivity]).
      destruct Hin' as [->|Hin']; [reflexivity|].
      specialize (Hx y Hin'). specialize (Hy x Hin). unfold antes_estricto in *. lia. }
    subst y. f_equal. apply IH; [assumption|assumption|].
    eapply Permutation_cons_inv. exact Hp.
Qed.

Lemma sort_values_de_permutacion (df df' : list (Row A)) :
  Permutation df df' -> List.NoDup (map date df) -> sort_values df = sort_values df'.
Proof.
  intros Hp Hnd.
  assert (Hs : forall l, Permutation df l -> StronglySorted antes_estricto (sort_values l)).
  { intros l Hl. apply estrictamente_ordenado.
    - apply Sorted_StronglySorted; [|apply sort_values_sorted].
      intros a b c. unfold antes. lia.
    - eapply Permutation_NoDup; [|exact Hnd].
      apply Permutation_map. rewrite Hl. apply sort_values_perm. }
  apply orden_unico; [apply Hs; reflexivity|apply Hs; exact Hp|].
  rewrite <- (sort_values_perm df), <- (sort_values_perm df'). exact Hp.
Qed.

(** X20. When no two rows have the same date, the result does not depend
    on the order in which the rows are supplied. *)
Theorem output_independent_of_row_order (ignorar : gset string) (solo_crypto : option string)
    (df df' : list (Row A)) :
  Permutation df df' ->
  List.NoDup (map date df) ->
  fifo_ct ignorar solo_crypto df = fifo_ct ignorar solo_crypto df'.
Proof.
  intros Hp Hnd. unfold fifo_ct, marco.
  rewrite (sort_values_de_permutacion df df' Hp Hnd). reflexivity.
Qed.

End OrdenDeEntrada.

Section Enlace.
Context {A : Type} `{Numero A}.

(** The record of the i-th disposal row of the frame. *)
Lemma registro_de_venta (ignorar : gset string) (solo_crypto : option string)
    (df : list (Row A)) (i : nat) (row : Row A) (f : Fila A) :
  nth_error (ventas ignorar (marco solo_crypto df)) i = Some row ->
  nth_error (fst (fifo_ct ignorar solo_crypto df)) i = Some f ->
  en_la_fila f = de_la_fila (marco solo_crypto df) row.
Proof.
  intros Hrow Hf.
  pose proof (detalle_ventas ignorar solo_crypto df) as Hd.
  apply (f_equal (fun l => nth_error l i)) in Hd.
  rewrite !nth_error_map, Hrow, Hf in Hd. cbn [option_map] in Hd. congruence.
Qed.

(** X21. A disposal is classed F exactly when some row of the frame with
    its trade_id carries the ticker EUR, whatever that row is: the fee row
    of the trade counts as much as its counter-asset row. *)
Theorem class_is_fiat_iff (ignorar : gset string) (solo_crypto : option string)
    (df : list (Row A)) (i : nat) (row : Row A) (f : Fila A) :
  nth_error (ventas ignorar (marco solo_crypto df)) i = Some row ->
  nth_error (fst (fifo_ct ignorar solo_crypto df)) i = Some f ->
  clave f = F
  <-> exists r, In r (marco solo_crypto df)
                /\ mismo_trade (trade_id r) (trade_id row) = true
                /\ upper (cur r) = "EUR"%string.
Proof.
  intros Hrow Hf.
  pose proof (registro_de_venta ignorar solo_crypto df i row f Hrow Hf) as He.
  unfold en_la_fila, de_la_fila in He.
  assert (Hk : clave f = clave_de (marco solo_crypto df) row) by congruence.
  rewrite Hk. unfold clave_de.
  destruct (existsb _ (marco solo_crypto df)) eqn:Hex.
  - split; [intros _|reflexivity].
    apply existsb_exists in Hex as (r & Hr & Hm).
    apply andb_true_iff in Hm as [Hm Hc]. apply String.eqb_eq in Hc. eauto.
  - split; [discriminate|]. intros (r & Hr & Hm & Hc). exfalso.
    assert (Ht : existsb (fun r => mismo_trade (trade_id r) (trade_id row)
                                   && String.eqb (upper (cur r)) "EUR")
                   (marco solo_crypto df) = true).
    { apply existsb_exists. exists r. split; [exact Hr|].
      rewrite Hm, Hc. reflexivity. }
    congruence.
Qed.

(** X22. Fees are not shared out: two disposals with the same trade_id
    are each recorded with the whole fee of the trade, the rounded sum of
    the absolute values of all the fee rows of the frame on that trade, and
    with the same class. *)
Theorem same_trade_same_fee (ignorar : gset string) (solo_crypto : option string)
    (df : list (Row A)) (i j : nat) (row_i row_j : Row A) (f_i f_j : Fila A) :
  nth_error (ventas ignorar (marco solo_crypto df)) i = Some row_i ->
  nth_error (fst (fifo_ct ignorar solo_crypto df)) i = Some f_i ->
  nth_error (ventas ignorar (marco solo_crypto df)) j = Some row_j ->
  nth_error (fst (fifo_ct ignorar solo_crypto df)) j = Some f_j ->
  trade_id row_i = trade_id row_j ->
  let fee :=
    round2_np
      (suma (map (fun r => nabs (eur r))
               (List.filter
                  (fun r => mismo_trade (trade_id r) (trade_id row_i) && es_fee (tipo r))
                  (marco solo_crypto df)))) in
  gastos f_i = fee /\ gastos f_j = fee /\ clave f_i = clave f_j.
Proof.
  intros Hri Hfi Hrj Hfj Ht fee.
  pose proof (registro_de_venta ignorar solo_crypto df i row_i f_i Hri Hfi) as Hi.
  pose proof (registro_de_venta ignorar solo_crypto df j row_j f_j Hrj Hfj) as Hj.
  unfold en_la_fila, de_la_fila in Hi, Hj.
  assert (Hgi : gastos f_i = round2_np (fee_eur (marco solo_crypto df) row_i)) by congruence.
  assert (Hgj : gastos f_j = round2_np (fee_eur (marco solo_crypto df) row_j)) by congruence.
  assert (Hki : clave f_i = clave_de (marco solo_crypto df) row_i) by congruence.
  assert (Hkj : clave f_j = clave_de (marco solo_crypto df) row_j) by congruence.
  rewrite Hgi, Hgj, Hki, Hkj. unfold fee, fee_eur, clave_de. rewrite Ht.
  split; [reflexivity|]. split; reflexivity.
Qed.

End Enlace.

Section GananciaExacta.
Import Exacto.
Local Open Scope Q_scope.

(** X23. In exact arithmetic the gain of a record is within two cents of
    value minus cost minus fee taken on the fields of the record. *)
Theorem gain_within_two_cents (ignorar : gset string) (solo_crypto : option string)
    (df : list (Row Q)) (f : Fila Q) :
  In f (fst (fifo_ct ignorar solo_crypto df)) ->
  Qabs (ganancia f - (valor_transm f - coste_fifo f - gastos f)) <= 1 # 50.
Proof.
  intros Hin. rewrite detalle_de_traza in Hin.
  apply in_map_iff in Hin as ([row l] & <- & _).
  cbn [fst snd fila ganancia valor_transm coste_fifo gastos]. numQ.
  change (@round2 Q _) with round2_q. change (@round2_np Q _) with round2_q.
  pose proof (round2_q_cerca (l_valor_transm l)) as Hv.
  pose proof (round2_q_cerca (l_coste_fifo l)) as Hc.
  pose proof (round2_q_cerca (l_fee_eur l)) as Hg.
  pose proof (round2_q_cerca (l_valor_transm l - l_coste_fifo l - l_fee_eur l)) as Hn.
  apply Qabs_Qle_condition. split; lra.
Qed.

End GananciaExacta.

(** ** Instances of the further properties *)

Section Testigos.
Import Escenario.

Lemma only_active_rows_matter_witness :
  paso ignorar cuatro_filas (motor ignorar cuatro_filas)
    (mkRow (t 3) "Fee" 0 "EUR" 5 (Some "T1"%string))%float
  = motor ignorar cuatro_filas.
Proof.
  apply (only_active_rows_matter ignorar cuatro_filas). reflexivity.
Defined.

Lemma ignored_tickers_leave_no_trace_witness :
  fst (motor ignorar cuatro_filas) !! "EUR"%string = None.
Proof.
  apply (ignored_tickers_leave_no_trace ignorar cuatro_filas).
  apply elem_of_singleton. reflexivity.
Defined.

Lemma acquisitions_queue_in_order_witness :
  lotes (fst (fold_left (paso ignorar cuatro_filas) (firstn 2 cuatro_filas) (∅, [])))
        "BTC"
  = lotes (fst ((∅, []) : Estado float)) "BTC"
    ++ map lote_de
         (List.filter (fun r => comprada ignorar r && del_activo "BTC" r)
            (firstn 2 cuatro_filas)).
Proof.
  apply (acquisitions_queue_in_order ignorar cuatro_filas "BTC" (firstn 2 cuatro_filas)).
  intros r [<-|[<-|[]]]; reflexivity.
Defined.

Lemma filter_keeps_matching_witness :
  map nucleo (fst (fifo_ct ignorar (Some "btc"%string) fee_en_eur))
  = map nucleo (List.filter (fun f => String.eqb (cripto f) (upper "btc"))
                  (fst (fifo_ct ignorar None fee_en_eur))).
Proof.
  apply (filter_keeps_matching ignorar "btc" fee_en_eur). discriminate.
Defined.

Lemma filter_hides_the_counter_asset_witness :
  clave (mkFila 2 "BTC" 1 450 100 0 350 N)%float = N.
Proof.
  apply (filter_hides_the_counter_asset ignorar "BTC" fee_en_eur
           (mkFila 2 "BTC" 1 450 100 0 350 N)%float).
  - discriminate.
  - left. vm_compute. reflexivity.
  - discriminate.
Defined.

Lemma consume_accounts_witness :
  (- eps <= fst (fst (consume [mkLot (3 # 2) 100] 1 0)))%Q.
Proof.
  apply (consume_accounts [mkLot (3 # 2) 100]%Q 1%Q 0%Q).
  - repeat constructor.
  - vm_compute. discriminate.
Defined.

Lemma records_are_of_the_year_witness :
  exists (c : Crudo Q) (d : Z),
    In c EscenarioAnual.dos_anios /\ c_date c = Some d /\ anio_civil d = 2024%Z
    /\ es_venta (c_tipo c) = true
    /\ fecha EscenarioAnual.registro = dia d
    /\ cripto EscenarioAnual.registro = upper (c_cur c)
    /\ qty EscenarioAnual.registro = (- c_amount c)%num.
Proof.
  apply (records_are_of_the_year anio_civil lee_decimal 2024%Z ignorar None
           EscenarioAnual.dos_anios
           [EscenarioAnual.registro]
           [EscenarioAnual.total]).
  - vm_compute. reflexivity.
  - left. reflexivity.
Defined.

Lemma acquisitions_of_other_years_are_lost_witness :
  coste_fifo EscenarioAnual.registro = round2 cero.
Proof.
  apply (acquisitions_of_other_years_are_lost anio_civil lee_decimal 2024%Z ignorar None
           EscenarioAnual.dos_anios "BTC"
           [EscenarioAnual.registro]
           [EscenarioAnual.total]).
  - intros c [<-|[<-|[<-|[]]]] Hc _; first [vm_compute; reflexivity | discriminate Hc].
  - vm_compute. reflexivity.
  - left. reflexivity.
  - reflexivity.
Defined.

Lemma unreadable_value_stops_the_run_witness :
  fifo_ct_anual anio_civil lee_decimal 2024%Z ignorar None EscenarioAnual.con_error = None
  /\ fifo_ct_anual anio_civil lee_decimal 2024%Z ignorar None EscenarioAnual.dos_anios
     = fifo_ct_anual anio_civil lee_decimal 2024%Z ignorar None
         (firstn 2 EscenarioAnual.dos_anios ++ []).
Proof.
  split.
  - apply (unreadable_value_stops_the_run anio_civil lee_decimal 2024%Z ignorar None
             EscenarioAnual.con_error).
    apply (unreadable_value_stops_the_run anio_civil lee_decimal 2024%Z ignorar None
             EscenarioAnual.con_error).
    exists (mkCrudo (Some (t 19800)) "Deposit" 1%Q "EUR" (Texto "sin valor") None).
    split; [|split]; [|vm_compute; reflexivity|reflexivity].
    unfold EscenarioAnual.con_error. apply in_or_app. right. left. reflexivity.
  - apply (proj2 (proj2 (unreadable_value_stops_the_run anio_civil lee_decimal 2024%Z
                            ignorar None EscenarioAnual.dos_anios))
             (firstn 2 EscenarioAnual.dos_anios) []
             (mkCrudo None "Sell" (- 1)%Q "BTC" (Texto "sin valor") (Some "T2"%string)));
      reflexivity.
Defined.

Lemma commas_are_dropped_witness :
  limpia_eur lee_decimal (Texto ("12" ++ "," ++ "5")) = limpia_eur lee_decimal (Texto ("12" ++ "5")).
Proof.
  apply (commas_are_dropped lee_decimal "12" "5"). discriminate.
Defined.

Lemma normaliza_cols_result_witness :
  normaliza_cols EscenarioCabeceras.limpias EscenarioCabeceras.castellano
  = inl (canonicas EscenarioCabeceras.limpias EscenarioCabeceras.castellano).
Proof.
  apply (normaliza_cols_result EscenarioCabeceras.limpias EscenarioCabeceras.castellano).
  intros c Hc. vm_compute in Hc. vm_compute.
  destruct Hc as [<-|[<-|[<-|[<-|[<-|[<-|[]]]]]]]; auto 10.
Defined.

Lemma normaliza_cols_idempotent_witness :
  normaliza_cols EscenarioCabeceras.limpias EscenarioCabeceras.canonico
  = inl EscenarioCabeceras.canonico.
Proof.
  apply (normaliza_cols_idempotent EscenarioCabeceras.limpias
           EscenarioCabeceras.castellano EscenarioCabeceras.canonico).
  - vm_compute. reflexivity.
  - intros h _. reflexivity.
Defined.

Lemma normaliza_cols_extra_columns_witness :
  normaliza_cols EscenarioCabeceras.limpias (EscenarioCabeceras.canonico ++ ["type"%string])
  = inl (EscenarioCabeceras.canonico
         ++ canonicas EscenarioCabeceras.limpias ["type"%string]).
Proof.
  apply (normaliza_cols_extra_columns EscenarioCabeceras.limpias).
  vm_compute. reflexivity.
Defined.

Lemma output_independent_of_row_order_witness :
  fifo_ct ignorar None desordenado = fifo_ct ignorar None EscenarioEnlace.venta_primero.
Proof.
  apply (output_independent_of_row_order ignorar None desordenado
           EscenarioEnlace.venta_primero).
  - apply perm_swap.
  - repeat constructor; vm_compute; intuition discriminate.
Defined.

Lemma class_is_fiat_iff_witness :
  clave (mkFila 3 "BTC" 1.5 450 250 5 195 F)%float = F
  <-> exists r, In r (marco None cuatro_filas)
                /\ mismo_trade (trade_id r) (Some "T1"%string) = true
                /\ upper (cur r) = "EUR"%string.
Proof.
  apply (class_is_fiat_iff ignorar None cuatro_filas 0%nat
           (mkRow (t 3) "Sell" (-1.5) "BTC" (-450) (Some "T1"%string))%float
           (mkFila 3 "BTC" 1.5 450 250 5 195 F)%float);
    vm_compute; reflexivity.
Defined.

Lemma same_trade_same_fee_witness :
  gastos (mkFila 3 "BTC" 1 450 100 5 345 F)%float = 5%float
  /\ gastos (mkFila 4 "ETH" 10 300 200 5 95 F)%float = 5%float
  /\ clave (mkFila 3 "BTC" 1 450 100 5 345 F)%float
     = clave (mkFila 4 "ETH" 10 300 200 5 95 F)%float.
Proof.
  pose proof (same_trade_same_fee ignorar None EscenarioEnlace.dos_ventas 0%nat 1%nat
                (mkRow (t 3) "Sell" (-1) "BTC" (-450) (Some "T1"%string))%float
                (mkRow (t 4) "Sell" (-10) "ETH" (-300) (Some "T1"%string))%float
                (mkFila 3 "BTC" 1 450 100 5 345 F)%float
                (mkFila 4 "ETH" 10 300 200 5 95 F)%float
                eq_refl eq_refl eq_refl eq_refl eq_refl) as H.
  cbv zeta in H.
  replace (round2_np
             (suma (map (fun r : Row float => nabs (eur r))
                      (List.filter
                         (fun r => mismo_trade (trade_id r) (Some "T1"%string)
                                   && es_fee (tipo r))
                         (marco None EscenarioEnlace.dos_ventas)))))
    with 5%float in H by (vm_compute; reflexivity).
  exact H.
Defined.

Lemma gain_within_two_cents_witness :
  (Qabs (ganancia (mkFila 0 "BTC" 1 1 (1 # 100) 0 (99 # 100) N : Fila Q)
         - (valor_transm (mkFila 0 "BTC" 1 1 (1 # 100) 0 (99 # 100) N : Fila Q)
            - coste_fifo (mkFila 0 "BTC" 1 1 (1 # 100) 0 (99 # 100) N : Fila Q)
            - gastos (mkFila 0 "BTC" 1 1 (1 # 100) 0 (99 # 100) N : Fila Q)))
   <= 1 # 50)%Q.
Proof.
  apply (gain_within_two_cents EscenarioQ.ignorar None EscenarioQ.dos_mitades).
  left. vm_compute. reflexivity.
Defined.

End Testigos.
